(** * Blueprint parser: AST, scope, inline evaluator and recursive-descent parser

    A shallow embedding of [parser/ast.go]: the expression tree with its
    [Type], [Eval] and [Copy] methods, the two-tier [Scope], the operator
    evaluator ([evaluateOperator], [addMaps]) and the recursive-descent
    parser written in a state-and-panic monad over the token stream that
    [text/scanner] delivers. *)

From Stdlib Require Import ZArith String Ascii List Lia Bool Arith.
From stdpp Require Import base option list strings gmap.

#[local] Set Warnings "-register-all".
#[local] Open Scope string_scope.
#[local] Open Scope Z_scope.
#[local] Open Scope list_scope.

(** ** Positions, runes and type tags *)

(** [scanner.Position]. *)
Record Position : Type := mkPosition {
  Filename : string;
  Offset : Z;
  Line : Z;
  Column : Z
}.

Definition Position_IsValid (pos : Position) : bool := 0 <? Line pos.

(** The zero value of [scanner.Position]. *)
Definition zeroPos : Position := mkPosition "" 0 0 0.

Definition endPos (pos : Position) (n : Z) : Position :=
  mkPosition (Filename pos) (Offset pos + n) (Line pos) (Column pos + n).

#[global] Instance Position_eq_dec : EqDecision Position.
Proof. solve_decision. Defined.

(** A Go [rune]; the token classes of [text/scanner] are the negative ones. *)
Abbreviation rune := Z (only parsing).

Module scanner.
Definition EOF : rune := -1.
Definition Ident : rune := -2.
Definition Int : rune := -3.
Definition Float : rune := -4.
Definition Char : rune := -5.
Definition String : rune := -6.
Definition RawString : rune := -7.
Definition Comment : rune := -8.
End scanner.

(** The code point of a one-character token such as ['+']. *)
Definition chr (s : string) : rune :=
  match s with
  | String.String a _ => Z.of_nat (Ascii.nat_of_ascii a)
  | EmptyString => 0
  end.
Arguments chr : simpl never.

(** [type Type int] with its seven constants. *)
Inductive Type_ : Type :=
| BoolType
| StringType
| Int64Type
| ListType
| MapType
| NotEvaluatedType
| UnsetType.

#[global] Instance Type_eq_dec : EqDecision Type_.
Proof. solve_decision. Defined.

(** Go's [int64]: a [Z] kept in range by wrapping after each addition. *)
Definition wrap64 (z : Z) : Z := (z + 2 ^ 63) mod 2 ^ 64 - 2 ^ 63.
Definition int64_add (a b : Z) : Z := wrap64 (a + b).
Definition int64_range (z : Z) : Prop := - 2 ^ 63 <= z < 2 ^ 63.

(** ** The expression tree *)

(** [ConfigurableCondition]; an argument is a [String] struct, that is a
    literal position together with the decoded value. *)
Record ConfigurableCondition : Type := mkCondition {
  position : Position;
  FunctionName : string;
  Args : list (Position * string)
}.

(** The implementers of the [Expression] interface, with [Property] and
    [SelectCase], which hold expressions and are held by them. *)
Inductive Expression : Type :=
| EBool (LiteralPos : Position) (Value : bool) (Token : string)
| EString (LiteralPos : Position) (Value : string)
| EInt64 (LiteralPos : Position) (Value : Z) (Token : string)
| EList (LBracePos RBracePos : Position) (Values : list Expression)
| EMap (LBracePos RBracePos : Position) (Properties : list Property)
| EVariable (Name : string) (NamePos : Position) (Value : Expression)
| EOperator (Args0 Args1 : Expression) (Operator : rune)
            (OperatorPos : Position) (Value : Expression)
| ESelect (KeywordPos : Position) (Conditions : list ConfigurableCondition)
          (LBracePos RBracePos : Position) (Cases : list SelectCase)
          (Append : option Expression) (ExpressionType : Type_)
| ENotEvaluated (Pos : Position)
| EUnsetProperty (Pos : Position)
with Property : Type :=
| mkProperty (Name : string) (NamePos ColonPos : Position) (Value : Expression)
with SelectCase : Type :=
| mkSelectCase (Patterns : list Expression) (ColonPos : Position)
               (Value : Expression).

Definition Property_Name (p : Property) : string :=
  match p with mkProperty n _ _ _ => n end.
Definition Property_Value (p : Property) : Expression :=
  match p with mkProperty _ _ _ v => v end.
Definition Property_setValue (p : Property) (v : Expression) : Property :=
  match p with mkProperty n np cp _ => mkProperty n np cp v end.

Definition SelectCase_Patterns (c : SelectCase) : list Expression :=
  match c with mkSelectCase ps _ _ => ps end.
Definition SelectCase_Value (c : SelectCase) : Expression :=
  match c with mkSelectCase _ _ v => v end.

(** [Type()]: a literal knows its tag, a variable has its referent's, an
    operator its left operand's, and a select its declared one unless that
    is unset and something was appended. *)
Fixpoint ExprType (x : Expression) : Type_ :=
  match x with
  | EBool _ _ _ => BoolType
  | EString _ _ => StringType
  | EInt64 _ _ _ => Int64Type
  | EList _ _ _ => ListType
  | EMap _ _ _ => MapType
  | EVariable _ _ v => ExprType v
  | EOperator a0 _ _ _ _ => ExprType a0
  | ESelect _ _ _ _ _ app ty =>
      match ty, app with
      | UnsetType, Some a => ExprType a
      | _, _ => ty
      end
  | ENotEvaluated _ => NotEvaluatedType
  | EUnsetProperty _ => UnsetType
  end.

(** [Eval()]: operators and variables hand back the evaluation of their
    stored value, every other node is its own value. *)
Fixpoint Eval (x : Expression) : Expression :=
  match x with
  | EOperator _ _ _ _ v => Eval v
  | EVariable _ _ v => Eval v
  | _ => x
  end.

(** [Copy()] at the level of trees.  [Operator.Copy] copies both arguments
    and keeps the [Value] it has; [Variable.Copy] keeps its referent;
    [SelectCase.Copy] copies the value and keeps the patterns. *)
Fixpoint Copy (x : Expression) : Expression :=
  match x with
  | EBool p v t => EBool p v t
  | EString p v => EString p v
  | EInt64 p v t => EInt64 p v t
  | EList l r vs => EList l r (map Copy vs)
  | EMap l r ps => EMap l r (map Property_Copy ps)
  | EVariable n p v => EVariable n p v
  | EOperator a0 a1 o p v => EOperator (Copy a0) (Copy a1) o p v
  | ESelect k cs l r cases app ty =>
      ESelect k cs l r (map SelectCase_Copy cases)
              (match app with Some a => Some (Copy a) | None => None end) ty
  | ENotEvaluated p => ENotEvaluated p
  | EUnsetProperty p => EUnsetProperty p
  end
with Property_Copy (p : Property) : Property :=
  match p with
  | mkProperty n np cp v => mkProperty n np cp (Copy v)
  end
with SelectCase_Copy (c : SelectCase) : SelectCase :=
  match c with
  | mkSelectCase ps cp v => mkSelectCase ps cp (Copy v)
  end.

(** Nesting depth, the measure along which [evaluateOperator] recurses. *)
Fixpoint rank (x : Expression) : nat :=
  match x with
  | EList _ _ vs => S (foldr (fun v n => Nat.max (rank v) n) O vs)
  | EMap _ _ ps => S (foldr (fun p n => Nat.max (Property_rank p) n) O ps)
  | EVariable _ _ v => S (rank v)
  | EOperator a0 a1 _ _ v => S (Nat.max (rank a0) (Nat.max (rank a1) (rank v)))
  | ESelect _ _ _ _ cases app _ =>
      S (Nat.max (foldr (fun c n => Nat.max (SelectCase_rank c) n) O cases)
                 (match app with Some a => rank a | None => O end))
  | _ => O
  end
with Property_rank (p : Property) : nat :=
  match p with mkProperty _ _ _ v => rank v end
with SelectCase_rank (c : SelectCase) : nat :=
  match c with mkSelectCase _ _ v => rank v end.

(** ** Errors *)

(** The messages the parser and the evaluator build with [fmt.Errorf], kept
    as data: the format and its arguments. *)
Inductive error : Type :=
| ErrMismatchedType (operator : rune) (t1 t2 : Type_)
| ErrOperatorNotSupported (operator : rune) (t : Type_)
| ErrScanner (msg : string)
| ErrExpected (want found : rune)
| ErrExpectedDefinitionStart (found : rune)
| ErrExpectedDefinition (found : rune)
| ErrReservedKeyword
| ErrModifiedNonExistent (name : string)
| ErrModifiedNonLocal (name : string)
| ErrModifiedAfterReferencing (name : string)
| ErrAlreadySet (name : string)
| ErrAlreadySetInherited (name : string)
| ErrSubtraction
| ErrExpectedValue (found : rune)
| ErrExpectedTrueFalse (text : string)
| ErrVariableNotSet (name : string)
| ErrDuplicateCondition (c : ConfigurableCondition)
| ErrExpectedMultipleConditions
| ErrExpectedPattern (text : string)
| ErrReservedPattern
| ErrEmptySelect
| ErrDuplicatePatterns (patterns : list Expression)
| ErrDefaultNotLast (index last : Z)
| ErrDifferingTypes (t1 t2 : Type_)
| ErrParseString (text : string)
| ErrExpectedInt (found : rune)
| ErrParseInt (text : string).

(** What a Go call can do: return, return an [error], panic, or, in the
    model only, exhaust the recursion budget. *)
Inductive outcome (A : Type) : Type :=
| Return (a : A)
| Failure (e : error)
| Panicked (msg : string)
| OutOfFuel.
Arguments Return {A} a.
Arguments Failure {A} e.
Arguments Panicked {A} msg.
Arguments OutOfFuel {A}.

(** ** The operator evaluator *)

Definition isSelect (x : Expression) : bool :=
  match x with ESelect _ _ _ _ _ _ _ => true | _ => false end.

(** [inMap1], [inMap2] and [inBoth] as [addMaps] fills them. *)
Definition addMaps_inMap1 (map1 : list Property) : gmap string Property :=
  foldl (fun m prop1 => <[Property_Name prop1 := prop1]> m) ∅ map1.

Definition addMaps_inMap2_inBoth (inMap1 : gmap string Property)
    (map2 : list Property) : gmap string Property * gmap string Property :=
  foldl (fun '(inMap2, inBoth) prop2 =>
           (<[Property_Name prop2 := prop2]> inMap2,
            match inMap1 !! Property_Name prop2 with
            | Some _ => <[Property_Name prop2 := prop2]> inBoth
            | None => inBoth
            end))
        (∅, ∅) map2.

Section Evaluator.
(** [p.eval], the only part of the parser the evaluator reads. *)
Variable eval : bool.

(** The first loop of [addMaps], over [map1]; [ev] stands for the call
    back into [p.evaluateOperator]. *)
Fixpoint addMaps_loop1
    (ev : Expression -> Expression -> rune -> Position -> outcome Expression)
    (inBoth : gmap string Property) (pos : Position)
    (map1 ret : list Property) : outcome (list Property) :=
  match map1 with
  | [] => Return ret
  | prop1 :: rest =>
      match inBoth !! Property_Name prop1 with
      | Some prop2 =>
          match ev (Property_Value prop1) (Property_Value prop2)
                   (chr "+") pos with
          | Return v =>
              addMaps_loop1 ev inBoth pos rest
                            (ret ++ [Property_setValue prop1 v])
          | Failure e => Failure e
          | Panicked m => Panicked m
          | OutOfFuel => OutOfFuel
          end
      | None => addMaps_loop1 ev inBoth pos rest (ret ++ [prop1])
      end
  end.

(** The second loop: the properties of [map2] whose key [map1] lacks. *)
Definition addMaps_loop2 (inBoth : gmap string Property)
    (map2 ret : list Property) : list Property :=
  foldl (fun ret prop2 =>
           match inBoth !! Property_Name prop2 with
           | Some _ => ret
           | None => ret ++ [prop2]
           end) ret map2.

Definition addMaps_with
    (ev : Expression -> Expression -> rune -> Position -> outcome Expression)
    (map1 map2 : list Property) (pos : Position)
    : outcome (list Property) :=
  let inMap1 := addMaps_inMap1 map1 in
  let inBoth := snd (addMaps_inMap2_inBoth inMap1 map2) in
  match addMaps_loop1 ev inBoth pos map1 [] with
  | Return ret => Return (addMaps_loop2 inBoth map2 ret)
  | other => other
  end.

(** The body of [evaluateOperator]; [addMaps] stands for [p.addMaps]. *)
Definition evaluateOperator_step
    (addMaps : list Property -> list Property -> Position ->
               outcome (list Property))
    (value1 value2 : Expression) (operator : rune) (pos : Position)
    : outcome Expression :=
  if decide (ExprType value1 = UnsetType) then Return value2
  else if decide (ExprType value2 = UnsetType) then Return value1
  else if eval then
    let e1 := Eval value1 in
    let e2 := Eval value2 in
    if decide (ExprType e1 = ExprType e2) then
      let e1 :=
        if negb (isSelect e1) && isSelect e2
        then ESelect zeroPos [] zeroPos zeroPos
                     [mkSelectCase [] zeroPos e1] None (ExprType e1)
        else e1 in
      let value := Copy e1 in
      let result (value : Expression) :=
        Return (EOperator value1 value2 operator pos value) in
      if decide (operator = chr "+") then
        match value with
        | EString lp v =>
            match e2 with
            | EString _ v2 => result (EString lp (v ++ v2)%string)
            | _ => Panicked "interface conversion"
            end
        | EInt64 lp v _ =>
            match e2 with
            | EInt64 _ v2 _ => result (EInt64 lp (int64_add v v2) "")
            | _ => Panicked "interface conversion"
            end
        | EList l r vs =>
            match e2 with
            | EList _ _ vs2 => result (EList l r (vs ++ vs2))
            | _ => Panicked "interface conversion"
            end
        | EMap l r props =>
            match e2 with
            | EMap _ _ props2 =>
                match addMaps props props2 pos with
                | Return props' => result (EMap l r props')
                | Failure e => Failure e
                | Panicked m => Panicked m
                | OutOfFuel => OutOfFuel
                end
            | _ => Panicked "interface conversion"
            end
        | ESelect k cs l r cases _ ty =>
            result (ESelect k cs l r cases (Some e2) ty)
        | v => Failure (ErrOperatorNotSupported operator (ExprType v))
        end
      else Panicked "unknown operator"
    else Failure (ErrMismatchedType operator (ExprType e1) (ExprType e2))
  else Return (EOperator value1 value2 operator pos value1).

(** [evaluateOperator] and [addMaps] call each other; the recursion is
    tied with a budget that each descent into a shared key spends. *)
Fixpoint evaluateOperator_fuel (fuel : nat) (value1 value2 : Expression)
    (operator : rune) (pos : Position) : outcome Expression :=
  match fuel with
  | O => OutOfFuel
  | S fuel' =>
      evaluateOperator_step (addMaps_with (evaluateOperator_fuel fuel'))
                            value1 value2 operator pos
  end.

(** [p.evaluateOperator]: a budget of one more than the nesting depth of
    the left operand is never exhausted ([evaluateOperator_unfold]). *)
Definition evaluateOperator (value1 value2 : Expression) (operator : rune)
    (pos : Position) : outcome Expression :=
  evaluateOperator_fuel (S (rank value1)) value1 value2 operator pos.

(** [p.addMaps]. *)
Definition addMaps (map1 map2 : list Property) (pos : Position)
    : outcome (list Property) :=
  addMaps_with evaluateOperator map1 map2 pos.
End Evaluator.

(** Every node of an expression: the node itself, then the nodes of the
    expressions it holds. *)
Fixpoint subexpressions (x : Expression) : list Expression :=
  x ::
  match x with
  | EList _ _ vs => flat_map subexpressions vs
  | EMap _ _ ps => flat_map Property_subexpressions ps
  | EVariable _ _ v => subexpressions v
  | EOperator a0 a1 _ _ v =>
      subexpressions a0 ++ subexpressions a1 ++ subexpressions v
  | ESelect _ _ _ _ cases app _ =>
      flat_map SelectCase_subexpressions cases
      ++ match app with Some a => subexpressions a | None => [] end
  | _ => []
  end
with Property_subexpressions (p : Property) : list Expression :=
  match p with mkProperty _ _ _ v => subexpressions v end
with SelectCase_subexpressions (c : SelectCase) : list Expression :=
  match c with
  | mkSelectCase ps _ v => flat_map subexpressions ps ++ subexpressions v
  end.

(** ** Assignments, modules and files *)

(** [Assignment].  Assignments are shared by pointer between the scope, the
    parent scopes and the definitions of the file, so they live in a store
    and are named by their address. *)
Record Assignment : Type := mkAssignment {
  Assignment_Name : string;
  Assignment_NamePos : Position;
  Assignment_Value : Expression;
  Assignment_OrigValue : Expression;
  Assignment_EqualsPos : Position;
  Assignment_Assigner : string;
  Assignment_Referenced : bool
}.

(** A [*Assignment]: an index into the store. *)
Abbreviation ptr := nat (only parsing).
Abbreviation store := (list Assignment) (only parsing).

Definition Assignment_setValue (a : Assignment) (v : Expression) : Assignment :=
  mkAssignment (Assignment_Name a) (Assignment_NamePos a) v
               (Assignment_OrigValue a) (Assignment_EqualsPos a)
               (Assignment_Assigner a) (Assignment_Referenced a).

Definition Assignment_setReferenced (a : Assignment) (b : bool) : Assignment :=
  mkAssignment (Assignment_Name a) (Assignment_NamePos a) (Assignment_Value a)
               (Assignment_OrigValue a) (Assignment_EqualsPos a)
               (Assignment_Assigner a) b.

(** [Module]; the embedded [Map] is spelled out, and the [*string] cache is
    an optional string. *)
Record Module : Type := mkModule {
  Module_Type : string;
  Module_TypePos : Position;
  Module_LBracePos : Position;
  Module_RBracePos : Position;
  Module_Properties : list Property;
  Name__internal_only : option string
}.

Definition Module_setProperties (m : Module) (ps : list Property) : Module :=
  mkModule (Module_Type m) (Module_TypePos m) (Module_LBracePos m)
           (Module_RBracePos m) ps (Name__internal_only m).

Definition Module_setName (m : Module) (n : option string) : Module :=
  mkModule (Module_Type m) (Module_TypePos m) (Module_LBracePos m)
           (Module_RBracePos m) (Module_Properties m) n.

Section ModuleName.
(** The [String()] methods of the expressions, which render positions and
    values with [fmt.Sprintf]; [Name] only passes the text on. *)
Variable Expression_String : Expression -> string.

(** The loop of [Module.Name]: every property called ["name"] overwrites
    the cache; there is no [break]. *)
Definition Module_Name_scan (props : list Property) (cache : option string)
    : option string :=
  foldl (fun cache prop =>
           if decide (Property_Name prop = "name") then
             match Property_Value prop with
             | EString _ v => Some v
             | v => Some (Expression_String v)
             end
           else cache) cache props.

(** [Module.Name]: the name and the module with its cache filled. *)
Definition Module_Name (m : Module) : string * Module :=
  match Name__internal_only m with
  | Some name => (name, m)
  | None =>
      let cache := Module_Name_scan (Module_Properties m) None in
      let cache := match cache with
                   | None => Some ""
                   | Some name => Some name
                   end in
      (default "" cache, Module_setName m cache)
  end.
End ModuleName.

(** [Definition]: a pointer to an assignment or a module. *)
Inductive Definition_ : Type :=
| DAssignment (a : ptr)
| DModule (m : Module).

Record Comment : Type := mkComment {
  Comment_Comment : list string;
  Comment_Slash : Position
}.

Record CommentGroup : Type := mkCommentGroup {
  CommentGroup_Comments : list Comment
}.

Record File : Type := mkFile {
  File_Name : string;
  File_Defs : list Definition_;
  File_Comments : list CommentGroup
}.

Definition Comment_End (c : Comment) : Position :=
  let pos :=
    foldl (fun pos comment =>
             mkPosition (Filename pos)
                        (Offset pos + Z.of_nat (String.length comment) + 1)
                        (Line pos)
                        (Z.of_nat (String.length comment) + 1))
          (Comment_Slash c) (Comment_Comment c) in
  mkPosition (Filename pos) (Offset pos)
             (Line pos + Z.of_nat (length (Comment_Comment c)) - 1)
             (Column pos).

(** ** Scope *)

(** [Scope]: two tables from names to assignments. *)
Record Scope : Type := mkScope {
  vars : gmap string ptr;
  inheritedVars : gmap string ptr
}.

(** [NewScope]: the second loop overwrites what the first one wrote, so on
    a shared key the parent's inherited entry stays. *)
Definition NewScope (s : option Scope) : Scope :=
  match s with
  | None => mkScope ∅ ∅
  | Some s => mkScope ∅ (inheritedVars s ∪ vars s)
  end.

(** [Scope.Add]: the scope afterwards and the error, if any.  Reading the
    name goes through the pointer, and a pointer to nothing panics. *)
Definition Scope_Add (st : store) (s : Scope) (assignment : ptr)
    : outcome (Scope * option error) :=
  match st !! assignment with
  | None => Panicked "nil pointer dereference"
  | Some a =>
      let name := Assignment_Name a in
      match vars s !! name with
      | Some old => Return (s, Some (ErrAlreadySet name))
      | None =>
          match inheritedVars s !! name with
          | Some old => Return (s, Some (ErrAlreadySetInherited name))
          | None =>
              Return (mkScope (<[name := assignment]> (vars s))
                              (inheritedVars s), None)
          end
      end
  end.

Definition Scope_Remove (s : Scope) (name : string) : Scope :=
  mkScope (delete name (vars s)) (delete name (inheritedVars s)).

(** [Scope.Get]: the assignment, or nil, and whether it is local. *)
Definition Scope_Get (s : Scope) (name : string) : option ptr * bool :=
  match vars s !! name with
  | Some a => (Some a, true)
  | None =>
      match inheritedVars s !! name with
      | Some a => (Some a, false)
      | None => (None, false)
      end
  end.

(** ** The token stream *)

(** One step of [scanner.Scan]: the token class, its text, where it starts
    and ends, and the messages the scanner's [Error] callback is given
    while it reads the token. *)
Record Token : Type := mkToken {
  Token_tok : rune;
  Token_text : string;
  Token_pos : Position;
  Token_end : Position;
  Token_errors : list string
}.

(** What the parser uses of [scanner.Scanner]: the tokens still to come,
    the [Position] and [TokenText()] of the last one scanned, and [Pos()],
    the place right after it. *)
Record Scanner : Type := mkScanner {
  Scanner_src : list Token;
  Scanner_Position : Position;
  Scanner_TokenText : string;
  Scanner_Pos : Position
}.

(** ** The parser state and its control monad *)

Definition maxErrors : nat := 1.

Definition default_select_branch_name : string := "__soong_conditions_default__".

Record ParseError : Type := mkParseError {
  ParseError_Err : error;
  ParseError_Pos : Position
}.

(** [parser], with the store of the assignments its scope points to. *)
Record parser : Type := mkParser {
  parser_scanner : Scanner;
  parser_tok : rune;
  parser_errors : list ParseError;
  parser_scope : option Scope;
  parser_store : store;
  parser_comments : list CommentGroup;
  parser_eval : bool
}.

Definition set_scanner (p : parser) (s : Scanner) : parser :=
  mkParser s (parser_tok p) (parser_errors p) (parser_scope p)
           (parser_store p) (parser_comments p) (parser_eval p).
Definition set_tok (p : parser) (t : rune) : parser :=
  mkParser (parser_scanner p) t (parser_errors p) (parser_scope p)
           (parser_store p) (parser_comments p) (parser_eval p).
Definition set_errors (p : parser) (e : list ParseError) : parser :=
  mkParser (parser_scanner p) (parser_tok p) e (parser_scope p)
           (parser_store p) (parser_comments p) (parser_eval p).
Definition set_scope (p : parser) (s : option Scope) : parser :=
  mkParser (parser_scanner p) (parser_tok p) (parser_errors p) s
           (parser_store p) (parser_comments p) (parser_eval p).
Definition set_store (p : parser) (st : store) : parser :=
  mkParser (parser_scanner p) (parser_tok p) (parser_errors p) (parser_scope p)
           st (parser_comments p) (parser_eval p).
Definition set_comments (p : parser) (c : list CommentGroup) : parser :=
  mkParser (parser_scanner p) (parser_tok p) (parser_errors p) (parser_scope p)
           (parser_store p) c (parser_eval p).
Definition set_eval (p : parser) (b : bool) : parser :=
  mkParser (parser_scanner p) (parser_tok p) (parser_errors p) (parser_scope p)
           (parser_store p) (parser_comments p) b.

(** What [panic] is called with. *)
Inductive panic_value : Type :=
| errTooManyErrors
| runtimePanic (msg : string).

(** A parser method returns with the parser updated, unwinds with a panic,
    or, in the model only, runs out of recursion budget. *)
Inductive result (A : Type) : Type :=
| Ok (a : A) (p : parser)
| Panic (v : panic_value) (p : parser)
| Exhausted.
Arguments Ok {A} a p.
Arguments Panic {A} v p.
Arguments Exhausted {A}.

Definition M (A : Type) : Type := parser -> result A.

Definition ret {A} (a : A) : M A := fun p => Ok a p.

Definition bind {A B} (m : M A) (k : A -> M B) : M B :=
  fun p =>
    match m p with
    | Ok a p' => k a p'
    | Panic v p' => Panic v p'
    | Exhausted => Exhausted
    end.

Declare Scope parser_scope.
Delimit Scope parser_scope with parser.
Notation "x <- m ;; k" := (bind m (fun x => k))
  (at level 100, m at next level, k at level 200, right associativity)
  : parser_scope.
Notation "m ;; k" := (bind m (fun _ => k))
  (at level 100, k at level 200, right associativity) : parser_scope.
#[local] Open Scope parser_scope.

Definition get {A} (f : parser -> A) : M A := fun p => Ok (f p) p.
Definition modify (f : parser -> parser) : M unit := fun p => Ok tt (f p).
Definition panic {A} (v : panic_value) : M A := fun p => Panic v p.
Definition exhausted {A} : M A := fun _ => Exhausted.

Definition tok : M rune := get parser_tok.
Definition Position_ : M Position :=
  get (fun p => Scanner_Position (parser_scanner p)).
Definition TokenText : M string :=
  get (fun p => Scanner_TokenText (parser_scanner p)).

(** After the append in [p.error] the list has at least [maxErrors]
    entries. *)
Lemma maxErrors_reached (errs : list ParseError) (e : ParseError) :
  (length (errs ++ [e]) < maxErrors)%nat -> False.
Proof. rewrite length_app. simpl. unfold maxErrors. lia. Qed.

(** [p.error]: record the error, then panic once the list has [maxErrors]
    entries.  With [maxErrors = 1] that is always, so the call never
    returns and whatever follows it in the source is never run: the
    [return nil] after an [errorf], and the [false] of [accept]. *)
Definition parser_error {A} (err : error) : M A :=
  fun p =>
    let pos := Scanner_Position (parser_scanner p) in
    let pos := if Position_IsValid pos then pos
               else Scanner_Pos (parser_scanner p) in
    let err := mkParseError err pos in
    let p := set_errors p (parser_errors p ++ [err]) in
    match le_lt_dec maxErrors (length (parser_errors p)) with
    | left _ => Panic errTooManyErrors p
    | right H => False_rect _ (maxErrors_reached _ _ H)
    end.

(** [p.errorf]: the format and its arguments are the [error] value. *)
Definition errorf {A} (err : error) : M A := parser_error err.

(** [p.scanner.Scan()]: it sets the offset, line and column of [Position]
    and leaves the [Filename]; past the last token it keeps answering
    [EOF]. *)
Definition Scan : M rune :=
  fun p =>
    let s := parser_scanner p in
    let at_ (pos : Position) :=
      mkPosition (Filename (Scanner_Position s)) (Offset pos) (Line pos)
                 (Column pos) in
    match Scanner_src s with
    | [] =>
        Ok scanner.EOF
           (set_scanner p (mkScanner [] (at_ (Scanner_Pos s)) ""
                                     (Scanner_Pos s)))
    | t :: rest =>
        let p := set_scanner p (mkScanner rest (at_ (Token_pos t))
                                          (Token_text t) (Token_end t)) in
        match Token_errors t with
        | [] => Ok (Token_tok t) p
        | msg :: _ => errorf (ErrScanner msg) p
        end
    end.

(** [strings.Split(s, "\n")]. *)
Fixpoint split_lines (s : string) : list string :=
  match s with
  | EmptyString => [""]
  | String.String c rest =>
      if Ascii.eqb c "010"%char then "" :: split_lines rest
      else match split_lines rest with
           | [] => [String.String c ""]
           | l :: ls => String.String c l :: ls
           end
  end.

(** The inner loop of [p.next], run while the token is a comment.  Each
    turn scans one token, so the tokens left bound the number of turns. *)
Fixpoint next_comments (turns : nat) (comments : list Comment) : M unit :=
  t <- tok ;;
  if decide (t = scanner.Comment) then
    match turns with
    | O => exhausted
    | S turns' =>
        text <- TokenText ;;
        pos <- Position_ ;;
        let lines := split_lines text in
        comments <-
          (match last comments with
           | Some c =>
               if Line (Comment_End c) + 1 <? Line pos then
                 modify (fun p => set_comments p
                    (parser_comments p ++ [mkCommentGroup comments])) ;;
                 ret []
               else ret comments
           | None => ret comments
           end) ;;
        let comments := comments ++ [mkComment lines pos] in
        t <- Scan ;;
        modify (fun p => set_tok p t) ;;
        next_comments turns' comments
    end
  else
    modify (fun p => set_comments p
       (parser_comments p ++ [mkCommentGroup comments])).

(** [p.next]. *)
Definition next : M unit :=
  t <- tok ;;
  if decide (t = scanner.EOF) then ret tt
  else
    t <- Scan ;;
    modify (fun p => set_tok p t) ;;
    if decide (t = scanner.Comment) then
      n <- get (fun p => length (Scanner_src (parser_scanner p))) ;;
      next_comments (S n) []
    else ret tt.

(** [p.accept(tok)]: every call in the source passes one token.  It either
    moves on or goes through [errorf], so it has nothing to report back. *)
Definition accept (want : rune) : M unit :=
  t <- tok ;;
  if decide (t = want) then next
  else errorf (ErrExpected want t).

(** The outcome of [evaluateOperator] met by the common idiom
    [if err != nil { p.error(err) }]. *)
Definition try_ {A} (o : outcome A) : M A :=
  match o with
  | Return a => ret a
  | Failure e => parser_error e
  | Panicked m => panic (runtimePanic m)
  | OutOfFuel => exhausted
  end.

(** Reading and writing through a [*Assignment]. *)
Definition deref (a : ptr) : M Assignment :=
  st <- get parser_store ;;
  match st !! a with
  | Some x => ret x
  | None => panic (runtimePanic "nil pointer dereference")
  end.

Definition assign (a : ptr) (x : Assignment) : M unit :=
  modify (fun p => set_store p (<[a := x]> (parser_store p))).

(** [new(Assignment)] with its fields filled in. *)
Definition alloc (x : Assignment) : M ptr :=
  st <- get parser_store ;;
  modify (fun p => set_store p (parser_store p ++ [x])) ;;
  ret (length st).

(** ** The recursive-descent parser *)

(** [ConfigurableCondition.Equals]: [!=] on the [String] structs of the
    arguments compares the position with the value. *)
Definition ConfigurableCondition_Equals (c other : ConfigurableCondition)
    : bool :=
  if decide (FunctionName c = FunctionName other) then
    if decide (length (Args c) = length (Args other)) then
      forallb (fun '(a, b) => bool_decide (a = b))
              (zip (Args c) (Args other))
    else false
  else false.

(** The closures [patternsEqual] and [patternListsEqual] of [parseSelect]. *)
Definition patternsEqual (a b : Expression) : bool :=
  match a with
  | EString _ a2 =>
      match b with
      | EString _ b2 => bool_decide (a2 = b2)
      | _ => false
      end
  | EBool _ a2 _ =>
      match b with
      | EBool _ b2 _ => bool_decide (a2 = b2)
      | _ => false
      end
  | _ => true
  end.

Definition patternListsEqual (a b : list Expression) : bool :=
  if decide (length a = length b) then
    forallb (fun '(x, y) => patternsEqual x y) (zip a b)
  else false.

(** The [isAllDefault] loop. *)
Definition isAllDefault (patterns : list Expression) : bool :=
  forallb (fun x =>
             match x with
             | EString _ v => bool_decide (v = default_select_branch_name)
             | _ => false
             end) patterns.

(** The loop over [result.Cases] that looks for duplicate patterns and for
    a default case that is not the last; [i] is the index of the head of
    [cases] and [n] is [len(result.Cases)]. *)
Fixpoint checkCases (i n : nat) (cases : list SelectCase) : option error :=
  match cases with
  | [] => None
  | c :: rest =>
      if existsb (fun d => patternListsEqual (SelectCase_Patterns c)
                                             (SelectCase_Patterns d)) rest
      then Some (ErrDuplicatePatterns (SelectCase_Patterns c))
      else if (i <? n - 1)%nat && isAllDefault (SelectCase_Patterns c)
      then Some (ErrDefaultNotLast (Z.of_nat i) (Z.of_nat n - 1))
      else checkCases (S i) n rest
  end.

(** The loop that settles the type of the select. *)
Fixpoint casesType (ty : Type_) (cases : list SelectCase) : Type_ + error :=
  match cases with
  | [] => inl ty
  | c :: rest =>
      let otherTy := ExprType (SelectCase_Value c) in
      let ty := if decide (ty = UnsetType) then otherTy else ty in
      if decide (otherTy <> UnsetType /\ otherTy <> ty)
      then inr (ErrDifferingTypes ty otherTy)
      else casesType ty rest
  end.

Section Parser.
(** [strconv.Unquote] and [strconv.ParseInt(_, 10, 64)], from Go's
    library; [None] stands for a returned error. *)
Variable Unquote : string -> option string.
Variable ParseInt : string -> option Z.

(** [p.parseStringValue]: the [String] struct. *)
Definition parseStringValue : M (Position * string) :=
  text <- TokenText ;;
  match Unquote text with
  | None => errorf (ErrParseString text)
  | Some str =>
      pos <- Position_ ;;
      t <- tok ;;
      accept t ;;
      ret (pos, str)
  end.

Definition parseIntValue : M Expression :=
  literalPos <- Position_ ;;
  t <- tok ;;
  str <- (if decide (t = chr "-") then
            accept t ;;
            t <- tok ;;
            if decide (t = scanner.Int) then ret "-"
            else errorf (ErrExpectedInt t)
          else ret "") ;;
  text <- TokenText ;;
  let str := (str ++ text)%string in
  match ParseInt str with
  | None => errorf (ErrParseInt str)
  | Some i =>
      accept scanner.Int ;;
      ret (EInt64 literalPos i str)
  end.

Definition parseBoolean : M Expression :=
  text <- TokenText ;;
  if decide (text = "true" \/ text = "false") then
    pos <- Position_ ;;
    accept scanner.Ident ;;
    ret (EBool pos (bool_decide (text = "true")) text)
  else errorf (ErrExpectedTrueFalse text).

Definition parseVariable : M Expression :=
  text <- TokenText ;;
  eval <- get parser_eval ;;
  value <-
    (if eval then
       scope <- get parser_scope ;;
       match scope with
       | None => panic (runtimePanic "nil pointer dereference")
       | Some s =>
           match Scope_Get s text with
           | (None, _) => errorf (ErrVariableNotSet text)
           | (Some a, local) =>
               assignment <- deref a ;;
               (if local
                then assign a (Assignment_setReferenced assignment true)
                else ret tt) ;;
               ret (Assignment_Value assignment)
           end
       end
     else ret (ENotEvaluated zeroPos)) ;;
  pos <- Position_ ;;
  accept scanner.Ident ;;
  ret (EVariable text pos value).

(** The closure [parseOnePattern] of [parseSelect]. *)
Definition parseOnePattern : M Expression :=
  t <- tok ;;
  if decide (t = scanner.Ident) then
    text <- TokenText ;;
    if decide (text = "default") then
      next ;;
      pos <- Position_ ;;
      ret (EString pos default_select_branch_name)
    else if decide (text = "true") then
      next ;;
      pos <- Position_ ;;
      ret (EBool pos true "")
    else if decide (text = "false") then
      next ;;
      pos <- Position_ ;;
      ret (EBool pos false "")
    else errorf (ErrExpectedPattern text)
  else if decide (t = scanner.String) then
    s <- parseStringValue ;;
    if String.prefix "__soong" (snd s) then errorf ErrReservedPattern
    else ret (EString (fst s) (snd s))
  else
    text <- TokenText ;;
    errorf (ErrExpectedPattern text).

(** The loop over the arguments of one condition, [for p.tok != ')']. *)
Fixpoint parseConditionArgs (fuel : nat) (args : list (Position * string))
    : M (list (Position * string)) :=
  match fuel with
  | O => exhausted
  | S fuel' =>
      t <- tok ;;
      if decide (t = chr ")") then ret args
      else
        s <- parseStringValue ;;
        let args := args ++ [s] in
        t <- tok ;;
        if decide (t = chr ")") then ret args
        else accept (chr ",") ;; parseConditionArgs fuel' args
  end.

(** The loop [for first := true; first || multipleConditions; ...]. *)
Fixpoint parseConditions (fuel : nat) (multipleConditions : bool)
    (conditions : list ConfigurableCondition)
    : M (list ConfigurableCondition) :=
  match fuel with
  | O => exhausted
  | S fuel' =>
      pos <- Position_ ;;
      text <- TokenText ;;
      accept scanner.Ident ;;
      accept (chr "(") ;;
      args <- parseConditionArgs fuel' [] ;;
      accept (chr ")") ;;
      let condition := mkCondition pos text args in
      match find (fun c => ConfigurableCondition_Equals c condition)
                 conditions with
      | Some c => errorf (ErrDuplicateCondition c)
      | None =>
          let conditions := conditions ++ [condition] in
          if multipleConditions then
            t <- tok ;;
            if decide (t = chr ")") then next ;; ret conditions
            else
              accept (chr ",") ;;
              t <- tok ;;
              if decide (t = chr ")") then next ;; ret conditions
              else parseConditions fuel' multipleConditions conditions
          else ret conditions
      end
  end.

(** The loop [for i := 0; i < len(conditions); i++] over the patterns of
    a case with several conditions. *)
Fixpoint parsePatterns (fuel : nat) (n i : nat) (patterns : list Expression)
    : M (list Expression) :=
  match fuel with
  | O => exhausted
  | S fuel' =>
      if (i <? n)%nat then
        pat <- parseOnePattern ;;
        let patterns := patterns ++ [pat] in
        (if (i <? n - 1)%nat then accept (chr ",")
         else
           t <- tok ;;
           if decide (t = chr ",") then next else ret tt) ;;
        parsePatterns fuel' n (S i) patterns
      else ret patterns
  end.

(** [p.parseExpression] and what it calls, by mutual recursion.  The
    budget goes down by one at every call and at every turn of a loop. *)
Fixpoint parseExpression (fuel : nat) : M Expression :=
  match fuel with
  | O => exhausted
  | S fuel' =>
      value <- parseValue fuel' ;;
      t <- tok ;;
      if decide (t = chr "+") then parseOperator fuel' value
      else if decide (t = chr "-") then errorf ErrSubtraction
      else ret value
  end

with parseOperator (fuel : nat) (value1 : Expression) : M Expression :=
  match fuel with
  | O => exhausted
  | S fuel' =>
      operator <- tok ;;
      pos <- Position_ ;;
      accept operator ;;
      value2 <- parseExpression fuel' ;;
      eval <- get parser_eval ;;
      try_ (evaluateOperator eval value1 value2 operator pos)
  end

with parseValue (fuel : nat) : M Expression :=
  match fuel with
  | O => exhausted
  | S fuel' =>
      t <- tok ;;
      if decide (t = scanner.Ident) then
        text <- TokenText ;;
        if decide (text = "true" \/ text = "false") then parseBoolean
        else if decide (text = "select") then parseSelect fuel'
        else parseVariable
      else if decide (t = chr "-" \/ t = scanner.Int) then parseIntValue
      else if decide (t = scanner.String \/ t = scanner.RawString) then
        s <- parseStringValue ;;
        ret (EString (fst s) (snd s))
      else if decide (t = chr "[") then parseListValue fuel'
      else if decide (t = chr "{") then parseMapValue fuel'
      else errorf (ErrExpectedValue t)
  end

with parseSelect (fuel : nat) : M Expression :=
  match fuel with
  | O => exhausted
  | S fuel' =>
      keywordPos <- Position_ ;;
      accept scanner.Ident ;;
      accept (chr "(") ;;
      t <- tok ;;
      multipleConditions <-
        (if decide (t = chr "(") then accept (chr "(") ;; ret true
         else ret false) ;;
      conditions <- parseConditions fuel' multipleConditions [] ;;
      if multipleConditions && (length conditions <? 2)%nat then
        errorf ErrExpectedMultipleConditions
      else
        accept (chr ",") ;;
        lBracePos <- Position_ ;;
        accept (chr "{") ;;
        r <- parseCases fuel' multipleConditions (length conditions) [] false ;;
        let cases := fst r in
        let hasNonUnsetValue := snd r in
        if negb hasNonUnsetValue then errorf ErrEmptySelect
        else
          match checkCases 0 (length cases) cases with
          | Some e => errorf e
          | None =>
              match casesType UnsetType cases with
              | inr e => errorf e
              | inl ty =>
                  rBracePos <- Position_ ;;
                  accept (chr "}") ;;
                  accept (chr ")") ;;
                  ret (ESelect keywordPos conditions lBracePos rBracePos
                               cases None ty)
              end
          end
  end

(** The loop [for p.tok != '}'] over the cases of a select. *)
with parseCases (fuel : nat) (multipleConditions : bool) (n : nat)
    (cases : list SelectCase) (hasNonUnsetValue : bool)
    : M (list SelectCase * bool) :=
  match fuel with
  | O => exhausted
  | S fuel' =>
      t <- tok ;;
      if decide (t = chr "}") then ret (cases, hasNonUnsetValue)
      else
        patterns <-
          (if multipleConditions then
             accept (chr "(") ;;
             patterns <- parsePatterns fuel' n 0 [] ;;
             accept (chr ")") ;;
             ret patterns
           else
             pat <- parseOnePattern ;;
             ret [pat]) ;;
        colonPos <- Position_ ;;
        accept (chr ":") ;;
        t <- tok ;;
        text <- TokenText ;;
        r <- (if decide (t = scanner.Ident /\ text = "unset") then
                pos <- Position_ ;;
                accept scanner.Ident ;;
                ret (EUnsetProperty pos, hasNonUnsetValue)
              else
                value <- parseExpression fuel' ;;
                ret (value, true)) ;;
        accept (chr ",") ;;
        parseCases fuel' multipleConditions n
                   (cases ++ [mkSelectCase patterns colonPos (fst r)])
                   (snd r)
  end

with parseListValue (fuel : nat) : M Expression :=
  match fuel with
  | O => exhausted
  | S fuel' =>
      lBracePos <- Position_ ;;
      accept (chr "[") ;;
      elements <- parseListElements fuel' [] ;;
      rBracePos <- Position_ ;;
      accept (chr "]") ;;
      ret (EList lBracePos rBracePos elements)
  end

(** The loop [for p.tok != ']'] of [parseListValue]. *)
with parseListElements (fuel : nat) (elements : list Expression)
    : M (list Expression) :=
  match fuel with
  | O => exhausted
  | S fuel' =>
      t <- tok ;;
      if decide (t = chr "]") then ret elements
      else
        element <- parseExpression fuel' ;;
        let elements := elements ++ [element] in
        t <- tok ;;
        if decide (t = chr ",") then
          accept (chr ",") ;;
          parseListElements fuel' elements
        else ret elements
  end

with parseMapValue (fuel : nat) : M Expression :=
  match fuel with
  | O => exhausted
  | S fuel' =>
      lBracePos <- Position_ ;;
      accept (chr "{") ;;
      properties <- parsePropertyList fuel' false false [] ;;
      rBracePos <- Position_ ;;
      accept (chr "}") ;;
      ret (EMap lBracePos rBracePos properties)
  end

(** [p.parsePropertyList]: the loop [for p.tok == scanner.Ident], with
    the properties gathered so far. *)
with parsePropertyList (fuel : nat) (isModule compat : bool)
    (properties : list Property) : M (list Property) :=
  match fuel with
  | O => exhausted
  | S fuel' =>
      t <- tok ;;
      if decide (t = scanner.Ident) then
        property <- parseProperty fuel' isModule compat ;;
        let properties :=
          if decide (ExprType (Property_Value property) = UnsetType)
          then properties
          else properties ++ [property] in
        t <- tok ;;
        if decide (t = chr ",") then
          accept (chr ",") ;;
          parsePropertyList fuel' isModule compat properties
        else ret properties
      else ret properties
  end

with parseProperty (fuel : nat) (isModule compat : bool) : M Property :=
  match fuel with
  | O => exhausted
  | S fuel' =>
      name <- TokenText ;;
      namePos <- Position_ ;;
      accept scanner.Ident ;;
      pos <- Position_ ;;
      (if isModule then
         if compat then accept (chr ":") else accept (chr "=")
       else accept (chr ":")) ;;
      value <- parseExpression fuel' ;;
      ret (mkProperty name namePos pos value)
  end.

(** [p.parseAssignment].  The assignment is put in the store when its
    fields are set; nothing between [new(Assignment)] and that point
    looks at it. *)
Definition parseAssignment (fuel : nat) (name : string) (namePos : Position)
    (assigner : string) : M ptr :=
  if decide (name = "default" \/ name = "unset") then
    errorf ErrReservedKeyword
  else
    pos <- Position_ ;;
    accept (chr "=") ;;
    value <- parseExpression fuel ;;
    assignment <- alloc (mkAssignment name namePos value value pos
                                      assigner false) ;;
    scope <- get parser_scope ;;
    match scope with
    | Some s =>
        if decide (assigner = "+=") then
          match Scope_Get s name with
          | (None, _) => errorf (ErrModifiedNonExistent name)
          | (Some old, local) =>
              if negb local then errorf (ErrModifiedNonLocal name)
              else
                o <- deref old ;;
                if Assignment_Referenced o then
                  errorf (ErrModifiedAfterReferencing name)
                else
                  eval <- get parser_eval ;;
                  val <- try_ (evaluateOperator eval (Assignment_Value o)
                                                value (chr "+") pos) ;;
                  assign old (Assignment_setValue o val)
          end
        else
          st <- get parser_store ;;
          r <- try_ (Scope_Add st s assignment) ;;
          match snd r with
          | Some err => parser_error err
          | None => modify (fun p => set_scope p (Some (fst r)))
          end
    | None => ret tt
    end ;;
    ret assignment.

Definition parseModule (fuel : nat) (typ : string) (typPos : Position)
    : M Module :=
  t <- tok ;;
  let compat := bool_decide (t = chr "{") in
  lbracePos <- Position_ ;;
  accept t ;;
  properties <- parsePropertyList fuel true compat [] ;;
  rbracePos <- Position_ ;;
  (if negb compat then accept (chr ")") else accept (chr "}")) ;;
  ret (mkModule typ typPos lbracePos rbracePos properties None).

(** [p.parseDefinitions]: the endless [for] with the definitions gathered
    so far. *)
Fixpoint parseDefinitions (fuel : nat) (defs : list Definition_)
    : M (list Definition_) :=
  match fuel with
  | O => exhausted
  | S fuel' =>
      t <- tok ;;
      if decide (t = scanner.Ident) then
        ident <- TokenText ;;
        pos <- Position_ ;;
        accept scanner.Ident ;;
        t <- tok ;;
        if decide (t = chr "+") then
          accept (chr "+") ;;
          a <- parseAssignment fuel' ident pos "+=" ;;
          parseDefinitions fuel' (defs ++ [DAssignment a])
        else if decide (t = chr "=") then
          a <- parseAssignment fuel' ident pos "=" ;;
          parseDefinitions fuel' (defs ++ [DAssignment a])
        else if decide (t = chr "{" \/ t = chr "(") then
          m <- parseModule fuel' ident pos ;;
          parseDefinitions fuel' (defs ++ [DModule m])
        else errorf (ErrExpectedDefinitionStart t)
      else if decide (t = scanner.EOF) then ret defs
      else errorf (ErrExpectedDefinition t)
  end.

(** [newParser]: the scanner before its first [Scan] has no valid
    [Position], and [Pos()] is the start of the input. *)
Definition newParser (r : list Token) (scope : option Scope) (st : store)
    : parser :=
  mkParser (mkScanner r zeroPos "" (mkPosition "" 0 1 1))
           0 [] scope st [] false.

Definition set_Filename (p : parser) (filename : string) : parser :=
  let s := parser_scanner p in
  let pos := Scanner_Position s in
  set_scanner p (mkScanner (Scanner_src s)
                   (mkPosition filename (Offset pos) (Line pos) (Column pos))
                   (Scanner_TokenText s) (Scanner_Pos s)).

(** [parse]: the deferred function turns the panic with
    [errTooManyErrors] into a return of the errors gathered, with no
    file, and lets any other panic go on. *)
Definition parse (fuel : nat) (p : parser)
    : result (option File * list ParseError) :=
  match (next ;;
         defs <- parseDefinitions fuel [] ;;
         accept scanner.EOF ;;
         errs <- get parser_errors ;;
         comments <- get parser_comments ;;
         name <- get (fun p => Filename (Scanner_Position (parser_scanner p))) ;;
         ret (Some (mkFile name defs comments), errs)) p with
  | Ok r p' => Ok r p'
  | Panic errTooManyErrors p' => Ok (None, parser_errors p') p'
  | Panic v p' => Panic v p'
  | Exhausted => Exhausted
  end.

Definition ParseAndEval (fuel : nat) (filename : string) (r : list Token)
    (scope : option Scope) (st : store)
    : result (option File * list ParseError) :=
  let p := newParser r scope st in
  let p := set_eval p true in
  let p := set_Filename p filename in
  parse fuel p.

Definition Parse (fuel : nat) (filename : string) (r : list Token)
    (scope : option Scope) (st : store)
    : result (option File * list ParseError) :=
  let p := newParser r scope st in
  let p := set_Filename p filename in
  parse fuel p.

(** [ParseExpression]: no deferred function stands between the parser
    and the caller. *)
Definition ParseExpression (fuel : nat) (r : list Token)
    : result (Expression * list ParseError) :=
  let p := newParser r (Some (NewScope None)) [] in
  (next ;;
   value <- parseExpression fuel ;;
   accept scanner.EOF ;;
   errs <- get parser_errors ;;
   ret (value, errs)) p.
End Parser.

(** ** Expressions as objects: what [Copy] shares *)

(** The tree model above cannot tell a copy from its original.  Here the
    nodes are objects in a heap and the fields that hold an [Expression],
    a [*Property] or a [*SelectCase] hold an address, so that two nodes can
    point to one object.  Slices are kept by value: the backing arrays of
    [Patterns] and [Conditions], which a copied case or select shares with
    its original, are not told apart here. *)
Module Heap.

Abbreviation addr := nat (only parsing).

Inductive node : Type :=
| NBool (LiteralPos : Position) (Value : bool) (Token : string)
| NString (LiteralPos : Position) (Value : string)
| NInt64 (LiteralPos : Position) (Value : Z) (Token : string)
| NList (LBracePos RBracePos : Position) (Values : list addr)
| NMap (LBracePos RBracePos : Position) (Properties : list addr)
| NVariable (Name : string) (NamePos : Position) (Value : addr)
| NOperator (Args0 Args1 : addr) (Operator : rune)
            (OperatorPos : Position) (Value : addr)
| NSelect (KeywordPos : Position) (Conditions : list ConfigurableCondition)
          (LBracePos RBracePos : Position) (Cases : list addr)
          (Append : option addr) (ExpressionType : Type_)
| NNotEvaluated (Pos : Position)
| NUnsetProperty (Pos : Position)
| NProperty (Name : string) (NamePos ColonPos : Position) (Value : addr)
| NSelectCase (Patterns : list addr) (ColonPos : Position) (Value : addr).

Abbreviation heap := (list node) (only parsing).

(** [&ret]: a fresh object. *)
Definition alloc (n : node) (h : heap) : addr * heap := (length h, h ++ [n]).

(** Run [f] on each address in turn, as the copying loops do. *)
Fixpoint each (f : addr -> heap -> option (addr * heap)) (l : list addr)
    (h : heap) : option (list addr * heap) :=
  match l with
  | [] => Some ([], h)
  | a :: rest =>
      match f a h with
      | Some (a', h') =>
          match each f rest h' with
          | Some (rest', h'') => Some (a' :: rest', h'')
          | None => None
          end
      | None => None
      end
  end.

(** The [Copy] methods, by the kind of object at [x]; [None] when the
    budget runs out or an address points nowhere. *)
Fixpoint Copy (fuel : nat) (x : addr) (h : heap) : option (addr * heap) :=
  match fuel with
  | O => None
  | S fuel' =>
      match h !! x with
      | None => None
      | Some (NList l r vs) =>
          match each (Copy fuel') vs h with
          | Some (vs', h') => Some (alloc (NList l r vs') h')
          | None => None
          end
      | Some (NMap l r ps) =>
          match each (Copy fuel') ps h with
          | Some (ps', h') => Some (alloc (NMap l r ps') h')
          | None => None
          end
      | Some (NOperator a0 a1 o p v) =>
          match Copy fuel' a0 h with
          | Some (a0', h') =>
              match Copy fuel' a1 h' with
              | Some (a1', h'') => Some (alloc (NOperator a0' a1' o p v) h'')
              | None => None
              end
          | None => None
          end
      | Some (NSelect k cs l r cases app ty) =>
          match each (Copy fuel') cases h with
          | Some (cases', h') =>
              match app with
              | Some a =>
                  match Copy fuel' a h' with
                  | Some (a', h'') =>
                      Some (alloc (NSelect k cs l r cases' (Some a') ty) h'')
                  | None => None
                  end
              | None => Some (alloc (NSelect k cs l r cases' None ty) h')
              end
          | None => None
          end
      | Some (NProperty n np cp v) =>
          match Copy fuel' v h with
          | Some (v', h') => Some (alloc (NProperty n np cp v') h')
          | None => None
          end
      | Some (NSelectCase ps cp v) =>
          match Copy fuel' v h with
          | Some (v', h') => Some (alloc (NSelectCase ps cp v') h')
          | None => None
          end
      | Some n => Some (alloc n h)
      end
  end.

Fixpoint all {A} (l : list (option A)) : option (list A) :=
  match l with
  | [] => Some []
  | Some a :: rest =>
      match all rest with Some rest' => Some (a :: rest') | None => None end
  | None :: _ => None
  end.

(** The tree an object stands for. *)
Fixpoint expression (fuel : nat) (h : heap) (x : addr) : option Expression :=
  match fuel with
  | O => None
  | S fuel' =>
      match h !! x with
      | Some (NBool p v t) => Some (EBool p v t)
      | Some (NString p v) => Some (EString p v)
      | Some (NInt64 p v t) => Some (EInt64 p v t)
      | Some (NList l r vs) =>
          vs' ← all (map (expression fuel' h) vs); Some (EList l r vs')
      | Some (NMap l r ps) =>
          ps' ← all (map (property fuel' h) ps); Some (EMap l r ps')
      | Some (NVariable n p v) =>
          v' ← expression fuel' h v; Some (EVariable n p v')
      | Some (NOperator a0 a1 o p v) =>
          a0' ← expression fuel' h a0;
          a1' ← expression fuel' h a1;
          v' ← expression fuel' h v;
          Some (EOperator a0' a1' o p v')
      | Some (NSelect k cs l r cases app ty) =>
          cases' ← all (map (selectCase fuel' h) cases);
          match app with
          | Some a =>
              a' ← expression fuel' h a;
              Some (ESelect k cs l r cases' (Some a') ty)
          | None => Some (ESelect k cs l r cases' None ty)
          end
      | Some (NNotEvaluated p) => Some (ENotEvaluated p)
      | Some (NUnsetProperty p) => Some (EUnsetProperty p)
      | _ => None
      end
  end
with property (fuel : nat) (h : heap) (x : addr) : option Property :=
  match fuel with
  | O => None
  | S fuel' =>
      match h !! x with
      | Some (NProperty n np cp v) =>
          v' ← expression fuel' h v; Some (mkProperty n np cp v')
      | _ => None
      end
  end
with selectCase (fuel : nat) (h : heap) (x : addr) : option SelectCase :=
  match fuel with
  | O => None
  | S fuel' =>
      match h !! x with
      | Some (NSelectCase ps cp v) =>
          ps' ← all (map (expression fuel' h) ps);
          v' ← expression fuel' h v;
          Some (mkSelectCase ps' cp v')
      | _ => None
      end
  end.

(** [x.Value] for an operator or a variable at [x]. *)
Definition Value_of (h : heap) (x : addr) : option addr :=
  match h !! x with
  | Some (NOperator _ _ _ _ v) => Some v
  | Some (NVariable _ _ v) => Some v
  | _ => None
  end.

(** [s.Value = v] through a [*String] at [x]. *)
Definition set_String_Value (h : heap) (x : addr) (v : string) : heap :=
  match h !! x with
  | Some (NString p _) => <[x := NString p v]> h
  | _ => h
  end.

End Heap.

(** ** [evaluateOperator] on objects *)

(** The evaluator of the tree model above gives the value of a sum; here
    it runs on the objects of a heap, so that what the value shares with
    the operands can be told. *)
Module HeapEval.

(** A read that the heaps at hand always answer: [None] is the budget run
    out or an address that points nowhere. *)
Definition need {A B} (o : option A) (k : A -> outcome B) : outcome B :=
  match o with
  | Some a => k a
  | None => OutOfFuel
  end.

(** The [Type] methods, by the kind of object at [x]. *)
Fixpoint Type_of (fuel : nat) (h : list Heap.node) (x : nat) : option Type_ :=
  match fuel with
  | O => None
  | S fuel' =>
      match h !! x with
      | Some (Heap.NBool _ _ _) => Some BoolType
      | Some (Heap.NString _ _) => Some StringType
      | Some (Heap.NInt64 _ _ _) => Some Int64Type
      | Some (Heap.NList _ _ _) => Some ListType
      | Some (Heap.NMap _ _ _) => Some MapType
      | Some (Heap.NVariable _ _ v) => Type_of fuel' h v
      | Some (Heap.NOperator a0 _ _ _ _) => Type_of fuel' h a0
      | Some (Heap.NSelect _ _ _ _ _ app ty) =>
          match ty, app with
          | UnsetType, Some a => Type_of fuel' h a
          | _, _ => Some ty
          end
      | Some (Heap.NNotEvaluated _) => Some NotEvaluatedType
      | Some (Heap.NUnsetProperty _) => Some UnsetType
      | _ => None
      end
  end.

(** The [Eval] methods: an operator and a variable hand back what their
    [Value] evaluates to, every other expression is its own value. *)
Fixpoint Eval (fuel : nat) (h : list Heap.node) (x : nat) : option nat :=
  match fuel with
  | O => None
  | S fuel' =>
      match h !! x with
      | Some (Heap.NOperator _ _ _ _ v) => Eval fuel' h v
      | Some (Heap.NVariable _ _ v) => Eval fuel' h v
      | Some (Heap.NProperty _ _ _ _) => None
      | Some (Heap.NSelectCase _ _ _) => None
      | Some _ => Some x
      | None => None
      end
  end.

(** The type assertion to [*Select] succeeds. *)
Definition isSelect (h : list Heap.node) (x : nat) : bool :=
  match h !! x with
  | Some (Heap.NSelect _ _ _ _ _ _ _) => true
  | _ => false
  end.

Section EvaluateOperator.
(** [addMaps] stands for [p.addMaps], on the addresses of the properties
    of the two maps. *)
Variable addMaps :
  list nat -> list nat -> Position -> list Heap.node ->
  outcome (list nat * list Heap.node).

(** [p.evaluateOperator]: the address of the result and the heap
    afterwards.  The writes through [v] are writes to the object that
    [e1.Copy()] returned. *)
Definition evaluateOperator (fuel : nat) (eval : bool) (value1 value2 : nat)
    (operator : rune) (pos : Position) (h : list Heap.node)
    : outcome (nat * list Heap.node) :=
  need (Type_of fuel h value1) (fun t1 =>
  if decide (t1 = UnsetType) then Return (value2, h) else
  need (Type_of fuel h value2) (fun t2 =>
  if decide (t2 = UnsetType) then Return (value1, h) else
  if eval then
    need (Eval fuel h value1) (fun e1 =>
    need (Eval fuel h value2) (fun e2 =>
    need (Type_of fuel h e1) (fun te1 =>
    need (Type_of fuel h e2) (fun te2 =>
    if decide (te1 = te2) then
      let '(e1, h) :=
        if negb (isSelect h e1) && isSelect h e2 then
          let '(c, h) := Heap.alloc (Heap.NSelectCase [] zeroPos e1) h in
          Heap.alloc (Heap.NSelect zeroPos [] zeroPos zeroPos [c] None te1) h
        else (e1, h) in
      need (Heap.Copy fuel e1 h) (fun '(value, h) =>
      let result (h : list Heap.node) :=
        Return (Heap.alloc (Heap.NOperator value1 value2 operator pos value)
                           h) in
      if decide (operator = chr "+") then
        match h !! value with
        | Some (Heap.NString lp v) =>
            match h !! e2 with
            | Some (Heap.NString _ v2) =>
                result (<[value := Heap.NString lp (v ++ v2)%string]> h)
            | _ => Panicked "interface conversion"
            end
        | Some (Heap.NInt64 lp v _) =>
            match h !! e2 with
            | Some (Heap.NInt64 _ v2 _) =>
                result (<[value := Heap.NInt64 lp (int64_add v v2) ""]> h)
            | _ => Panicked "interface conversion"
            end
        | Some (Heap.NList l r vs) =>
            match h !! e2 with
            | Some (Heap.NList _ _ vs2) =>
                result (<[value := Heap.NList l r (vs ++ vs2)]> h)
            | _ => Panicked "interface conversion"
            end
        | Some (Heap.NMap l r props) =>
            match h !! e2 with
            | Some (Heap.NMap _ _ props2) =>
                match addMaps props props2 pos h with
                | Return (props', h) =>
                    result (<[value := Heap.NMap l r props']> h)
                | Failure e => Failure e
                | Panicked m => Panicked m
                | OutOfFuel => OutOfFuel
                end
            | _ => Panicked "interface conversion"
            end
        | Some (Heap.NSelect k cs l r cases _ ty) =>
            result (<[value := Heap.NSelect k cs l r cases (Some e2) ty]> h)
        | _ =>
            need (Type_of fuel h value) (fun t =>
            Failure (ErrOperatorNotSupported operator t))
        end
      else Panicked "unknown operator")
    else Failure (ErrMismatchedType operator te1 te2)))))
  else
    Return (Heap.alloc (Heap.NOperator value1 value2 operator pos value1) h))).
End EvaluateOperator.

End HeapEval.

(** ** Sample inputs *)

(** A token without scanner errors that starts at the given line and
    column. *)
Definition tk (t : rune) (text : string) (line col : Z) : Token :=
  mkToken t text (mkPosition "" 0 line col)
          (mkPosition "" 0 line (col + Z.of_nat (String.length text))) [].

(** A one-character token. *)
Definition punct (text : string) (line col : Z) : Token :=
  tk (chr text) text line col.

Definition dquote : ascii := ascii_of_nat 34.

(** The text of a string literal without escapes. *)
Definition quoted (s : string) : string :=
  String.String dquote (s ++ String.String dquote "")%string.

Fixpoint strip_closing_quote (s : string) : option string :=
  match s with
  | EmptyString => None
  | String.String c EmptyString =>
      if Ascii.eqb c dquote then Some "" else None
  | String.String c rest =>
      match strip_closing_quote rest with
      | Some r => Some (String.String c r)
      | None => None
      end
  end.

(** [strconv.Unquote] on the literals without escapes. *)
Definition unquote_plain (s : string) : option string :=
  match s with
  | String.String c rest =>
      if Ascii.eqb c dquote then strip_closing_quote rest else None
  | EmptyString => None
  end.

Fixpoint decimal_digits (s : string) (acc : Z) : option Z :=
  match s with
  | EmptyString => Some acc
  | String.String c rest =>
      let n := Z.of_nat (nat_of_ascii c) in
      if (48 <=? n) && (n <=? 57) then decimal_digits rest (10 * acc + (n - 48))
      else None
  end.

(** [strconv.ParseInt(_, 10, 64)] on plain decimal literals. *)
Definition parse_decimal (s : string) : option Z :=
  let r :=
    match s with
    | EmptyString => None
    | String.String c rest =>
        if Ascii.eqb c "-"%char then
          match rest with
          | EmptyString => None
          | _ => option_map Z.opp (decimal_digits rest 0)
          end
        else decimal_digits s 0
    end in
  match r with
  | Some z => if (- 2 ^ 63 <=? z) && (z <? 2 ^ 63) then Some z else None
  | None => None
  end.

(** The state a run leaves the parser in; the starting state when the run
    does not return. *)
Definition state_after {A} (m : M A) (p : parser) : parser :=
  match m p with
  | Ok _ p' => p'
  | _ => p
  end.

(** A scope whose [x] is bound to the value of the keyword [unset], as a
    caller of [ParseAndEval] may build it with [NewScope] and [Add]. *)
Definition unset_x_scope : Scope := mkScope {["x" := 0%nat]} ∅.
Definition unset_x_store : store :=
  [mkAssignment "x" zeroPos (EUnsetProperty zeroPos) (EUnsetProperty zeroPos)
                zeroPos "=" false].

(** [a: x, b: "s" }] with evaluation on, the first token scanned. *)
Definition properties_a_b : parser :=
  state_after next
    (set_eval
       (newParser [tk scanner.Ident "a" 1 1; punct ":" 1 2;
                   tk scanner.Ident "x" 1 4; punct "," 1 5;
                   tk scanner.Ident "b" 1 7; punct ":" 1 8;
                   tk scanner.String (quoted "s") 1 10; punct "}" 1 13]
                  (Some unset_x_scope) unset_x_store)
       true).

(** The scope and store after [x = ["a"]]. *)
Definition list_a : Expression :=
  EList zeroPos zeroPos [EString zeroPos "a"].
Definition x_scope : Scope := mkScope {["x" := 0%nat]} ∅.
Definition x_store : store :=
  [mkAssignment "x" zeroPos list_a list_a zeroPos "=" false].

(** [= ["b"]], what is left of [x += ["b"]] when [parseAssignment] is
    called, with evaluation on. *)
Definition append_b : parser :=
  state_after next
    (set_eval
       (newParser [punct "=" 2 4; punct "[" 2 6;
                   tk scanner.String (quoted "b") 2 7; punct "]" 2 10]
                  (Some x_scope) x_store)
       true).

(** [select(f("a"), { "b": x, })] with evaluation on and [x] bound to the
    value of [unset]; the keyword [select] is the token at hand. *)
Definition select_on_x : parser :=
  state_after next
    (set_eval
       (newParser [tk scanner.Ident "select" 1 1; punct "(" 1 7;
                   tk scanner.Ident "f" 1 8; punct "(" 1 9;
                   tk scanner.String (quoted "a") 1 10; punct ")" 1 13;
                   punct "," 1 14; punct "{" 1 16;
                   tk scanner.String (quoted "b") 1 18; punct ":" 1 21;
                   tk scanner.Ident "x" 1 23; punct "," 1 24;
                   punct "}" 1 26; punct ")" 1 27]
                  (Some unset_x_scope) unset_x_store)
       true).

(** [select((f("a"), g("b")), { ("x", "y"): "xy", ("x", default): unset,
    (default, default): "z", })], parsed without evaluation. *)
Definition select_two_axes : parser :=
  state_after next
    (newParser [tk scanner.Ident "select" 1 1; punct "(" 1 7; punct "(" 1 8;
                tk scanner.Ident "f" 1 9; punct "(" 1 10;
                tk scanner.String (quoted "a") 1 11; punct ")" 1 14;
                punct "," 1 15;
                tk scanner.Ident "g" 1 17; punct "(" 1 18;
                tk scanner.String (quoted "b") 1 19; punct ")" 1 22;
                punct ")" 1 23; punct "," 1 24; punct "{" 1 26;
                punct "(" 2 1; tk scanner.String (quoted "x") 2 2;
                punct "," 2 5; tk scanner.String (quoted "y") 2 7;
                punct ")" 2 10; punct ":" 2 11;
                tk scanner.String (quoted "xy") 2 13; punct "," 2 17;
                punct "(" 3 1; tk scanner.String (quoted "x") 3 2;
                punct "," 3 5; tk scanner.Ident "default" 3 7;
                punct ")" 3 14; punct ":" 3 15;
                tk scanner.Ident "unset" 3 17; punct "," 3 22;
                punct "(" 4 1; tk scanner.Ident "default" 4 2;
                punct "," 4 9; tk scanner.Ident "default" 4 11;
                punct ")" 4 18; punct ":" 4 19;
                tk scanner.String (quoted "z") 4 21; punct "," 4 24;
                punct "}" 5 1; punct ")" 5 2]
               (Some (NewScope None)) []).

(** ** Notions the statements are written with *)

(** The last property of [props] called [name]. *)
Definition lastNamed (name : string) (props : list Property) : option Property :=
  last (filter (fun p => Property_Name p = name) props).

(** What the first loop appends for one property of [map1]. *)
Definition merged_with
    (ev : Expression -> Expression -> rune -> Position -> outcome Expression)
    (lookup2 : string -> option Property) (pos : Position)
    (prop1 r : Property) : Prop :=
  match lookup2 (Property_Name prop1) with
  | Some prop2 =>
      exists v, ev (Property_Value prop1) (Property_Value prop2) (chr "+") pos
                = Return v /\ r = Property_setValue prop1 v
  | None => r = prop1
  end.

(** The scopes a program can hold: made by [NewScope], changed by [Add]
    and [Remove]. *)
Inductive reachable : Scope -> Prop :=
| reachable_NewScope_nil : reachable (NewScope None)
| reachable_NewScope parent :
    reachable parent -> reachable (NewScope (Some parent))
| reachable_Add st s assignment s' err :
    reachable s -> Scope_Add st s assignment = Return (s', err) ->
    reachable s'
| reachable_Remove s name :
    reachable s -> reachable (Scope_Remove s name).

Definition disjoint_tables (s : Scope) : Prop :=
  forall name, is_Some (vars s !! name) -> is_Some (inheritedVars s !! name) ->
               False.

Section NameText.
Variable Expression_String : Expression -> string.

(** The text [Name] takes from a property called ["name"]. *)
Definition nameText (prop : Property) : string :=
  match Property_Value prop with
  | EString _ v => v
  | v => Expression_String v
  end.
End NameText.

(** The state [p.error] panics in. *)
Definition error_state (err : error) (p : parser) : parser :=
  let pos := Scanner_Position (parser_scanner p) in
  let pos := if Position_IsValid pos then pos
             else Scanner_Pos (parser_scanner p) in
  set_errors p (parser_errors p ++ [mkParseError err pos]).

(** What a step of the scanner leaves alone: the evaluation flag, the
    scope, the store of assignments and the errors recorded. *)
Definition same_memory (p p' : parser) : Prop :=
  parser_eval p' = parser_eval p /\
  parser_scope p' = parser_scope p /\
  parser_store p' = parser_store p /\
  parser_errors p' = parser_errors p.

Definition is_set (property : Property) : Prop :=
  ExprType (Property_Value property) <> UnsetType.

Section PropertiesRead.
Variable Unquote : string -> option string.
Variable ParseInt : string -> option Z.

(** The properties [parsePropertyList] reads from the state [p] on, in
    source order, up to the state [p'] where its loop stops: each one is
    the result of a call of [parseProperty], made when the token is an
    identifier, and the loop goes on after it exactly when a comma
    follows. *)
Inductive properties_read (isModule compat : bool)
    : parser -> list Property -> parser -> Prop :=
| properties_read_none p :
    parser_tok p <> scanner.Ident ->
    properties_read isModule compat p [] p
| properties_read_last p fuel property p' :
    parser_tok p = scanner.Ident ->
    parseProperty Unquote ParseInt fuel isModule compat p = Ok property p' ->
    parser_tok p' <> chr "," ->
    properties_read isModule compat p [property] p'
| properties_read_more p fuel property p1 p2 rest p' :
    parser_tok p = scanner.Ident ->
    parseProperty Unquote ParseInt fuel isModule compat p = Ok property p1 ->
    parser_tok p1 = chr "," ->
    accept (chr ",") p1 = Ok tt p2 ->
    properties_read isModule compat p2 rest p' ->
    properties_read isModule compat p (property :: rest) p'.
End PropertiesRead.

(** No variable an evaluating parser can look up is bound to a value of
    unset [Type]. *)
Definition variables_set (p : parser) : Prop :=
  parser_eval p = true ->
  forall s name a local o,
    parser_scope p = Some s ->
    Scope_Get s name = (Some a, local) ->
    parser_store p !! a = Some o ->
    ExprType (Assignment_Value o) <> UnsetType.

Definition is_set_value (v : Expression) : Prop := ExprType v <> UnsetType.

(** [keeps I m Q]: a returning run of [m] from a state in [I] ends in a
    state in [I], with a result in [Q]. *)
Definition keeps (I : parser -> Prop) {A} (m : M A) (Q : A -> Prop) : Prop :=
  forall p a p', I p -> m p = Ok a p' -> I p' /\ Q a.

(** Some case has a value in [Q]. *)
Definition some_case (Q : Expression -> Prop) (cases : list SelectCase)
    : Prop :=
  exists c, c ∈ cases /\ Q (SelectCase_Value c).

(** What [parseOnePattern] builds: a string or a boolean literal. *)
Definition isPattern (x : Expression) : Prop :=
  match x with
  | EString _ _ | EBool _ _ _ => True
  | _ => False
  end.

(** Two patterns that are the same literal, wherever they stand in the
    source. *)
Definition samePattern (a b : Expression) : Prop :=
  match a, b with
  | EString _ x, EString _ y => x = y
  | EBool _ x _, EBool _ y _ => x = y
  | _, _ => False
  end.

(** Every pattern of every case is such a literal. *)
Definition patterns_built (cases : list SelectCase) : Prop :=
  Forall (fun c => Forall isPattern (SelectCase_Patterns c)) cases.

(** ** Operations on the properties of a map *)

(** [Map.getPropertyImpl]: the first property called [name], whether there
    is one, and its index, or [-1]. *)
Fixpoint getPropertyImpl_from (i : Z) (properties : list Property)
    (name : string) : option Property * bool * Z :=
  match properties with
  | [] => (None, false, -1)
  | prop :: rest =>
      if decide (Property_Name prop = name) then (Some prop, true, i)
      else getPropertyImpl_from (i + 1) rest name
  end.

Definition Map_getPropertyImpl (properties : list Property) (name : string)
    : option Property * bool * Z :=
  getPropertyImpl_from 0 properties name.

(** [Map.GetProperty]. *)
Definition Map_GetProperty (properties : list Property) (name : string)
    : option Property * bool :=
  let '(prop, found, _) := Map_getPropertyImpl properties name in
  (prop, found).

(** [Map.RemoveProperty]: the properties afterwards and whether one was
    removed. *)
Definition Map_RemoveProperty (properties : list Property)
    (propertyName : string) : list Property * bool :=
  let '(_, found, index) := Map_getPropertyImpl properties propertyName in
  if found then
    (take (Z.to_nat index) properties ++ drop (Z.to_nat (index + 1)) properties,
     true)
  else (properties, false).

Definition Property_setName (p : Property) (name : string) : Property :=
  match p with mkProperty _ np cp v => mkProperty name np cp v end.

Section MovePropertyContents.
(** [RemoveStringFromList] and [AddStringToList] are defined in another
    file of the package; here they are the lists they leave behind. *)
Variable RemoveStringFromList : Expression -> string -> Expression.
Variable AddStringToList : Expression -> string -> Expression.

(** The strings of [old.Values]; a value that is not a [*String] makes the
    conversion panic. *)
Fixpoint toBeMoved (values : list Expression) : option (list string) :=
  match values with
  | [] => Some []
  | EString _ v :: rest =>
      match toBeMoved rest with
      | Some r => Some (v :: r)
      | None => None
      end
  | _ :: _ => None
  end.

Definition update_Value (properties : list Property) (index : nat)
    (f : Expression -> Expression) : list Property :=
  match properties !! index with
  | Some prop =>
      <[index := Property_setValue prop (f (Property_Value prop))]> properties
  | None => properties
  end.

(** [Map.MovePropertyContents]: the properties afterwards and the result.
    The two properties are reached through their index, so that what is
    done to one is seen through the other when they are the same. *)
Definition Map_MovePropertyContents (properties : list Property)
    (propertyName newLocation : string) : outcome (list Property * bool) :=
  let '(oldProp, oldFound, oldIndex) :=
    Map_getPropertyImpl properties propertyName in
  let '(newProp, newFound, newIndex) :=
    Map_getPropertyImpl properties newLocation in
  match oldProp with
  | Some oldP =>
      match newProp with
      | None =>
          Return (<[Z.to_nat oldIndex := Property_setName oldP newLocation]>
                    properties, oldFound)
      | Some newP =>
          match Property_Value oldP, Property_Value newP with
          | EList _ _ values, EList _ _ _ =>
              match toBeMoved values with
              | None => Panicked "interface conversion"
              | Some moved =>
                  let properties :=
                    foldl (fun properties s =>
                             update_Value
                               (update_Value properties (Z.to_nat oldIndex)
                                  (fun l => RemoveStringFromList l s))
                               (Z.to_nat newIndex)
                               (fun l => AddStringToList l s))
                          properties moved in
                  Return (fst (Map_RemoveProperty properties propertyName),
                          oldFound)
              end
          | _, _ => Return (properties, oldFound)
          end
      end
  | None => Return (properties, oldFound)
  end.
End MovePropertyContents.

(** [Module.Copy] at the level of trees: the module with each property
    copied; the cache pointer is kept. *)
Definition Module_Copy (m : Module) : Module :=
  Module_setProperties m (map Property_Copy (Module_Properties m)).

(** ** Notions for the further properties *)

(** A node that [Eval] returns as it is. *)
Definition evaluated (x : Expression) : Prop :=
  match x with
  | EOperator _ _ _ _ _ | EVariable _ _ _ => False
  | _ => True
  end.

(** [Type()] agrees with the [Type()] of [Eval()]. *)
Definition type_consistent (x : Expression) : Prop :=
  ExprType x = ExprType (Eval x).

(** The type assertion to [*List] succeeds. *)
Definition is_List (x : Expression) : Prop :=
  match x with
  | EList _ _ _ => True
  | _ => False
  end.

(** Comment groups that [CommentGroup.Pos] and [CommentGroup.End], which
    index the first and the last comment, can be called on. *)
Definition nonempty_groups (groups : list CommentGroup) : Prop :=
  Forall (fun g => CommentGroup_Comments g <> []) groups.

(** What a call may do to the list of errors: when it returns, the list
    is as it was; when it ends in the panic of [p.error], one error has
    been added at the end. *)
Definition reports {A} (m : M A) : Prop :=
  forall p,
    match m p with
    | Ok _ p' => parser_errors p' = parser_errors p
    | Panic errTooManyErrors p' =>
        exists e, parser_errors p' = parser_errors p ++ [e]
    | Panic (runtimePanic _) _ => True
    | Exhausted => True
    end.

(** What [parse] gives back: a file and no error, or no file and one
    error. *)
Definition file_or_one_error (r : option File * list ParseError) : Prop :=
  (exists f, fst r = Some f /\ snd r = []) \/
  (fst r = None /\ exists e, snd r = [e]).

(** An assignment as it was, or with [Referenced] set. *)
Definition referenced_more (a a' : Assignment) : Prop :=
  a' = a \/ a' = Assignment_setReferenced a true.

(** A store that differs from another one only in assignments that have
    been marked as referenced. *)
Definition marks_only (st st' : store) : Prop :=
  Forall2 referenced_more st st'.

(** No condition is [Equals] to one that comes after it. *)
Definition distinct_conditions (cs : list ConfigurableCondition) : Prop :=
  forall i j ci cj,
    (i < j)%nat -> cs !! i = Some ci -> cs !! j = Some cj ->
    ConfigurableCondition_Equals ci cj = false.

(** A heap with the objects of another one, each at its address, and
    possibly more. *)
Definition heap_extends (h h1 : list Heap.node) : Prop :=
  exists new, h1 = h ++ new.

(** What a run returns, when it returns. *)
Definition returned {A} (r : result A) : option A :=
  match r with
  | Ok a _ => Some a
  | _ => None
  end.

(** What is left to read: nothing once the token is [EOF], otherwise the
    token at hand and the tokens still to be scanned. *)
Definition remaining (p : parser) : nat :=
  if decide (parser_tok p = scanner.EOF) then 0%nat
  else S (length (Scanner_src (parser_scanner p))).

(** [ends m p Q]: from the state [p] the run of [m] comes to an end, by a
    return in a state and with a result in [Q], or by a panic; the
    recursion budget is not used up. *)
Definition ends {A} (m : M A) (p : parser) (Q : A -> parser -> Prop) : Prop :=
  match m p with
  | Ok a p' => Q a p'
  | Panic _ _ => True
  | Exhausted => False
  end.

(** [stable m m']: wherever the run of [m] does not use up its budget,
    the run of [m'] ends the same way. *)
Definition stable {A} (m m' : M A) : Prop :=
  forall p, m p <> Exhausted -> m' p = m p.

(** ** Facts about the tree operations *)

Section Expression_induction.
Variable P : Expression -> Prop.
Hypothesis HBool : forall p v t, P (EBool p v t).
Hypothesis HString : forall p v, P (EString p v).
Hypothesis HInt64 : forall p v t, P (EInt64 p v t).
Hypothesis HList : forall l r vs, Forall P vs -> P (EList l r vs).
Hypothesis HMap : forall l r ps,
  Forall (fun p => P (Property_Value p)) ps -> P (EMap l r ps).
Hypothesis HVariable : forall n p v, P v -> P (EVariable n p v).
Hypothesis HOperator : forall a0 a1 o p v,
  P a0 -> P a1 -> P v -> P (EOperator a0 a1 o p v).
Hypothesis HSelect : forall k cs l r cases app ty,
  Forall (fun c => P (SelectCase_Value c)) cases ->
  (forall a, app = Some a -> P a) ->
  P (ESelect k cs l r cases app ty).
Hypothesis HNotEvaluated : forall p, P (ENotEvaluated p).
Hypothesis HUnsetProperty : forall p, P (EUnsetProperty p).

Fixpoint Expression_nested_ind (x : Expression) : P x :=
  match x with
  | EBool p v t => HBool p v t
  | EString p v => HString p v
  | EInt64 p v t => HInt64 p v t
  | EList l r vs =>
      HList l r vs
        ((fix go (vs : list Expression) : Forall P vs :=
            match vs with
            | [] => Forall_nil_2 P
            | v :: vs' => Forall_cons_2 P v vs' (Expression_nested_ind v) (go vs')
            end) vs)
  | EMap l r ps =>
      HMap l r ps
        ((fix go (ps : list Property)
            : Forall (fun p => P (Property_Value p)) ps :=
            match ps with
            | [] => Forall_nil_2 _
            | p :: ps' =>
                Forall_cons_2 (fun p => P (Property_Value p)) p ps'
                  (match p with
                   | mkProperty _ _ _ v => Expression_nested_ind v
                   end) (go ps')
            end) ps)
  | EVariable n p v => HVariable n p v (Expression_nested_ind v)
  | EOperator a0 a1 o p v =>
      HOperator a0 a1 o p v (Expression_nested_ind a0)
                (Expression_nested_ind a1) (Expression_nested_ind v)
  | ESelect k cs l r cases app ty =>
      HSelect k cs l r cases app ty
        ((fix go (cs : list SelectCase)
            : Forall (fun c => P (SelectCase_Value c)) cs :=
            match cs with
            | [] => Forall_nil_2 _
            | c :: cs' =>
                Forall_cons_2 (fun c => P (SelectCase_Value c)) c cs'
                  (match c with
                   | mkSelectCase _ _ v => Expression_nested_ind v
                   end) (go cs')
            end) cases)
        (match app as o return forall a, o = Some a -> P a with
         | Some a0 => fun a E =>
             eq_ind a0 P (Expression_nested_ind a0) a
                    (f_equal (fun o => match o with Some y => y | None => a0 end) E)
         | None => fun a E =>
             False_ind _ (eq_ind None (fun o => match o with None => True | Some _ => False end) I _ E)
         end)
  | ENotEvaluated p => HNotEvaluated p
  | EUnsetProperty p => HUnsetProperty p
  end.
End Expression_induction.

(** In the tree model a copy has the shape of its original. *)
Lemma Copy_id : forall x, Copy x = x.
Proof.
  induction x as [ | | | l r vs IH | l r ps IH | | a0 a1 o p v IH0 IH1 _
                 | k cs l r cases app ty IHc IHa | | ]
    using Expression_nested_ind; simpl; try reflexivity.
  - f_equal. induction IH as [|v vs Hv _ IHvs]; simpl; congruence.
  - f_equal. induction IH as [|[n np cp v] ps Hv _ IHps]; simpl in *; congruence.
  - congruence.
  - f_equal.
    + induction IHc as [|[pats cp v] cs' Hv _ IHcs]; simpl in *; congruence.
    + destruct app as [a|]; [rewrite (IHa a eq_refl)|]; reflexivity.
Qed.

Lemma rank_Eval : forall x, (rank (Eval x) <= rank x)%nat.
Proof.
  induction x using Expression_nested_ind; simpl; lia.
Qed.

Lemma rank_Property_Value l r ps p :
  p ∈ ps -> (rank (Property_Value p) < rank (EMap l r ps))%nat.
Proof.
  simpl. induction 1 as [[n np cp v] ps'|q [n np cp v] ps' _ IH]; simpl in *; lia.
Qed.

(** ** The evaluator's recursion budget is adequate *)

Section EvaluatorFacts.
Variable eval : bool.

Lemma addMaps_loop1_ext ev ev' inBoth pos map1 ret :
  (forall prop1 b, prop1 ∈ map1 ->
     ev (Property_Value prop1) b (chr "+") pos
     = ev' (Property_Value prop1) b (chr "+") pos) ->
  addMaps_loop1 ev inBoth pos map1 ret = addMaps_loop1 ev' inBoth pos map1 ret.
Proof.
  revert ret. induction map1 as [|prop1 rest IH]; intros ret Hext; simpl.
  - reflexivity.
  - destruct (inBoth !! Property_Name prop1) as [prop2|].
    + rewrite <- (Hext prop1 _ (list_elem_of_here _ _)).
      destruct (ev _ _ _ _); try reflexivity.
      apply IH. intros q b Hq. apply Hext. now apply list_elem_of_further.
    + apply IH. intros q b Hq. apply Hext. now apply list_elem_of_further.
Qed.

Lemma addMaps_loop1_total ev inBoth pos map1 ret :
  (forall prop1 b, prop1 ∈ map1 ->
     ev (Property_Value prop1) b (chr "+") pos <> OutOfFuel) ->
  addMaps_loop1 ev inBoth pos map1 ret <> OutOfFuel.
Proof.
  revert ret. induction map1 as [|prop1 rest IH]; intros ret Htot; simpl.
  - discriminate.
  - destruct (inBoth !! Property_Name prop1) as [prop2|].
    + pose proof (Htot prop1 (Property_Value prop2) (list_elem_of_here _ _)) as H1.
      destruct (ev _ _ _ _); try discriminate; [|congruence].
      apply IH. intros q b Hq. apply Htot. now apply list_elem_of_further.
    + apply IH. intros q b Hq. apply Htot. now apply list_elem_of_further.
Qed.

Lemma addMaps_with_ext ev ev' map1 map2 pos :
  (forall prop1 b, prop1 ∈ map1 ->
     ev (Property_Value prop1) b (chr "+") pos
     = ev' (Property_Value prop1) b (chr "+") pos) ->
  addMaps_with ev map1 map2 pos = addMaps_with ev' map1 map2 pos.
Proof.
  intros Hext. unfold addMaps_with.
  now rewrite (addMaps_loop1_ext ev ev' _ pos map1 [] Hext).
Qed.

Lemma addMaps_with_total ev map1 map2 pos :
  (forall prop1 b, prop1 ∈ map1 ->
     ev (Property_Value prop1) b (chr "+") pos <> OutOfFuel) ->
  addMaps_with ev map1 map2 pos <> OutOfFuel.
Proof.
  intros Htot. unfold addMaps_with.
  pose proof (addMaps_loop1_total ev
                (snd (addMaps_inMap2_inBoth (addMaps_inMap1 map1) map2))
                pos map1 [] Htot) as H.
  destruct (addMaps_loop1 _ _ _ _ _); congruence.
Qed.

(** The only maps [evaluateOperator] hands to [addMaps] are the properties
    of the evaluated left operand, which lie strictly below it. *)
Lemma evaluateOperator_step_ext am am' value1 value2 operator pos :
  (forall map1 map2,
      (forall prop1, prop1 ∈ map1 ->
                     (rank (Property_Value prop1) < rank value1)%nat) ->
      am map1 map2 pos = am' map1 map2 pos) ->
  evaluateOperator_step eval am value1 value2 operator pos
  = evaluateOperator_step eval am' value1 value2 operator pos.
Proof.
  intros Hext. unfold evaluateOperator_step.
  destruct eval; repeat (case_decide; try reflexivity).
  destruct (negb (isSelect (Eval value1)) && isSelect (Eval value2));
    [reflexivity|].
  rewrite Copy_id.
  destruct (Eval value1) as [ | | | | l r props | | | | | ] eqn:E1;
    try reflexivity.
  destruct (Eval value2); try reflexivity.
  rewrite Hext; [reflexivity|].
  intros prop1 Hin.
  pose proof (rank_Property_Value l r props prop1 Hin).
  pose proof (rank_Eval value1). rewrite E1 in *. lia.
Qed.

Lemma evaluateOperator_step_total am value1 value2 operator pos :
  (forall map1 map2,
      (forall prop1, prop1 ∈ map1 ->
                     (rank (Property_Value prop1) < rank value1)%nat) ->
      am map1 map2 pos <> OutOfFuel) ->
  evaluateOperator_step eval am value1 value2 operator pos <> OutOfFuel.
Proof.
  intros Htot. unfold evaluateOperator_step.
  destruct eval; repeat (case_decide; try discriminate).
  destruct (negb (isSelect (Eval value1)) && isSelect (Eval value2));
    [simpl; discriminate|].
  rewrite Copy_id.
  destruct (Eval value1) as [ | | | | l r props | | | | | ] eqn:E1;
    try discriminate; try (destruct (Eval value2); discriminate).
  destruct (Eval value2); try discriminate.
  assert (am props Properties pos <> OutOfFuel) as Ham.
  { apply Htot. intros prop1 Hin.
    pose proof (rank_Property_Value l r props prop1 Hin).
    pose proof (rank_Eval value1). rewrite E1 in *. lia. }
  destruct (am props Properties pos); congruence.
Qed.

Lemma evaluateOperator_fuel_stable n :
  forall value1 value2 operator pos,
    (rank value1 < n)%nat ->
    evaluateOperator_fuel eval n value1 value2 operator pos <> OutOfFuel /\
    forall m, (rank value1 < m)%nat ->
      evaluateOperator_fuel eval n value1 value2 operator pos
      = evaluateOperator_fuel eval m value1 value2 operator pos.
Proof.
  induction n as [|n IH]; intros value1 value2 operator pos Hn; [lia|].
  split.
  - simpl. apply evaluateOperator_step_total. intros map1 map2 Hr.
    apply addMaps_with_total. intros prop1 b Hin.
    apply IH. specialize (Hr prop1 Hin). lia.
  - intros [|m] Hm; [lia|]. simpl.
    apply evaluateOperator_step_ext. intros map1 map2 Hr.
    apply addMaps_with_ext. intros prop1 b Hin.
    apply IH; specialize (Hr prop1 Hin); lia.
Qed.

(** [evaluateOperator] never exhausts its budget. *)
Lemma evaluateOperator_fuel_enough value1 value2 operator pos :
  evaluateOperator eval value1 value2 operator pos <> OutOfFuel.
Proof. apply evaluateOperator_fuel_stable. lia. Qed.

(** [evaluateOperator] is its body with [addMaps] for the recursive call,
    as the source has it. *)
Lemma evaluateOperator_unfold value1 value2 operator pos :
  evaluateOperator eval value1 value2 operator pos
  = evaluateOperator_step eval (addMaps eval) value1 value2 operator pos.
Proof.
  unfold evaluateOperator at 1. simpl.
  apply evaluateOperator_step_ext. intros map1 map2 Hr.
  apply addMaps_with_ext. intros prop1 b Hin.
  apply evaluateOperator_fuel_stable; [|lia].
  specialize (Hr prop1 Hin). lia.
Qed.

Lemma addMaps_fuel_enough map1 map2 pos :
  addMaps eval map1 map2 pos <> OutOfFuel.
Proof.
  apply addMaps_with_total. intros. apply evaluateOperator_fuel_enough.
Qed.
End EvaluatorFacts.

(** ** [addMaps]: what the three tables hold and what the loops build *)

Lemma lastNamed_cons name p props :
  lastNamed name (p :: props)
  = match lastNamed name props with
    | Some q => Some q
    | None => if decide (Property_Name p = name) then Some p else None
    end.
Proof.
  unfold lastNamed. rewrite filter_cons.
  destruct (decide (Property_Name p = name)); [|now destruct (last _)].
  destruct (filter _ props) as [|q l] eqn:E; [reflexivity|].
  change (last (p :: q :: l)) with (last (q :: l)).
  destruct (last (q :: l)) eqn:El; [reflexivity|].
  now apply last_None in El.
Qed.

Lemma lastNamed_None name props :
  lastNamed name props = None <-> name ∉ map Property_Name props.
Proof.
  unfold lastNamed. rewrite last_None. split.
  - intros E Hin. apply list_elem_of_fmap in Hin as (p & -> & Hp).
    assert (p ∈ filter (fun q => Property_Name q = Property_Name p) props) as Hf
        by now apply list_elem_of_filter.
    rewrite E in Hf. now apply not_elem_of_nil in Hf.
  - intros Hn. destruct (filter _ props) as [|q l] eqn:E; [reflexivity|].
    exfalso. apply Hn.
    assert (q ∈ filter (fun p => Property_Name p = name) props) as Hq
        by (rewrite E; apply list_elem_of_here).
    apply list_elem_of_filter in Hq as [<- Hq].
    apply list_elem_of_fmap. eauto.
Qed.

Lemma foldl_insert_lookup (m : gmap string Property) props name :
  foldl (fun m prop => <[Property_Name prop := prop]> m) m props !! name
  = match lastNamed name props with
    | Some p => Some p
    | None => m !! name
    end.
Proof.
  revert m. induction props as [|p props IH]; intros m; simpl; [reflexivity|].
  rewrite IH, lastNamed_cons.
  destruct (lastNamed name props); [reflexivity|].
  destruct (decide (Property_Name p = name)) as [<-|Hne].
  - apply lookup_insert_eq.
  - now apply lookup_insert_ne.
Qed.

Lemma addMaps_inMap1_lookup map1 name :
  addMaps_inMap1 map1 !! name = lastNamed name map1.
Proof.
  unfold addMaps_inMap1. rewrite foldl_insert_lookup, lookup_empty.
  now destruct (lastNamed name map1).
Qed.

Lemma addMaps_inBoth_lookup_gen (inMap1 : gmap string Property) map2 (acc : gmap string Property * gmap string Property) name :
  snd (foldl (fun '(inMap2, inBoth) prop2 =>
           (<[Property_Name prop2 := prop2]> inMap2,
            match inMap1 !! Property_Name prop2 with
            | Some _ => <[Property_Name prop2 := prop2]> inBoth
            | None => inBoth
            end)) acc map2) !! name
  = match inMap1 !! name, lastNamed name map2 with
    | Some _, Some p => Some p
    | _, _ => snd acc !! name
    end.
Proof.
  revert acc. induction map2 as [|p map2 IH]; intros [a b]; simpl.
  - now destruct (inMap1 !! name).
  - rewrite IH, lastNamed_cons. simpl.
    destruct (inMap1 !! name) as [q|] eqn:E1.
    + destruct (lastNamed name map2); [reflexivity|].
      destruct (decide (Property_Name p = name)) as [<-|Hne].
      * rewrite E1. apply lookup_insert_eq.
      * destruct (inMap1 !! Property_Name p); [|reflexivity].
        now apply lookup_insert_ne.
    + destruct (inMap1 !! Property_Name p) eqn:E2; [|reflexivity].
      apply lookup_insert_ne. congruence.
Qed.

(** [inBoth] maps a key of [map1] to the last property of [map2] under that
    key, and holds nothing else. *)
Lemma addMaps_inBoth_lookup map1 map2 name :
  snd (addMaps_inMap2_inBoth (addMaps_inMap1 map1) map2) !! name
  = match lastNamed name map1 with
    | Some _ => lastNamed name map2
    | None => None
    end.
Proof.
  unfold addMaps_inMap2_inBoth.
  rewrite addMaps_inBoth_lookup_gen, addMaps_inMap1_lookup. simpl.
  destruct (lastNamed name map1), (lastNamed name map2);
    try reflexivity; apply lookup_empty.
Qed.

Lemma addMaps_loop2_filter (inBoth : gmap string Property) map2 ret :
  addMaps_loop2 inBoth map2 ret
  = ret ++ filter (fun p2 => inBoth !! Property_Name p2 = None) map2.
Proof.
  unfold addMaps_loop2. revert ret.
  induction map2 as [|p map2 IH]; intros ret; simpl.
  - now rewrite app_nil_r.
  - rewrite IH, filter_cons.
    destruct (inBoth !! Property_Name p) eqn:E.
    + destruct (decide _) as [E'|]; [congruence|reflexivity].
    + destruct (decide _); [|congruence]. now rewrite <- app_assoc.
Qed.

Lemma filter_ext_elem {A} (P Q : A -> Prop) `{!forall x, Decision (P x)}
    `{!forall x, Decision (Q x)} (l : list A) :
  (forall x, x ∈ l -> (P x <-> Q x)) -> filter P l = filter Q l.
Proof.
  induction l as [|a l IH]; intros Hext; [reflexivity|].
  rewrite !filter_cons.
  pose proof (Hext a (list_elem_of_here _ _)) as Ha.
  rewrite IH by (intros x Hx; apply Hext; now apply list_elem_of_further).
  destruct (decide (P a)), (decide (Q a)); tauto.
Qed.

Lemma addMaps_loop1_Return ev (inBoth : gmap string Property) pos map1 ret out :
  addMaps_loop1 ev inBoth pos map1 ret = Return out ->
  exists merged,
    out = ret ++ merged /\
    Forall2 (merged_with ev (fun n => inBoth !! n) pos) map1 merged.
Proof.
  revert ret. induction map1 as [|prop1 rest IH]; intros ret; simpl.
  - intros [= <-]. exists []. now rewrite app_nil_r.
  - destruct (inBoth !! Property_Name prop1) as [prop2|] eqn:E.
    + destruct (ev _ _ _ _) as [v| | |] eqn:Ev; try discriminate.
      intros H. apply IH in H as (merged & -> & HF).
      exists (Property_setValue prop1 v :: merged). split.
      * now rewrite <- app_assoc.
      * constructor; [|assumption]. unfold merged_with. rewrite E. eauto.
    + intros H. apply IH in H as (merged & -> & HF).
      exists (prop1 :: merged). split.
      * now rewrite <- app_assoc.
      * constructor; [|assumption]. unfold merged_with. now rewrite E.
Qed.

Lemma addMaps_loop1_complete ev (inBoth : gmap string Property) pos map1 ret
    merged :
  Forall2 (merged_with ev (fun n => inBoth !! n) pos) map1 merged ->
  addMaps_loop1 ev inBoth pos map1 ret = Return (ret ++ merged).
Proof.
  intros HF. revert ret.
  induction HF as [|prop1 r map1 merged Hm _ IH]; intros ret; simpl.
  - now rewrite app_nil_r.
  - unfold merged_with in Hm.
    destruct (inBoth !! Property_Name prop1) as [prop2|].
    + destruct Hm as (v & Ev & ->). rewrite Ev, IH. now rewrite <- app_assoc.
    + subst r. rewrite IH. now rewrite <- app_assoc.
Qed.

(** When the ['+'] of every shared pair returns, there is a list that
    holds the combined properties. *)
Lemma merged_with_exists ev lookup2 pos map1 :
  (forall prop1 prop2,
      prop1 ∈ map1 -> lookup2 (Property_Name prop1) = Some prop2 ->
      exists v, ev (Property_Value prop1) (Property_Value prop2) (chr "+") pos
                = Return v) ->
  exists merged, Forall2 (merged_with ev lookup2 pos) map1 merged.
Proof.
  induction map1 as [|prop1 rest IH]; intros Hev.
  - exists []. constructor.
  - destruct IH as [merged HF].
    { intros q1 q2 Hq. apply Hev. now apply list_elem_of_further. }
    destruct (lookup2 (Property_Name prop1)) as [prop2|] eqn:E.
    + destruct (Hev prop1 prop2 (list_elem_of_here _ _) E) as [v Ev].
      exists (Property_setValue prop1 v :: merged).
      constructor; [|exact HF]. unfold merged_with. rewrite E. eauto.
    + exists (prop1 :: merged).
      constructor; [|exact HF]. unfold merged_with. now rewrite E.
Qed.

Lemma addMaps_loop1_disjoint ev (inBoth : gmap string Property) pos map1 ret :
  (forall prop1, prop1 ∈ map1 -> inBoth !! Property_Name prop1 = None) ->
  addMaps_loop1 ev inBoth pos map1 ret = Return (ret ++ map1).
Proof.
  revert ret. induction map1 as [|prop1 rest IH]; intros ret Hd; simpl.
  - now rewrite app_nil_r.
  - rewrite (Hd prop1 (list_elem_of_here _ _)), IH.
    + now rewrite <- app_assoc.
    + intros q Hq. apply Hd. now apply list_elem_of_further.
Qed.

Lemma Forall2_merged_with_ext ev f g pos map1 merged :
  (forall prop1, prop1 ∈ map1 -> f (Property_Name prop1) = g (Property_Name prop1)) ->
  Forall2 (merged_with ev f pos) map1 merged ->
  Forall2 (merged_with ev g pos) map1 merged.
Proof.
  intros Hfg HF. induction HF as [|prop1 r map1 merged Hm _ IH]; constructor.
  - unfold merged_with in *. now rewrite <- (Hfg prop1 (list_elem_of_here _ _)).
  - apply IH. intros q Hq. apply Hfg. now apply list_elem_of_further.
Qed.

Lemma lastNamed_elem name props p :
  p ∈ props -> Property_Name p = name -> is_Some (lastNamed name props).
Proof.
  intros Hin Hn. destruct (lastNamed name props) eqn:E; [eauto|].
  apply lastNamed_None in E. exfalso. apply E.
  apply list_elem_of_fmap. eauto.
Qed.

(** ** Claims about the evaluator *)

(** C1 (as amended): when exactly one operand of [evaluateOperator] has
    [Type] unset, the call returns the other operand itself, without error
    and without wrapping it: the early [return] hands back [value2] (or
    [value1]) and builds no [Operator] node. *)
Theorem evaluateOperator_unset_operand eval value1 value2 operator pos other :
  (ExprType value1 = UnsetType /\ ExprType value2 <> UnsetType /\ other = value2)
  \/ (ExprType value2 = UnsetType /\ ExprType value1 <> UnsetType /\ other = value1) ->
  evaluateOperator eval value1 value2 operator pos = Return other.
Proof.
  intros H. rewrite evaluateOperator_unfold. unfold evaluateOperator_step.
  destruct H as [(H1 & H2 & ->)|(H2 & H1 & ->)].
  - now rewrite decide_True.
  - now rewrite decide_False, decide_True.
Qed.

Lemma evaluateOperator_unset_operand_witness :
  evaluateOperator true (EUnsetProperty zeroPos) (EString zeroPos "a")
                   (chr "+") zeroPos
  = Return (EString zeroPos "a").
Proof.
  apply (evaluateOperator_unset_operand true (EUnsetProperty zeroPos)
           (EString zeroPos "a") (chr "+") zeroPos (EString zeroPos "a")).
  left. simpl. repeat split. discriminate.
Defined.

(** C1 as the specification words it fails: with an unset left operand and
    the string ["a"] on the right, the call returns the string, and neither
    the result nor anything inside it is an [Operator] over the pair. *)
Lemma evaluateOperator_unset_builds_no_operator :
  let value1 := EUnsetProperty zeroPos in
  let value2 := EString zeroPos "a" in
  ExprType value1 = UnsetType /\ ExprType value2 <> UnsetType /\
  ~ (exists r,
        evaluateOperator true value1 value2 (chr "+") zeroPos = Return r /\
        exists value,
          EOperator value1 value2 (chr "+") zeroPos value ∈ subexpressions r /\
          value = value2).
Proof.
  simpl. repeat split; [discriminate|].
  intros (r & Hr & value & Hin & _).
  vm_compute in Hr. injection Hr as <-.
  simpl in Hin. apply list_elem_of_singleton in Hin. discriminate.
Qed.

(** C5: [addMaps] keeps the properties of [map1] in place, each one whose
    key [map2] also has being replaced by the property with the two values
    combined by [evaluateOperator ... '+'] (the partner is the last
    property of [map2] under that key), and appends, in the order of
    [map2], the properties of [map2] whose key [map1] lacks.  It returns
    that list whenever the ['+'] of every shared pair returns, and only
    then.  On maps with disjoint keys it returns [map1] followed by
    [map2].  The recursion budget of the model is never what stops it. *)
Theorem addMaps_merge eval map1 map2 pos :
  addMaps eval map1 map2 pos <> OutOfFuel /\
  (forall ret,
      addMaps eval map1 map2 pos = Return ret ->
      exists merged,
        ret = merged
              ++ filter (fun p2 => Property_Name p2 ∉ map Property_Name map1) map2 /\
        Forall2 (merged_with (evaluateOperator eval)
                             (fun n => lastNamed n map2) pos) map1 merged) /\
  (forall merged,
      Forall2 (merged_with (evaluateOperator eval)
                           (fun n => lastNamed n map2) pos) map1 merged ->
      addMaps eval map1 map2 pos
      = Return (merged
                ++ filter (fun p2 => Property_Name p2 ∉ map Property_Name map1)
                          map2)) /\
  ((forall prop1 prop2,
       prop1 ∈ map1 -> lastNamed (Property_Name prop1) map2 = Some prop2 ->
       exists v, evaluateOperator eval (Property_Value prop1)
                                  (Property_Value prop2) (chr "+") pos
                 = Return v) ->
   exists ret, addMaps eval map1 map2 pos = Return ret) /\
  ((forall p1 p2, p1 ∈ map1 -> p2 ∈ map2 ->
                  Property_Name p1 <> Property_Name p2) ->
   addMaps eval map1 map2 pos = Return (map1 ++ map2)).
Proof.
  set (inBoth := snd (addMaps_inMap2_inBoth (addMaps_inMap1 map1) map2)).
  assert (filter (fun p2 => inBoth !! Property_Name p2 = None) map2
          = filter (fun p2 => Property_Name p2 ∉ map Property_Name map1) map2)
    as Hrest.
  { apply filter_ext_elem. intros p2 Hp2. unfold inBoth.
    rewrite addMaps_inBoth_lookup.
    destruct (lastNamed (Property_Name p2) map1) eqn:E1.
    - split.
      + intros E2.
        destruct (lastNamed_elem (Property_Name p2) map2 p2 Hp2 eq_refl)
          as [q Hq]. congruence.
      + intros Hn. apply lastNamed_None in Hn. congruence.
    - split; [|reflexivity]. intros _. now apply lastNamed_None. }
  assert (forall prop1, prop1 ∈ map1 ->
            inBoth !! Property_Name prop1
            = lastNamed (Property_Name prop1) map2) as Hboth.
  { intros prop1 Hin. unfold inBoth. rewrite addMaps_inBoth_lookup.
    destruct (lastNamed_elem (Property_Name prop1) map1 prop1 Hin eq_refl)
      as [q ->]. reflexivity. }
  assert (forall merged,
      Forall2 (merged_with (evaluateOperator eval)
                           (fun n => lastNamed n map2) pos) map1 merged ->
      addMaps eval map1 map2 pos
      = Return (merged
                ++ filter (fun p2 => Property_Name p2 ∉ map Property_Name map1)
                          map2)) as Hcomplete.
  { intros merged HF. unfold addMaps, addMaps_with. fold inBoth.
    rewrite (addMaps_loop1_complete _ _ _ _ [] merged).
    - simpl. now rewrite addMaps_loop2_filter, Hrest.
    - eapply Forall2_merged_with_ext; [|exact HF].
      intros prop1 Hin. simpl. symmetry. now apply Hboth. }
  split; [apply addMaps_fuel_enough|]. split; [|split; [|split]].
  - intros ret. unfold addMaps, addMaps_with. fold inBoth.
    destruct (addMaps_loop1 _ _ _ _ _) as [out| | |] eqn:E; try discriminate.
    intros [= <-]. apply addMaps_loop1_Return in E as (merged & -> & HF).
    exists merged. simpl. split.
    + now rewrite addMaps_loop2_filter, Hrest.
    + eapply Forall2_merged_with_ext; [|exact HF].
      intros prop1 Hin. simpl. now apply Hboth.
  - exact Hcomplete.
  - intros Hev.
    destruct (merged_with_exists (evaluateOperator eval)
                (fun n => lastNamed n map2) pos map1 Hev) as [merged HF].
    eexists. exact (Hcomplete merged HF).
  - intros Hd. unfold addMaps, addMaps_with. fold inBoth.
    assert (forall n, n ∈ map Property_Name map1 ->
                      n ∈ map Property_Name map2 -> False) as Hd'.
    { intros n H1 H2. apply list_elem_of_fmap in H1 as (p1 & -> & H1).
      apply list_elem_of_fmap in H2 as (p2 & E & H2). now apply (Hd p1 p2). }
    assert (forall n, inBoth !! n = None) as Hnone.
    { intros n. unfold inBoth. rewrite addMaps_inBoth_lookup.
      destruct (lastNamed n map1) eqn:E1; [|reflexivity].
      apply lastNamed_None. intros H2. apply (Hd' n); [|assumption].
      destruct (decide (n ∈ map Property_Name map1)) as [|Hn]; [assumption|].
      apply lastNamed_None in Hn. congruence. }
    rewrite addMaps_loop1_disjoint by (intros; apply Hnone).
    rewrite addMaps_loop2_filter.
    assert (filter (fun p2 => inBoth !! Property_Name p2 = None) map2 = map2)
      as ->; [|reflexivity].
    clearbody inBoth. clear -Hnone. induction map2 as [|p map2 IH]; [reflexivity|].
    rewrite filter_cons, decide_True by apply Hnone. now f_equal.
Qed.

Lemma wrap64_in_range z : int64_range z -> wrap64 z = z.
Proof.
  unfold int64_range, wrap64. intros Hz.
  rewrite Z.mod_small by lia. lia.
Qed.

Lemma wrap64_range z : int64_range (wrap64 z).
Proof.
  unfold int64_range, wrap64.
  pose proof (Z.mod_pos_bound (z + 2 ^ 63) (2 ^ 64) ltac:(lia)). lia.
Qed.

Lemma addMaps_merge_witness :
  let prop name v := mkProperty name zeroPos zeroPos v in
  addMaps true
          [prop "a" (EString zeroPos "x"); prop "c" (EString zeroPos "z")]
          [prop "a" (EString zeroPos "y"); prop "b" (EString zeroPos "w")]
          zeroPos
  = Return [prop "a" (EOperator (EString zeroPos "x") (EString zeroPos "y")
                                (chr "+") zeroPos (EString zeroPos "xy"));
            prop "c" (EString zeroPos "z");
            prop "b" (EString zeroPos "w")].
Proof.
  intros prop.
  apply (proj1 (proj2 (proj2 (addMaps_merge true
           [prop "a" (EString zeroPos "x"); prop "c" (EString zeroPos "z")]
           [prop "a" (EString zeroPos "y"); prop "b" (EString zeroPos "w")]
           zeroPos)))
         [prop "a" (EOperator (EString zeroPos "x") (EString zeroPos "y")
                              (chr "+") zeroPos (EString zeroPos "xy"));
          prop "c" (EString zeroPos "z")]).
  repeat constructor.
  exists (EOperator (EString zeroPos "x") (EString zeroPos "y")
                    (chr "+") zeroPos (EString zeroPos "xy")).
  split; reflexivity.
Defined.

(** C6 on the code: the [Value] of the operator that ['+'] returns is
    built on [e1.Copy()], and that copy is not deep.  After
    [x = ["a" + "b"]], the sum [x + ["c"]] has for value a new list of a
    new operator and of the string of the right operand, but the [Value]
    of the new operator is the string object that is the [Value] of the
    operator in the list of [x]; writing to it through the sum changes
    what [x] evaluates to.  This holds whatever [addMaps] does. *)
Theorem evaluateOperator_value_shares_with_left addMaps :
  let h0 := [Heap.NString zeroPos "a"; Heap.NString zeroPos "b";
             Heap.NString zeroPos "ab";
             Heap.NOperator 0 1 (chr "+") zeroPos 2;
             Heap.NList zeroPos zeroPos [3];
             Heap.NVariable "x" zeroPos 4;
             Heap.NString zeroPos "c";
             Heap.NList zeroPos zeroPos [6]]%nat in
  exists r h1 value elem v,
    (HeapEval.evaluateOperator addMaps 3 true 5 7 (chr "+") zeroPos h0
     = Return (r, h1) /\
     Heap.Value_of h1 r = Some value /\
     h1 !! value = Some (Heap.NList zeroPos zeroPos [elem; 6]) /\
     value <> 4 /\ elem <> 3 /\
     Heap.expression 3 h1 value
     = Some (EList zeroPos zeroPos
               [EOperator (EString zeroPos "a") (EString zeroPos "b")
                          (chr "+") zeroPos (EString zeroPos "ab");
                EString zeroPos "c"]) /\
     Heap.Value_of h1 elem = Some v /\
     Heap.Value_of h1 3 = Some v /\
     let h2 := Heap.set_String_Value h1 v "changed" in
     Heap.expression 3 h2 4
     = Some (EList zeroPos zeroPos
               [EOperator (EString zeroPos "a") (EString zeroPos "b")
                          (chr "+") zeroPos (EString zeroPos "changed")]) /\
     Heap.expression 3 h2 4 <> Heap.expression 3 h0 4)%nat.
Proof.
  intros h0. eexists _, _, _, _, _. split; [vm_compute; reflexivity|].
  repeat split; try reflexivity; vm_compute; discriminate.
Qed.

(** X27: with evaluation on and neither operand of unset [Type], ['+'] on
    two operands that evaluate to strings returns the operator node over
    the two whose [Value] is a string with the concatenation for value and
    the position of the left one; on two [Int64] its [Value] has the
    [int64] sum, which is the sum of the integers whenever that fits 64
    bits, and an empty token; on two lists its [Value] has the values of
    the left list followed by those of the right one, in order, none
    dropped. *)
Theorem evaluateOperator_plus_values value1 value2 pos :
  ExprType value1 <> UnsetType ->
  ExprType value2 <> UnsetType ->
  (forall p1 s1 p2 s2,
      Eval value1 = EString p1 s1 -> Eval value2 = EString p2 s2 ->
      evaluateOperator true value1 value2 (chr "+") pos
      = Return (EOperator value1 value2 (chr "+") pos
                          (EString p1 (s1 ++ s2)%string))) /\
  (forall p1 n1 t1 p2 n2 t2,
      Eval value1 = EInt64 p1 n1 t1 -> Eval value2 = EInt64 p2 n2 t2 ->
      evaluateOperator true value1 value2 (chr "+") pos
      = Return (EOperator value1 value2 (chr "+") pos
                          (EInt64 p1 (int64_add n1 n2) "")) /\
      (int64_range (n1 + n2) -> int64_add n1 n2 = n1 + n2)) /\
  (forall l1 r1 vs1 l2 r2 vs2,
      Eval value1 = EList l1 r1 vs1 -> Eval value2 = EList l2 r2 vs2 ->
      evaluateOperator true value1 value2 (chr "+") pos
      = Return (EOperator value1 value2 (chr "+") pos
                          (EList l1 r1 (vs1 ++ vs2)))).
Proof.
  intros H1 H2.
  repeat apply conj.
  - intros p1 s1 p2 s2 E1 E2. rewrite evaluateOperator_unfold.
    unfold evaluateOperator_step.
    rewrite !decide_False by assumption. rewrite E1, E2. reflexivity.
  - intros p1 n1 t1 p2 n2 t2 E1 E2. split.
    + rewrite evaluateOperator_unfold. unfold evaluateOperator_step.
      rewrite !decide_False by assumption. rewrite E1, E2. reflexivity.
    + intros Hr. now apply wrap64_in_range.
  - intros l1 r1 vs1 l2 r2 vs2 E1 E2.
    rewrite evaluateOperator_unfold. unfold evaluateOperator_step.
    rewrite !decide_False by assumption. rewrite E1, E2. simpl.
    change (map Copy vs1) with (match Copy (EList l1 r1 vs1) with
                                | EList _ _ vs => vs | _ => [] end).
    now rewrite Copy_id.
Qed.

Lemma evaluateOperator_plus_values_witness :
  evaluateOperator true (EInt64 zeroPos 2 "2") (EInt64 zeroPos 3 "3")
                   (chr "+") zeroPos
  = Return (EOperator (EInt64 zeroPos 2 "2") (EInt64 zeroPos 3 "3")
                      (chr "+") zeroPos (EInt64 zeroPos 5 "")).
Proof.
  refine (proj1 (proj1 (proj2 (evaluateOperator_plus_values
            (EInt64 zeroPos 2 "2") (EInt64 zeroPos 3 "3") zeroPos _ _))
            zeroPos 2 "2" zeroPos 3 "3" eq_refl eq_refl));
    simpl; discriminate.
Defined.

(** ** Scope *)

Lemma Scope_Add_inv st s assignment s' err :
  Scope_Add st s assignment = Return (s', err) ->
  exists a, st !! assignment = Some a /\
    ((is_Some (vars s !! Assignment_Name a) \/
      is_Some (inheritedVars s !! Assignment_Name a)) /\
     s' = s /\ is_Some err
     \/ vars s !! Assignment_Name a = None /\
        inheritedVars s !! Assignment_Name a = None /\
        s' = mkScope (<[Assignment_Name a := assignment]> (vars s))
                     (inheritedVars s) /\
        err = None).
Proof.
  unfold Scope_Add. destruct (st !! assignment) as [a|]; [|discriminate].
  intros H. exists a. split; [reflexivity|].
  destruct (vars s !! Assignment_Name a) eqn:E1.
  { injection H as <- <-. left. eauto. }
  destruct (inheritedVars s !! Assignment_Name a) eqn:E2.
  { injection H as <- <-. left. eauto. }
  injection H as <- <-. right. auto.
Qed.

Lemma reachable_disjoint s : reachable s -> disjoint_tables s.
Proof.
  induction 1 as [|parent _ _|st s assignment s' err _ IH HAdd|s name _ IH];
    intros n Hv Hi.
  - simpl in Hv. rewrite lookup_empty in Hv. now destruct Hv.
  - simpl in Hv. rewrite lookup_empty in Hv. now destruct Hv.
  - apply Scope_Add_inv in HAdd as (a & _ & [(_ & -> & _)|(E1 & E2 & -> & _)]).
    + exact (IH n Hv Hi).
    + simpl in Hv, Hi.
      destruct (decide (Assignment_Name a = n)) as [<-|Hne].
      * rewrite E2 in Hi. now destruct Hi.
      * rewrite lookup_insert_ne in Hv by assumption. exact (IH n Hv Hi).
  - simpl in Hv, Hi.
    destruct (decide (name = n)) as [<-|Hne].
    + rewrite lookup_delete_eq in Hv. now destruct Hv.
    + rewrite lookup_delete_ne in Hv, Hi by assumption. exact (IH n Hv Hi).
Qed.

(** C8: in every scope built with [NewScope], [Add] and [Remove] the key
    sets of [vars] and [inheritedVars] are disjoint, and [Add] of an
    assignment whose name is in either table returns an error and the
    scope as it was. *)
Theorem Scope_disjoint_and_Add_rejects s :
  reachable s ->
  dom (vars s) ## dom (inheritedVars s) /\
  forall st assignment a,
    st !! assignment = Some a ->
    Assignment_Name a ∈ dom (vars s) ∪ dom (inheritedVars s) ->
    exists err, Scope_Add st s assignment = Return (s, Some err).
Proof.
  intros Hr. split.
  - apply elem_of_disjoint. intros n Hv Hi.
    apply elem_of_dom in Hv, Hi. exact (reachable_disjoint s Hr n Hv Hi).
  - intros st assignment a Ha Hin. unfold Scope_Add. rewrite Ha.
    apply elem_of_union in Hin as [Hin|Hin]; apply elem_of_dom in Hin as [old E].
    + rewrite E. eauto.
    + rewrite E. destruct (vars s !! Assignment_Name a); eauto.
Qed.

Lemma Scope_disjoint_and_Add_rejects_witness :
  let a := mkAssignment "x" zeroPos (EString zeroPos "v") (EString zeroPos "v")
                        zeroPos "=" false in
  let parent := mkScope {["x" := 0%nat]} ∅ in
  exists err,
    Scope_Add [a] (NewScope (Some parent)) 0%nat
    = Return (NewScope (Some parent), Some err).
Proof.
  intros a parent.
  assert (reachable parent) as Hp.
  { apply (reachable_Add [a] (NewScope None) 0%nat parent None).
    - constructor.
    - reflexivity. }
  apply (proj2 (Scope_disjoint_and_Add_rejects (NewScope (Some parent))
                  (reachable_NewScope parent Hp)) [a] 0%nat a eq_refl).
  simpl. apply elem_of_union_r, elem_of_dom.
  exists 0%nat. reflexivity.
Defined.

(** ** [Module.Name] *)

Section ModuleNameFacts.
Variable Expression_String : Expression -> string.

Lemma Module_Name_scan_last props cache :
  Module_Name_scan Expression_String props cache
  = match lastNamed "name" props with
    | Some prop => Some (nameText Expression_String prop)
    | None => cache
    end.
Proof.
  revert cache. induction props as [|prop props IH]; intros cache.
  - reflexivity.
  - unfold Module_Name_scan in *. simpl. rewrite IH, lastNamed_cons.
    destruct (lastNamed "name" props); [reflexivity|].
    destruct (decide (Property_Name prop = "name")); [|reflexivity].
    unfold nameText. now destruct (Property_Value prop).
Qed.

(** C10: on a module whose cache is empty, [Name] goes through all the
    properties and returns the text of the last one called ["name"], or
    the empty string when there is none; it stores that answer, and
    whatever the properties are changed to afterwards, [Name] returns the
    stored answer and leaves the module alone. *)
Theorem Module_Name_last_then_cached m :
  Name__internal_only m = None ->
  let name := fst (Module_Name Expression_String m) in
  let m1 := snd (Module_Name Expression_String m) in
  name = match lastNamed "name" (Module_Properties m) with
         | Some prop => nameText Expression_String prop
         | None => ""
         end /\
  Name__internal_only m1 = Some name /\
  Module_Properties m1 = Module_Properties m /\
  forall props,
    Module_Name Expression_String (Module_setProperties m1 props)
    = (name, Module_setProperties m1 props).
Proof.
  intros Hnil. unfold Module_Name. rewrite Hnil. simpl.
  rewrite Module_Name_scan_last.
  destruct (lastNamed "name" (Module_Properties m)); simpl; auto.
Qed.
End ModuleNameFacts.

Lemma Module_Name_last_then_cached_witness :
  let m := mkModule "cc_library" zeroPos zeroPos zeroPos
             [mkProperty "name" zeroPos zeroPos (EString zeroPos "first");
              mkProperty "srcs" zeroPos zeroPos (EList zeroPos zeroPos []);
              mkProperty "name" zeroPos zeroPos (EString zeroPos "second")]
             None in
  fst (Module_Name (fun _ => "") m) = "second" /\
  fst (Module_Name (fun _ => "")
         (Module_setProperties (snd (Module_Name (fun _ => "") m)) []))
  = "second".
Proof.
  intros m.
  pose proof (Module_Name_last_then_cached (fun _ => "") m eq_refl)
    as (Hname & _ & _ & Hcached).
  split.
  - exact Hname.
  - rewrite (Hcached []). exact Hname.
Defined.

(** ** [Copy] and the objects it leaves shared *)

(** C2 on the code: the copy of an operator is a new object with new
    arguments and the shape of the original, but its [Value] is the object
    the original's [Value] is; writing to that string through the copy
    changes what the original evaluates to. *)
Theorem Copy_shares_Operator_Value :
  let h0 := [Heap.NString zeroPos "a"; Heap.NString zeroPos "b";
             Heap.NString zeroPos "ab";
             Heap.NOperator 0 1 (chr "+") zeroPos 2]%nat in
  exists c h1 v,
    (Heap.Copy 2 3 h0 = Some (c, h1) /\
     c <> 3 /\
     Heap.expression 2 h1 c = Heap.expression 2 h1 3 /\
     Heap.expression 2 h1 3 = Heap.expression 2 h0 3 /\
     Heap.Value_of h1 c = Some v /\
     Heap.Value_of h1 3 = Some v /\
     let h2 := Heap.set_String_Value h1 v "changed" in
     Heap.expression 2 h2 3
     = Some (EOperator (EString zeroPos "a") (EString zeroPos "b") (chr "+")
                       zeroPos (EString zeroPos "changed")) /\
     Heap.expression 2 h2 3 <> Heap.expression 2 h1 3)%nat.
Proof.
  simpl. eexists _, _, _. split; [reflexivity|].
  repeat split; try reflexivity; discriminate.
Qed.

(** The same for a variable: the copy refers to the object the original
    refers to. *)
Lemma Copy_shares_Variable_Value :
  let h0 := [Heap.NString zeroPos "x"; Heap.NVariable "v" zeroPos 0]%nat in
  exists c h1,
    (Heap.Copy 1 1 h0 = Some (c, h1) /\ c <> 1 /\
     Heap.Value_of h1 c = Some 0 /\
     Heap.Value_of h1 1 = Some 0 /\
     Heap.expression 2 (Heap.set_String_Value h1 0 "changed") 1
     = Some (EVariable "v" zeroPos (EString zeroPos "changed")))%nat.
Proof.
  simpl. eexists _, _. repeat split; try reflexivity. discriminate.
Qed.

(** ** [ParseExpression] and the panic of [p.error] *)

Lemma parser_error_panics {A} (err : error) (p : parser) :
  exists p', @parser_error A err p = Panic errTooManyErrors p' /\
             parser_errors p' <> [].
Proof.
  unfold parser_error.
  destruct (le_lt_dec _ _) as [Hle|Hlt].
  - eexists. split; [reflexivity|]. simpl. now destruct (parser_errors p).
  - destruct (maxErrors_reached _ _ Hlt).
Qed.

(** C3 on the code: on the input that holds the one token [+],
    [ParseExpression] records the error and then unwinds with the
    [errTooManyErrors] panic, while [Parse], through the deferred function
    of [parse], returns the error list on the same input. *)
Theorem ParseExpression_lets_the_panic_out Unquote ParseInt fuel :
  let input := [punct "+" 1 1] in
  (exists p,
      ParseExpression Unquote ParseInt (S (S fuel)) input
      = Panic errTooManyErrors p /\
      parser_errors p
      = [mkParseError (ErrExpectedValue (chr "+")) (mkPosition "" 0 1 1)]) /\
  (exists p,
      Parse Unquote ParseInt (S fuel) "Blueprints" input None []
      = Ok (None, [mkParseError (ErrExpectedDefinition (chr "+"))
                                (mkPosition "Blueprints" 0 1 1)]) p).
Proof.
  split.
  - eexists. split; reflexivity.
  - eexists. reflexivity.
Qed.

(** ** Reasoning about runs of the parser *)

Lemma parser_error_eq {A} (err : error) (p : parser) :
  @parser_error A err p = Panic errTooManyErrors (error_state err p).
Proof.
  unfold parser_error, error_state.
  destruct (le_lt_dec _ _) as [Hle|Hlt]; [reflexivity|].
  destruct (maxErrors_reached _ _ Hlt).
Qed.

Lemma parser_error_Ok {A} (err : error) (p : parser) (a : A) (p' : parser) :
  parser_error err p = Ok a p' -> False.
Proof. rewrite parser_error_eq. discriminate. Qed.

Lemma errorf_Ok {A} (err : error) (p : parser) (a : A) (p' : parser) :
  errorf err p = Ok a p' -> False.
Proof. apply parser_error_Ok. Qed.

Lemma bind_Ok {A B} (m : M A) (k : A -> M B) p b p'' :
  bind m k p = Ok b p'' ->
  exists a p', m p = Ok a p' /\ k a p' = Ok b p''.
Proof.
  unfold bind. destruct (m p) as [a p'| |]; try discriminate. eauto.
Qed.

Lemma bind_run {A B} (m : M A) (k : A -> M B) p a p' :
  m p = Ok a p' -> bind m k p = k a p'.
Proof. unfold bind. now intros ->. Qed.

Lemma bind_panic {A B} (m : M A) (k : A -> M B) p v p' :
  m p = Panic v p' -> bind m k p = Panic v p'.
Proof. unfold bind. now intros ->. Qed.

(** Rewrite the run of the first call of a sequence with what it
    returned. *)
Ltac step E := rewrite (bind_run _ _ _ _ _ E); cbv beta.

Lemma try__Ok {A} (o : outcome A) p a p' :
  try_ o p = Ok a p' -> o = Return a /\ p' = p.
Proof.
  destruct o; simpl; try discriminate.
  - unfold ret. now intros [= -> ->].
  - intros H. now apply parser_error_Ok in H.
Qed.

Lemma same_memory_refl p : same_memory p p.
Proof. now repeat split. Qed.

Lemma same_memory_trans p1 p2 p3 :
  same_memory p1 p2 -> same_memory p2 p3 -> same_memory p1 p3.
Proof. unfold same_memory. intuition congruence. Qed.

Lemma same_memory_set_scanner p s : same_memory p (set_scanner p s).
Proof. now repeat split. Qed.

Lemma same_memory_set_tok p t : same_memory p (set_tok p t).
Proof. now repeat split. Qed.

Lemma same_memory_set_comments p c : same_memory p (set_comments p c).
Proof. now repeat split. Qed.

(** Unfold the plumbing of the monad in [H] and split on the run of the
    first call it reaches, keeping the case where that call returned. *)
Ltac unfold_monad_in H :=
  cbv beta iota delta [bind get ret modify tok Position_ TokenText] in H.

Ltac scrutinee t :=
  lazymatch t with
  | match ?x with Ok _ _ => _ | Panic _ _ => _ | Exhausted => _ end =>
      scrutinee x
  | _ => t
  end.

Ltac run1 H :=
  unfold_monad_in H;
  lazymatch type of H with
  | (match ?x with Ok _ _ => _ | Panic _ _ => _ | Exhausted => _ end)
    = Ok _ _ =>
      let s := scrutinee x in
      lazymatch s with
      | ?m ?p =>
          let E := fresh "Run" in
          destruct (m p) as [? ?|? ?|] eqn:E;
          [|discriminate H|discriminate H];
          repeat match goal with u : unit |- _ => destruct u end
      end
  end.

Ltac run H := repeat run1 H.

Lemma Scan_Ok t p p' : Scan p = Ok t p' -> same_memory p p'.
Proof.
  unfold Scan. destruct (Scanner_src (parser_scanner p)) as [|x rest].
  - intros [= <- <-]. apply same_memory_set_scanner.
  - destruct (Token_errors x).
    + intros [= <- <-]. apply same_memory_set_scanner.
    + intros H. now apply errorf_Ok in H.
Qed.

Lemma next_comments_Ok turns : forall comments p p',
  next_comments turns comments p = Ok tt p' -> same_memory p p'.
Proof.
  induction turns as [|turns IH]; intros comments p p' H; simpl in H.
  - unfold_monad_in H. destruct (decide _); [discriminate|].
    injection H as <-. apply same_memory_set_comments.
  - unfold_monad_in H. destruct (decide _).
    + assert (forall q comments',
                 same_memory p q ->
                 match Scan q with
                 | Ok a q' => next_comments turns comments' (set_tok q' a)
                 | Panic v q' => Panic v q'
                 | Exhausted => Exhausted
                 end = Ok tt p' -> same_memory p p') as Hgo.
      { intros q comments' Hq Hrun.
        destruct (Scan q) as [a q'| |] eqn:HScan; try discriminate.
        apply Scan_Ok in HScan. apply IH in Hrun.
        eapply same_memory_trans; [exact Hq|].
        eapply same_memory_trans; [exact HScan|].
        eapply same_memory_trans; [apply same_memory_set_tok|exact Hrun]. }
      destruct (last comments) as [c|].
      * destruct (_ <? _).
        -- exact (Hgo _ _ (same_memory_set_comments _ _) H).
        -- exact (Hgo _ _ (same_memory_refl _) H).
      * exact (Hgo _ _ (same_memory_refl _) H).
    + injection H as <-. apply same_memory_set_comments.
Qed.

Lemma next_Ok p p' : next p = Ok tt p' -> same_memory p p'.
Proof.
  unfold next. intros H. unfold_monad_in H.
  destruct (decide _); [injection H as <-; apply same_memory_refl|].
  run H. apply Scan_Ok in Run.
  eapply same_memory_trans; [exact Run|].
  eapply same_memory_trans; [apply same_memory_set_tok|].
  destruct (decide _).
  - now apply next_comments_Ok in H.
  - injection H as <-. apply same_memory_refl.
Qed.

Lemma accept_Ok want p p' :
  accept want p = Ok tt p' -> parser_tok p = want /\ same_memory p p'.
Proof.
  unfold accept. intros H. unfold_monad_in H.
  destruct (decide _) as [E|].
  - split; [exact E|]. now apply next_Ok.
  - now apply errorf_Ok in H.
Qed.

(** ** Property lists *)

Section PropertyListFacts.
Variable Unquote : string -> option string.
Variable ParseInt : string -> option Z.

Lemma filter_is_set_cons a l :
  filter is_set (a :: l)
  = if decide (ExprType (Property_Value a) = UnsetType)
    then filter is_set l else a :: filter is_set l.
Proof.
  rewrite filter_cons. unfold is_set at 1.
  destruct (decide (ExprType (Property_Value a) = UnsetType)) as [E|N].
  - destruct (decide _) as [N'|]; [now destruct N'|reflexivity].
  - destruct (decide _) as [|N']; [reflexivity|now destruct N'].
Qed.

(** C9: the list [parsePropertyList] returns holds what it was given to
    start with (nothing, in [parseModule] and [parseMapValue]) followed, in
    source order, by the properties it read whose value is not of unset
    [Type]; a property whose value is of unset [Type] is left out. *)
Theorem parsePropertyList_drops_unset fuel isModule compat :
  forall acc p properties p',
    parsePropertyList Unquote ParseInt fuel isModule compat acc p
    = Ok properties p' ->
    exists read,
      properties_read Unquote ParseInt isModule compat p read p' /\
      properties
      = acc ++ filter (fun property =>
                         ExprType (Property_Value property) <> UnsetType) read.
Proof.
  change (fun property => ExprType (Property_Value property) <> UnsetType)
    with is_set.
  induction fuel as [|fuel IH]; intros acc p properties p' H;
    [discriminate|].
  simpl in H. unfold_monad_in H.
  destruct (decide (parser_tok p = scanner.Ident)) as [Eid|Nid].
  - run1 H. unfold_monad_in H.
    destruct (decide (parser_tok p0 = chr ",")) as [Ec|Nc].
    + run1 H. apply IH in H as (read & Hread & ->).
      exists (a :: read). split.
      * eapply properties_read_more; eauto.
      * rewrite filter_is_set_cons.
        destruct (decide (ExprType (Property_Value a) = UnsetType));
          [reflexivity|now rewrite <- app_assoc].
    + injection H as <- <-. exists [a]. split.
      * eapply properties_read_last; eauto.
      * rewrite filter_is_set_cons, filter_nil.
        destruct (decide (ExprType (Property_Value a) = UnsetType));
          [now rewrite app_nil_r|reflexivity].
  - injection H as <- <-. exists []. split.
    + now constructor.
    + now rewrite app_nil_r.
Qed.

End PropertyListFacts.

Lemma parsePropertyList_drops_unset_witness :
  exists properties p' read,
    parsePropertyList unquote_plain parse_decimal 10 false false []
                      properties_a_b = Ok properties p' /\
    properties = [mkProperty "b" (mkPosition "" 0 1 7) (mkPosition "" 0 1 8)
                             (EString (mkPosition "" 0 1 10) "s")] /\
    properties_read unquote_plain parse_decimal false false
                    properties_a_b read p' /\
    properties
    = filter (fun property =>
                ExprType (Property_Value property) <> UnsetType) read.
Proof.
  destruct (parsePropertyList unquote_plain parse_decimal 10 false false []
              properties_a_b) as [properties p'| |] eqn:Run;
    [|vm_compute in Run; discriminate Run ..].
  destruct (parsePropertyList_drops_unset unquote_plain parse_decimal 10
              false false [] properties_a_b properties p' Run)
    as (read & Hread & Hfilter).
  exists properties, p', read. repeat split; try assumption.
  vm_compute in Run. now injection Run as <- _.
Defined.

(** ** [+=] on an assignment *)

Section AssignmentFacts.
Variable Unquote : string -> option string.
Variable ParseInt : string -> option Z.

(** C7: take [name += expr] with a scope at hand and a name that is not a
    reserved word (those are refused before anything is parsed), at the
    point where the expression has been parsed and the new assignment
    stored.  When the
    scope has no [name], or has it only among the inherited variables, or
    has it locally but referenced, the parser records the matching error
    and stops.  Otherwise it calls [evaluateOperator] on the old value
    and the expression; an error of that call is recorded likewise, and
    a result is written to the [Value] of the assignment the scope holds,
    whose [OrigValue] and other fields stay as they were. *)
Theorem parseAssignment_append fuel name namePos p value p2 s :
  ~ (name = "default" \/ name = "unset") ->
  (accept (chr "=") ;; parseExpression Unquote ParseInt fuel) p
  = Ok value p2 ->
  parser_scope p2 = Some s ->
  let pos := Scanner_Position (parser_scanner p) in
  let new := mkAssignment name namePos value value pos "+=" false in
  let p3 := set_store p2 (parser_store p2 ++ [new]) in
  let run := parseAssignment Unquote ParseInt fuel name namePos "+=" p in
  match Scope_Get s name with
  | (None, _) =>
      run = Panic errTooManyErrors
                  (error_state (ErrModifiedNonExistent name) p3)
  | (Some old, false) =>
      run = Panic errTooManyErrors
                  (error_state (ErrModifiedNonLocal name) p3)
  | (Some old, true) =>
      forall o, parser_store p2 !! old = Some o ->
        if Assignment_Referenced o then
          run = Panic errTooManyErrors
                      (error_state (ErrModifiedAfterReferencing name) p3)
        else
          match evaluateOperator (parser_eval p2) (Assignment_Value o)
                                 value (chr "+") pos with
          | Return val =>
              let p4 := set_store p3 (<[old := Assignment_setValue o val]>
                                        (parser_store p3)) in
              run = Ok (length (parser_store p2)) p4 /\
              parser_store p4 !! old
              = Some (mkAssignment (Assignment_Name o) (Assignment_NamePos o)
                        val (Assignment_OrigValue o) (Assignment_EqualsPos o)
                        (Assignment_Assigner o) false) /\
              parser_store p4 !! length (parser_store p2) = Some new /\
              parser_scope p4 = Some s
          | Failure e => run = Panic errTooManyErrors (error_state e p3)
          | Panicked m => run = Panic (runtimePanic m) p3
          | OutOfFuel => False
          end
  end.
Proof.
  intros Hname Hrun Hscope pos new p3 run.
  apply bind_Ok in Hrun as ([] & p1 & Hacc & Hexpr).
  assert (run
          = bind (match Scope_Get s name with
                  | (None, _) => errorf (ErrModifiedNonExistent name)
                  | (Some old, local) =>
                      if negb local then errorf (ErrModifiedNonLocal name)
                      else
                        bind (deref old) (fun o =>
                        if Assignment_Referenced o then
                          errorf (ErrModifiedAfterReferencing name)
                        else
                          bind (get parser_eval) (fun eval =>
                          bind (try_ (evaluateOperator eval
                                        (Assignment_Value o) value
                                        (chr "+") pos))
                               (fun val =>
                                  assign old (Assignment_setValue o val))))
                  end)
                 (fun _ => ret (length (parser_store p2))) p3) as ->.
  { unfold run, parseAssignment.
    destruct (decide (name = "default" \/ name = "unset")); [contradiction|].
    destruct (decide ("+=" = "+=")); [|congruence].
    step (eq_refl : Position_ p = Ok pos p).
    step Hacc. step Hexpr.
    step (eq_refl : alloc new p2 = Ok (length (parser_store p2)) p3).
    step (eq_refl : get parser_scope p3 = Ok (parser_scope p2) p3).
    rewrite Hscope. reflexivity. }
  destruct (Scope_Get s name) as [[old|] [|]] eqn:HGet; simpl negb; cbv iota.
  - intros o Ho.
    assert (deref old p3 = Ok o p3) as Hderef.
    { unfold deref.
      step (eq_refl : get parser_store p3 = Ok (parser_store p3) p3).
      change (parser_store p3) with (parser_store p2 ++ [new]).
      now rewrite (lookup_app_l_Some _ _ _ _ Ho). }
    destruct (Assignment_Referenced o) eqn:Href.
    + rewrite (bind_panic _ _ p3 errTooManyErrors
                 (error_state (ErrModifiedAfterReferencing name) p3));
        [reflexivity|].
      step Hderef. rewrite Href. apply parser_error_eq.
    + destruct (evaluateOperator (parser_eval p2) (Assignment_Value o)
                                 value (chr "+") pos) as [val|e|m|] eqn:Hev.
      * assert (forall p4,
                   p4 = set_store p3 (<[old := Assignment_setValue o val]>
                                        (parser_store p3)) ->
                   bind (deref old) (fun o =>
                        if Assignment_Referenced o then
                          errorf (ErrModifiedAfterReferencing name)
                        else
                          bind (get parser_eval) (fun eval =>
                          bind (try_ (evaluateOperator eval
                                        (Assignment_Value o) value
                                        (chr "+") pos))
                               (fun val =>
                                  assign old (Assignment_setValue o val))))
                        p3 = Ok tt p4) as Hrun.
        { intros p4 ->. step Hderef. rewrite Href.
          step (eq_refl : get parser_eval p3 = Ok (parser_eval p2) p3).
          rewrite Hev.
          step (eq_refl : try_ (Return val) p3 = Ok val p3).
          reflexivity. }
        cbv zeta. split; [|repeat split].
        -- step (Hrun _ eq_refl). reflexivity.
        -- pose proof (lookup_lt_Some _ _ _ Ho) as Hlt.
           change (parser_store p3) with (parser_store p2 ++ [new]).
           simpl parser_store.
           rewrite list_lookup_insert_eq
             by (rewrite length_app; simpl; lia).
           unfold Assignment_setValue. now rewrite Href.
        -- pose proof (lookup_lt_Some _ _ _ Ho) as Hlt.
           change (parser_store p3) with (parser_store p2 ++ [new]).
           simpl parser_store.
           rewrite list_lookup_insert_ne by lia.
           rewrite lookup_app_r by lia.
           now rewrite Nat.sub_diag.
        -- exact Hscope.
      * apply bind_panic. step Hderef. rewrite Href.
        step (eq_refl : get parser_eval p3 = Ok (parser_eval p2) p3).
        rewrite Hev. apply bind_panic. apply parser_error_eq.
      * apply bind_panic. step Hderef. rewrite Href.
        step (eq_refl : get parser_eval p3 = Ok (parser_eval p2) p3).
        rewrite Hev. now apply bind_panic.
      * exact (evaluateOperator_fuel_enough _ _ _ _ _ Hev).
  - apply bind_panic. apply parser_error_eq.
  - apply bind_panic. apply parser_error_eq.
  - apply bind_panic. apply parser_error_eq.
Qed.
End AssignmentFacts.

Lemma parseAssignment_append_witness :
  let run := parseAssignment unquote_plain parse_decimal 10 "x"
                             (mkPosition "" 0 2 1) "+=" in
  let list_b := EList (mkPosition "" 0 2 6) (mkPosition "" 0 2 10)
                      [EString (mkPosition "" 0 2 7) "b"] in
  let list_a_b := EList zeroPos zeroPos
                        [EString zeroPos "a";
                         EString (mkPosition "" 0 2 7) "b"] in
  run append_b = Ok 1%nat (state_after run append_b) /\
  parser_store (state_after run append_b) !! 0%nat
  = Some (mkAssignment "x" zeroPos
            (EOperator list_a list_b (chr "+") (mkPosition "" 0 2 4) list_a_b)
            list_a zeroPos "=" false).
Proof.
  intros run list_b list_a_b.
  pose (parsed := (accept (chr "=") ;;
                   parseExpression unquote_plain parse_decimal 10)%parser).
  assert (parsed append_b = Ok list_b (state_after parsed append_b)) as Run
      by (vm_compute; reflexivity).
  assert (parser_scope (state_after parsed append_b) = Some x_scope) as Hscope
      by (vm_compute; reflexivity).
  pose proof (parseAssignment_append unquote_plain parse_decimal 10 "x"
                (mkPosition "" 0 2 1) append_b list_b
                (state_after parsed append_b) x_scope
                ltac:(intros [?|?]; discriminate) Run Hscope) as H.
  cbv zeta in H.
  assert (Scope_Get x_scope "x" = (Some 0%nat, true)) as HGet by reflexivity.
  rewrite HGet in H.
  specialize (H (mkAssignment "x" zeroPos list_a list_a zeroPos "=" false)
                ltac:(vm_compute; reflexivity)).
  cbv iota beta delta [Assignment_Referenced] in H.
  assert (evaluateOperator (parser_eval (state_after parsed append_b))
            (Assignment_Value
               (mkAssignment "x" zeroPos list_a list_a zeroPos "=" false))
            list_b (chr "+")
            (Scanner_Position (parser_scanner append_b))
          = Return (EOperator list_a list_b (chr "+") (mkPosition "" 0 2 4)
                              list_a_b)) as Hev
      by (vm_compute; reflexivity).
  rewrite Hev in H. destruct H as (H1 & H2 & _).
  unfold run. split.
  - rewrite H1. vm_compute. reflexivity.
  - etransitivity; [|exact H2]. vm_compute. reflexivity.
Defined.
(** ** Invariants of the parser state *)

(** A run of [p.parseVariable] that returns: without evaluation the
    variable holds the placeholder and nothing else changed; with
    evaluation it holds the value of the assignment the scope gives for
    the name, and the store is as before or has that assignment marked as
    referenced. *)
Lemma parseVariable_Ok p v p' :
  parseVariable p = Ok v p' ->
  parser_eval p' = parser_eval p /\
  parser_scope p' = parser_scope p /\
  parser_errors p' = parser_errors p /\
  exists name pos value,
    v = EVariable name pos value /\
    (parser_eval p = false /\ value = ENotEvaluated zeroPos /\
     parser_store p' = parser_store p
     \/ parser_eval p = true /\
        exists s a local o,
          parser_scope p = Some s /\
          Scope_Get s name = (Some a, local) /\
          parser_store p !! a = Some o /\
          value = Assignment_Value o /\
          (parser_store p' = parser_store p \/
           parser_store p'
           = <[a := Assignment_setReferenced o true]> (parser_store p))).
Proof.
  intros H. unfold parseVariable in H. unfold_monad_in H.
  destruct (parser_eval p) eqn:Heval.
  - destruct (parser_scope p) as [s|] eqn:Hs; [|discriminate].
    destruct (Scope_Get s (Scanner_TokenText (parser_scanner p)))
      as [[a|] local] eqn:HGet.
    + unfold deref in H. unfold_monad_in H.
      destruct (parser_store p !! a) as [o|] eqn:Ho; [|discriminate].
      destruct local.
      * unfold assign in H. unfold_monad_in H.
        destruct (accept scanner.Ident _) as [[] p1| |] eqn:Hacc;
          try discriminate.
        injection H as <- <-.
        apply accept_Ok in Hacc as (_ & He & Hsc & Hst & Her).
        simpl in He, Hsc, Hst, Her.
        repeat apply conj; try congruence.
        eexists _, _, _. split; [reflexivity|]. right.
        split; [reflexivity|]. exists s, a, true, o. auto 10.
      * destruct (accept scanner.Ident p) as [[] p1| |] eqn:Hacc;
          try discriminate.
        injection H as <- <-.
        apply accept_Ok in Hacc as (_ & He & Hsc & Hst & Her).
        repeat apply conj; try congruence.
        eexists _, _, _. split; [reflexivity|]. right.
        split; [reflexivity|]. exists s, a, false, o. auto 10.
    + unfold errorf in H. rewrite parser_error_eq in H. discriminate.
  - destruct (accept scanner.Ident p) as [[] p1| |] eqn:Hacc; try discriminate.
    injection H as <- <-.
    apply accept_Ok in Hacc as (_ & He & Hsc & Hst & Her).
    repeat apply conj; try congruence.
    eexists _, _, _. split; [reflexivity|]. left. auto.
Qed.

Lemma evaluateOperator_is_set eval value1 value2 operator pos v :
  evaluateOperator eval value1 value2 operator pos = Return v ->
  is_set_value value1 -> is_set_value v.
Proof.
  rewrite evaluateOperator_unfold. unfold evaluateOperator_step, is_set_value.
  intros H H1.
  destruct (decide (ExprType value1 = UnsetType)); [contradiction|].
  destruct (decide (ExprType value2 = UnsetType)); [now injection H as <-|].
  destruct eval; [|now injection H as <-].
  destruct (decide (ExprType (Eval value1) = ExprType (Eval value2)));
    [|discriminate].
  destruct (decide (operator = chr "+")); [|discriminate].
  repeat match type of H with
         | match ?x with _ => _ end = _ => destruct x; try discriminate
         end;
    now injection H as <-.
Qed.

(** ** The checks at the end of [parseSelect] *)

Lemma patternListsEqual_same a b :
  Forall2 samePattern a b -> patternListsEqual a b = true.
Proof.
  intros H. unfold patternListsEqual.
  rewrite decide_True by (eapply Forall2_length; eassumption).
  induction H as [|x y a b Hxy _ IH]; [reflexivity|]. simpl.
  rewrite IH, andb_true_r.
  destruct x, y; simpl in *; try contradiction; now apply bool_decide_eq_true.
Qed.

Lemma checkCases_None i n cases :
  checkCases i n cases = None ->
  (forall a b ca cb,
      (a < b)%nat -> cases !! a = Some ca -> cases !! b = Some cb ->
      patternListsEqual (SelectCase_Patterns ca) (SelectCase_Patterns cb)
      = false) /\
  (forall a ca,
      cases !! a = Some ca -> (i + a < n - 1)%nat ->
      isAllDefault (SelectCase_Patterns ca) = false).
Proof.
  revert i. induction cases as [|c rest IH]; intros i H.
  - split; intros; rewrite lookup_nil in *; discriminate.
  - simpl in H.
    destruct (existsb _ rest) eqn:Hdup; [discriminate|].
    destruct ((i <? n - 1)%nat && isAllDefault (SelectCase_Patterns c))
      eqn:Hdef; [discriminate|].
    apply IH in H as (IH1 & IH2). split.
    + intros [|a] [|b] ca cb Hab Ha Hb; try lia; simpl in Ha, Hb.
      * injection Ha as <-.
        destruct (patternListsEqual _ _) eqn:E; [|reflexivity].
        assert (existsb (fun d => patternListsEqual (SelectCase_Patterns c)
                                    (SelectCase_Patterns d)) rest = true)
          as Hex; [|congruence].
        apply existsb_exists. exists cb. split; [|exact E].
        apply list_elem_of_In, list_elem_of_lookup. eauto.
      * apply (IH1 a b); [lia|assumption..].
    + intros [|a] ca Ha Hlt; simpl in Ha.
      * injection Ha as <-. apply andb_false_iff in Hdef as [Hdef|Hdef];
          [|exact Hdef].
        apply Nat.ltb_ge in Hdef. lia.
      * apply (IH2 a ca Ha). lia.
Qed.

Lemma casesType_inl ty0 cases ty :
  casesType ty0 cases = inl ty ->
  (ty0 <> UnsetType -> ty = ty0) /\
  (forall c, c ∈ cases -> ExprType (SelectCase_Value c) <> UnsetType ->
             ExprType (SelectCase_Value c) = ty) /\
  (ty0 = UnsetType -> ty <> UnsetType ->
   exists c, c ∈ cases /\ ExprType (SelectCase_Value c) = ty).
Proof.
  revert ty0. induction cases as [|c rest IH]; intros ty0 H; simpl in H.
  - injection H as <-. repeat split.
    + intros c Hc. now apply not_elem_of_nil in Hc.
    + congruence.
  - destruct (decide (_ /\ _)) as [|Hok]; [discriminate|].
    apply IH in H as (H1 & H2 & H3).
    destruct (decide (ty0 = UnsetType)) as [->|Hty0].
    + repeat split.
      * congruence.
      * intros c' Hc' Hset. apply elem_of_cons in Hc' as [->|Hc'];
          [symmetry; now apply H1|now apply H2].
      * intros _ Hty.
        destruct (decide (ExprType (SelectCase_Value c) = UnsetType)) as [E|N].
        -- destruct (H3 E Hty) as (c' & Hc' & Ec'). exists c'. split;
             [now apply list_elem_of_further|exact Ec'].
        -- exists c. split; [apply list_elem_of_here|]. symmetry. now apply H1.
    + repeat split.
      * intros _. now apply H1.
      * intros c' Hc' Hset. apply elem_of_cons in Hc' as [->|Hc'];
          [|now apply H2].
        rewrite (H1 Hty0).
        destruct (decide (ExprType (SelectCase_Value c) = ty0));
          [assumption|]. exfalso. apply Hok. now split.
      * congruence.
Qed.

Lemma ExprType_Select_no_append k cs l r cases ty :
  ExprType (ESelect k cs l r cases None ty) = ty.
Proof. simpl. now destruct ty. Qed.

(** ** What every returning run of the parser keeps *)

Create HintDb keeps.

Section Keeps.
Variable Unquote : string -> option string.
Variable ParseInt : string -> option Z.

(** An invariant [I] of the state that the scanner does not disturb, and
    a property [Qe] of expressions that the literals have, that
    [parseVariable] establishes together with [I], and that operators and
    selects inherit from their left operand and from one of their
    cases. *)
Variable I : parser -> Prop.
Variable Qe : Expression -> Prop.
Hypothesis I_same_memory : forall p p', same_memory p p' -> I p -> I p'.
Hypothesis Qe_Bool : forall pos v t, Qe (EBool pos v t).
Hypothesis Qe_String : forall pos v, Qe (EString pos v).
Hypothesis Qe_Int64 : forall pos v t, Qe (EInt64 pos v t).
Hypothesis Qe_List : forall l r vs, Qe (EList l r vs).
Hypothesis Qe_Map : forall l r ps, Qe (EMap l r ps).
Hypothesis Qe_Variable : keeps I parseVariable Qe.
Hypothesis Qe_Operator : forall eval value1 value2 operator pos v,
  evaluateOperator eval value1 value2 operator pos = Return v ->
  Qe value1 -> Qe v.
Hypothesis Qe_Select : forall k cs l r cases ty,
  some_case Qe cases -> casesType UnsetType cases = inl ty ->
  Qe (ESelect k cs l r cases None ty).

Lemma keeps_ret {A} (a : A) (Q : A -> Prop) : Q a -> keeps I (ret a) Q.
Proof. intros HQ p b p' Hp [= <- <-]. auto. Qed.

Lemma keeps_bind {A B} (m : M A) (k : A -> M B) (Q : A -> Prop)
    (R : B -> Prop) :
  keeps I m Q -> (forall a, Q a -> keeps I (k a) R) -> keeps I (bind m k) R.
Proof.
  intros Hm Hk p b p'' Hp H. apply bind_Ok in H as (a & p' & H1 & H2).
  destruct (Hm p a p' Hp H1) as (Hp' & HQ). exact (Hk a HQ p' b p'' Hp' H2).
Qed.

Lemma keeps_get {A} (f : parser -> A) : keeps I (get f) (fun _ => True).
Proof. intros p a p' Hp [= <- <-]. auto. Qed.

Lemma keeps_errorf {A} (e : error) (Q : A -> Prop) : keeps I (errorf e) Q.
Proof. intros p a p' _ H. now apply errorf_Ok in H. Qed.

Lemma keeps_parser_error {A} (e : error) (Q : A -> Prop) :
  keeps I (parser_error e) Q.
Proof. intros p a p' _ H. now apply parser_error_Ok in H. Qed.

Lemma keeps_panic {A} v (Q : A -> Prop) : keeps I (panic v) Q.
Proof. intros p a p' _ H. discriminate. Qed.

Lemma keeps_exhausted {A} (Q : A -> Prop) : keeps I exhausted Q.
Proof. intros p a p' _ H. discriminate. Qed.

Lemma keeps_try {A} (o : outcome A) (Q : A -> Prop) :
  (forall a, o = Return a -> Q a) -> keeps I (try_ o) Q.
Proof.
  intros HQ p a p' Hp H. apply try__Ok in H as (-> & ->). auto.
Qed.

Lemma keeps_tok : keeps I tok (fun _ => True).
Proof. apply keeps_get. Qed.
Lemma keeps_Position : keeps I Position_ (fun _ => True).
Proof. apply keeps_get. Qed.
Lemma keeps_TokenText : keeps I TokenText (fun _ => True).
Proof. apply keeps_get. Qed.

Lemma keeps_next : keeps I next (fun _ => True).
Proof.
  intros p [] p' Hp H. split; [|exact Logic.I].
  exact (I_same_memory _ _ (next_Ok _ _ H) Hp).
Qed.

Lemma keeps_accept want : keeps I (accept want) (fun _ => True).
Proof.
  intros p [] p' Hp H. split; [|exact Logic.I].
  apply accept_Ok in H as (_ & H). exact (I_same_memory _ _ H Hp).
Qed.

Hint Resolve keeps_tok keeps_Position keeps_TokenText keeps_next
  keeps_accept keeps_get Qe_Variable : keeps.

(** Walk through a sequence: split at each bind, settle the first call with
    a known fact, case on the conditions met. *)
Ltac keeps_step :=
  lazymatch goal with
  | |- keeps _ (ret _) _ => apply keeps_ret
  | |- keeps _ (errorf _) _ => apply keeps_errorf
  | |- keeps _ (parser_error _) _ => apply keeps_parser_error
  | |- keeps _ (panic _) _ => apply keeps_panic
  | |- keeps _ exhausted _ => apply keeps_exhausted
  | |- keeps _ (bind _ _) _ =>
      first [ eapply keeps_bind; [solve [eauto with keeps]|intros ? ?]
            | eapply (keeps_bind _ _ (fun _ => True)); [|intros ? _] ]
  | |- keeps _ (if ?c then _ else _) _ => destruct c eqn:?
  | |- keeps _ (match ?x with _ => _ end) _ => destruct x eqn:?
  | |- keeps _ _ _ => solve [eauto with keeps]
  end.

Ltac keeps_done :=
  try exact Logic.I; try assumption;
  try solve [ apply Qe_Bool | apply Qe_String | apply Qe_Int64
            | apply Qe_List | apply Qe_Map ].

Ltac keeps_walk := repeat keeps_step; keeps_done.

Lemma keeps_parseStringValue :
  keeps I (parseStringValue Unquote) (fun _ => True).
Proof. unfold parseStringValue. keeps_walk. Qed.
Hint Resolve keeps_parseStringValue : keeps.

Lemma keeps_parseIntValue : keeps I (parseIntValue ParseInt) Qe.
Proof. unfold parseIntValue. keeps_walk. Qed.

Lemma keeps_parseBoolean : keeps I parseBoolean Qe.
Proof. unfold parseBoolean. keeps_walk. Qed.

Lemma keeps_parseOnePattern :
  keeps I (parseOnePattern Unquote) (fun _ => True).
Proof. unfold parseOnePattern. keeps_walk. Qed.
Hint Resolve keeps_parseOnePattern : keeps.

Lemma keeps_parseConditionArgs fuel :
  forall args, keeps I (parseConditionArgs Unquote fuel args) (fun _ => True).
Proof.
  induction fuel as [|fuel IH]; intros args; simpl; keeps_walk.
Qed.
Hint Resolve keeps_parseConditionArgs : keeps.

Lemma keeps_parseConditions fuel :
  forall multi conditions,
    keeps I (parseConditions Unquote fuel multi conditions) (fun _ => True).
Proof.
  induction fuel as [|fuel IH]; intros multi conditions; simpl; keeps_walk.
Qed.
Hint Resolve keeps_parseConditions : keeps.

Lemma keeps_parsePatterns fuel :
  forall n i patterns,
    keeps I (parsePatterns Unquote fuel n i patterns) (fun _ => True).
Proof.
  induction fuel as [|fuel IH]; intros n i patterns; simpl; keeps_walk.
Qed.
Hint Resolve keeps_parsePatterns keeps_parseIntValue keeps_parseBoolean
  : keeps.

(** Every function of the mutual recursion keeps [I], and the expressions
    they return are in [Qe]. *)
Lemma parser_keeps fuel :
  keeps I (parseExpression Unquote ParseInt fuel) Qe /\
  (forall value1, Qe value1 ->
     keeps I (parseOperator Unquote ParseInt fuel value1) Qe) /\
  keeps I (parseValue Unquote ParseInt fuel) Qe /\
  keeps I (parseSelect Unquote ParseInt fuel) Qe /\
  (forall multi n cases has,
      (has = true -> some_case Qe cases) ->
      keeps I (parseCases Unquote ParseInt fuel multi n cases has)
            (fun r => snd r = true -> some_case Qe (fst r))) /\
  keeps I (parseListValue Unquote ParseInt fuel) Qe /\
  (forall elements,
      keeps I (parseListElements Unquote ParseInt fuel elements)
            (fun _ => True)) /\
  keeps I (parseMapValue Unquote ParseInt fuel) Qe /\
  (forall isModule compat properties,
      keeps I (parsePropertyList Unquote ParseInt fuel isModule compat
                                 properties) (fun _ => True)) /\
  (forall isModule compat,
      keeps I (parseProperty Unquote ParseInt fuel isModule compat)
            (fun _ => True)).
Proof.
  induction fuel as [|fuel IH].
  { repeat apply conj; intros; apply keeps_exhausted. }
  destruct IH as (IHe & IHo & IHv & IHs & IHc & IHl & IHle & IHm & IHpl & IHp).
  repeat apply conj.
  - (* parseExpression *)
    simpl. keeps_walk.
  - (* parseOperator *)
    intros value1 Hset. simpl.
    eapply keeps_bind; [apply keeps_tok|intros operator _].
    eapply keeps_bind; [apply keeps_Position|intros pos _].
    eapply keeps_bind; [apply keeps_accept|intros _ _].
    eapply keeps_bind; [apply IHe|intros value2 _].
    eapply keeps_bind; [apply keeps_get|intros eval _].
    apply keeps_try. intros v Hv.
    exact (Qe_Operator _ _ _ _ _ _ Hv Hset).
  - (* parseValue *)
    simpl. keeps_walk.
  - (* parseSelect *)
    simpl.
    eapply keeps_bind; [apply keeps_Position|intros keywordPos _].
    eapply keeps_bind; [apply keeps_accept|intros _ _].
    eapply keeps_bind; [apply keeps_accept|intros _ _].
    eapply keeps_bind; [apply keeps_tok|intros t _].
    eapply (keeps_bind _ _ (fun _ => True)); [keeps_walk|intros multi _].
    eapply keeps_bind; [apply keeps_parseConditions|intros conditions _].
    destruct (multi && (length conditions <? 2)%nat);
      [apply keeps_errorf|].
    eapply keeps_bind; [apply keeps_accept|intros _ _].
    eapply keeps_bind; [apply keeps_Position|intros lBracePos _].
    eapply keeps_bind; [apply keeps_accept|intros _ _].
    eapply keeps_bind; [apply IHc; discriminate|intros [cases has] Hr].
    simpl fst. simpl snd. simpl in Hr.
    destruct has; [|apply keeps_errorf]. simpl negb. cbv iota.
    destruct (checkCases 0 (length cases) cases); [apply keeps_errorf|].
    destruct (casesType UnsetType cases) as [ty|e] eqn:Hty;
      [|apply keeps_errorf].
    keeps_walk. exact (Qe_Select _ _ _ _ _ _ (Hr eq_refl) Hty).
  - (* parseCases *)
    intros multi n cases has Hinv. simpl.
    eapply keeps_bind; [apply keeps_tok|intros t _].
    destruct (decide (t = chr "}")); [now apply keeps_ret|].
    eapply (keeps_bind _ _ (fun _ => True)); [keeps_walk|intros patterns _].
    eapply keeps_bind; [apply keeps_Position|intros colonPos _].
    eapply keeps_bind; [apply keeps_accept|intros _ _].
    eapply keeps_bind; [apply keeps_tok|intros t' _].
    eapply keeps_bind; [apply keeps_TokenText|intros text _].
    eapply (keeps_bind _ _
              (fun r => snd r = true -> has = true \/ Qe (fst r))).
    { destruct (decide _).
      - eapply keeps_bind; [apply keeps_Position|intros pos _].
        eapply keeps_bind; [apply keeps_accept|intros _ _].
        apply keeps_ret. simpl. auto.
      - eapply keeps_bind; [apply IHe|intros value Hv].
        apply keeps_ret. simpl. auto. }
    intros r Hr.
    eapply keeps_bind; [apply keeps_accept|intros _ _].
    apply IHc. intros Hs. destruct (Hr Hs) as [Hhas|Hset].
    + destruct (Hinv Hhas) as (c & Hc & Hcset). exists c.
      split; [apply elem_of_app; now left|exact Hcset].
    + exists (mkSelectCase patterns colonPos (fst r)).
      split; [|exact Hset].
      apply elem_of_app. right. now apply list_elem_of_singleton.
  - (* parseListValue *)
    simpl. keeps_walk.
  - (* parseListElements *)
    intros elements. simpl. keeps_walk.
  - (* parseMapValue *)
    simpl. keeps_walk.
  - (* parsePropertyList *)
    intros isModule compat properties. simpl. keeps_walk.
  - (* parseProperty *)
    intros isModule compat. simpl. keeps_walk.
Qed.
End Keeps.

(** ** The parser hands on values of set [Type] *)

Lemma same_memory_variables_set p p' :
  same_memory p p' -> variables_set p -> variables_set p'.
Proof.
  intros (He & Hs & Hst & _) H. unfold variables_set.
  rewrite He, Hs, Hst. exact H.
Qed.

Lemma variables_set_parseVariable : keeps variables_set parseVariable is_set_value.
Proof.
  intros p v p' Hp H.
  apply parseVariable_Ok in H
    as (He & Hs & _ & name & pos & value & -> & [(Hev & -> & Hst)|(Hev & Hget)]).
  - split; [|discriminate]. intros Ht. congruence.
  - destruct Hget as (s & a & local & o & Hsc & HGet & Ho & -> & Hst).
    pose proof (Hp Hev s name a local o Hsc HGet Ho) as Hset.
    split; [|exact Hset].
    intros _ s' name' b local' o' Hs' HGet' Ho'.
    rewrite Hs, Hsc in Hs'. injection Hs' as <-.
    destruct Hst as [Hst|Hst]; rewrite Hst in Ho'.
    + exact (Hp Hev s name' b local' o' Hsc HGet' Ho').
    + destruct (decide (a = b)) as [<-|Hne].
      * rewrite list_lookup_insert_eq in Ho'
          by (eapply lookup_lt_Some; eassumption).
        injection Ho' as <-. exact Hset.
      * rewrite list_lookup_insert_ne in Ho' by assumption.
        exact (Hp Hev s name' b local' o' Hsc HGet' Ho').
Qed.

Lemma variables_set_Select k cs l r cases ty :
  some_case is_set_value cases -> casesType UnsetType cases = inl ty ->
  is_set_value (ESelect k cs l r cases None ty).
Proof.
  intros (c & Hc & Hcset) Hty. unfold is_set_value.
  rewrite ExprType_Select_no_append.
  apply casesType_inl in Hty as (_ & Hall & _).
  rewrite <- (Hall c Hc Hcset). exact Hcset.
Qed.

(** From a state where the variables are set, every expression the parser
    returns has a set [Type], and no step unsets a variable. *)
Lemma parseSelect_set Unquote ParseInt fuel :
  keeps variables_set (parseSelect Unquote ParseInt fuel) is_set_value.
Proof.
  refine (proj1 (proj2 (proj2 (proj2
    (parser_keeps Unquote ParseInt variables_set is_set_value
       same_memory_variables_set _ _ _ _ _ variables_set_parseVariable
       evaluateOperator_is_set variables_set_Select fuel)))));
    intros; discriminate.
Qed.

(** A run of the parser that returns leaves the list of errors as it
    was. *)
Lemma parseExpression_errors Unquote ParseInt fuel errs :
  keeps (fun p => parser_errors p = errs)
        (parseExpression Unquote ParseInt fuel) (fun _ => True).
Proof.
  refine (proj1
    (parser_keeps Unquote ParseInt (fun p => parser_errors p = errs)
       (fun _ => True) _ _ _ _ _ _ _ _ _ fuel)); try (intros; exact I).
  - intros p p' (_ & _ & _ & He) Hp. congruence.
  - intros p v p' Hp H. split; [|exact I].
    apply parseVariable_Ok in H as (_ & _ & He & _). congruence.
Qed.

(** ** The invariants of a parsed select *)

Section SelectInvariants.
Variable Unquote : string -> option string.
Variable ParseInt : string -> option Z.

Lemma parseOnePattern_Ok p v p' :
  parseOnePattern Unquote p = Ok v p' -> isPattern v.
Proof.
  unfold parseOnePattern. intros H. unfold_monad_in H.
  repeat match type of H with
         | (if ?c then _ else _) _ = _ => destruct c
         end;
    try (now apply errorf_Ok in H);
    try (run H; injection H as <- _; exact I).
  run1 H. destruct (String.prefix _ _); [now apply errorf_Ok in H|].
  injection H as <- _. exact I.
Qed.

Lemma parsePatterns_Ok fuel :
  forall n i patterns p r p',
    Forall isPattern patterns ->
    parsePatterns Unquote fuel n i patterns p = Ok r p' ->
    Forall isPattern r.
Proof.
  induction fuel as [|fuel IH]; intros n i patterns p r p' Hall H;
    [discriminate|].
  simpl in H. destruct (i <? n)%nat; [|now injection H as <- _].
  run1 H. apply parseOnePattern_Ok in Run.
  assert (Forall isPattern (patterns ++ [a])) as Hall'
      by (apply Forall_app; auto).
  destruct (i <? n - 1)%nat.
  - run1 H. exact (IH _ _ _ _ _ _ Hall' H).
  - unfold_monad_in H. destruct (decide _).
    + run1 H. exact (IH _ _ _ _ _ _ Hall' H).
    + exact (IH _ _ _ _ _ _ Hall' H).
Qed.

Lemma parseCases_Ok fuel :
  forall multi n cases has p r p',
    patterns_built cases ->
    parseCases Unquote ParseInt fuel multi n cases has p = Ok r p' ->
    patterns_built (fst r).
Proof.
  induction fuel as [|fuel IH]; intros multi n cases has p r p' Hall H;
    [discriminate|].
  simpl in H. unfold_monad_in H.
  destruct (decide (parser_tok p = chr "}")); [now injection H as <- _|].
  assert (forall patterns colonPos value,
             Forall isPattern patterns ->
             patterns_built (cases ++ [mkSelectCase patterns colonPos value]))
    as Hext.
  { intros. apply Forall_app. split; [exact Hall|]. now repeat constructor. }
  destruct multi.
  - run1 H. run1 H. run1 H.
    apply (parsePatterns_Ok _ _ _ _ _ _ _ (Forall_nil_2 _)) in Run0.
    run1 H.
    destruct (decide _).
    + run1 H. run1 H. exact (IH _ _ _ _ _ _ _ (Hext _ _ _ Run0) H).
    + run1 H. run1 H. exact (IH _ _ _ _ _ _ _ (Hext _ _ _ Run0) H).
  - run1 H. apply parseOnePattern_Ok in Run.
    assert (Forall isPattern [a]) as Ha by now repeat constructor.
    run1 H.
    destruct (decide _).
    + run1 H. run1 H. exact (IH _ _ _ _ _ _ _ (Hext _ _ _ Ha) H).
    + run1 H. run1 H. exact (IH _ _ _ _ _ _ _ (Hext _ _ _ Ha) H).
Qed.

Lemma parseSelect_Ok fuel p v p' :
  parseSelect Unquote ParseInt fuel p = Ok v p' ->
  exists k cs l r cases ty,
    v = ESelect k cs l r cases None ty /\
    patterns_built cases /\
    checkCases 0 (length cases) cases = None /\
    casesType UnsetType cases = inl ty.
Proof.
  destruct fuel as [|fuel]; [discriminate|]. simpl. intros H.
  run1 H. run1 H.
  destruct (decide (parser_tok p1 = chr "(")).
  - run1 H. run1 H.
    destruct (true && (length a <? 2)%nat); [now apply errorf_Ok in H|].
    run1 H. run1 H. run1 H.
    apply (parseCases_Ok _ _ _ _ _ _ _ _ (Forall_nil_2 _)) in Run5.
    destruct a0 as [cases has]. simpl in H, Run5.
    destruct has; simpl in H; [|now apply errorf_Ok in H].
    destruct (checkCases 0 (length cases) cases) eqn:Hcheck;
      [now apply errorf_Ok in H|].
    destruct (casesType UnsetType cases) as [ty|] eqn:Hty;
      [|now apply errorf_Ok in H].
    run1 H. run1 H. injection H as <- <-. eauto 10.
  - run1 H.
    destruct (false && (length a <? 2)%nat); [now apply errorf_Ok in H|].
    run1 H. run1 H. run1 H.
    apply (parseCases_Ok _ _ _ _ _ _ _ _ (Forall_nil_2 _)) in Run4.
    destruct a0 as [cases has]. simpl in H, Run4.
    destruct has; simpl in H; [|now apply errorf_Ok in H].
    destruct (checkCases 0 (length cases) cases) eqn:Hcheck;
      [now apply errorf_Ok in H|].
    destruct (casesType UnsetType cases) as [ty|] eqn:Hty;
      [|now apply errorf_Ok in H].
    run1 H. run1 H. injection H as <- <-. eauto 10.
Qed.

(** C4 (as amended): a select that [parseSelect] returns has string and
    boolean literals for patterns; no two of its cases have pattern lists
    that [patternListsEqual] finds equal, so no two have the same literals
    in the same order; no case with only default patterns comes before the
    last case; and [ExpressionType] is the [Type] of every case value that
    is not of unset [Type].  When the parser does not evaluate, or no
    variable of its scope is bound to a value of unset [Type], one of the
    cases has a value that is not of unset [Type]. *)
Theorem parseSelect_invariants fuel p v p' :
  parseSelect Unquote ParseInt fuel p = Ok v p' ->
  exists k cs l r cases ty,
    v = ESelect k cs l r cases None ty /\
    patterns_built cases /\
    (forall i j ci cj,
        (i < j)%nat -> cases !! i = Some ci -> cases !! j = Some cj ->
        patternListsEqual (SelectCase_Patterns ci) (SelectCase_Patterns cj)
        = false /\
        ~ Forall2 samePattern (SelectCase_Patterns ci)
                              (SelectCase_Patterns cj)) /\
    (forall i ci,
        cases !! i = Some ci ->
        isAllDefault (SelectCase_Patterns ci) = true ->
        S i = length cases) /\
    (forall c,
        c ∈ cases -> ExprType (SelectCase_Value c) <> UnsetType ->
        ExprType (SelectCase_Value c) = ty) /\
    (variables_set p ->
     exists c, c ∈ cases /\ ExprType (SelectCase_Value c) <> UnsetType).
Proof.
  intros H.
  destruct (parseSelect_Ok fuel p v p' H)
    as (k & cs & l & r & cases & ty & -> & Hpat & Hcheck & Hty).
  exists k, cs, l, r, cases, ty. split; [reflexivity|].
  apply checkCases_None in Hcheck as (Hdup & Hdef).
  pose proof (casesType_inl _ _ _ Hty) as (_ & Hall & Hsome).
  repeat apply conj.
  - exact Hpat.
  - intros i j ci cj Hij Hi Hj.
    pose proof (Hdup i j ci cj Hij Hi Hj) as Hne. split; [exact Hne|].
    intros Hsame. apply patternListsEqual_same in Hsame. congruence.
  - intros i ci Hi Hd. pose proof (lookup_lt_Some _ _ _ Hi) as Hlt.
    destruct (decide (i < length cases - 1)%nat) as [Hlt'|]; [|lia].
    rewrite (Hdef i ci Hi) in Hd by (simpl; exact Hlt'). discriminate.
  - exact Hall.
  - intros Hp.
    destruct (parseSelect_set Unquote ParseInt fuel p _ p' Hp H)
      as (_ & Hset).
    unfold is_set_value in Hset. rewrite ExprType_Select_no_append in Hset.
    destruct (Hsome eq_refl Hset) as (c & Hc & Ec).
    exists c. split; [exact Hc|]. now rewrite Ec.
Qed.
End SelectInvariants.

Lemma variables_set_no_eval p : parser_eval p = false -> variables_set p.
Proof. intros He Ht. congruence. Qed.

Lemma parseSelect_invariants_witness :
  exists v p' k cs l r cases,
    parseSelect unquote_plain parse_decimal 20 select_two_axes = Ok v p' /\
    v = ESelect k cs l r cases None StringType /\
    length cases = 3%nat /\
    (forall i ci,
        cases !! i = Some ci ->
        isAllDefault (SelectCase_Patterns ci) = true -> S i = length cases) /\
    exists c, c ∈ cases /\ ExprType (SelectCase_Value c) <> UnsetType.
Proof.
  destruct (parseSelect unquote_plain parse_decimal 20 select_two_axes)
    as [v p'| |] eqn:Run; [|vm_compute in Run; discriminate Run ..].
  destruct (parseSelect_invariants unquote_plain parse_decimal 20
              select_two_axes v p' Run)
    as (k & cs & l & r & cases & ty & Hv & _ & _ & Hdef & _ & Hset).
  exists v, p', k, cs, l, r, cases.
  assert (ty = StringType /\ length cases = 3%nat) as (-> & Hlen).
  { vm_compute in Run. injection Run as <- _. injection Hv as _ _ _ _ <- <-.
    split; reflexivity. }
  repeat apply conj; try assumption; try reflexivity.
  apply Hset. now apply variables_set_no_eval.
Defined.

(** C4 as the specification words it fails: under a scope that binds [x]
    to the value of [unset], the evaluating parser returns the select over
    the one case ["b": x] without error, and the value of its only case is
    of unset [Type]. *)
Lemma parseSelect_every_case_unset :
  exists k cs l r cases ty p',
    parseSelect unquote_plain parse_decimal 20 select_on_x
    = Ok (ESelect k cs l r cases None ty) p' /\
    parser_errors p' = [] /\
    ~ (exists c, c ∈ cases /\ ExprType (SelectCase_Value c) <> UnsetType).
Proof.
  eexists _, _, _, _, _, _, _. split; [vm_compute; reflexivity|].
  split; [reflexivity|].
  intros (c & Hc & Hset). apply list_elem_of_singleton in Hc as ->.
  now apply Hset.
Qed.

(** ** [ParseExpression] never returns an error *)

(** Whenever [ParseExpression] returns, the error list it returns is
    empty: an input with a parse error never makes it return. *)
Lemma ParseExpression_returns_no_error Unquote ParseInt fuel r value errs p :
  ParseExpression Unquote ParseInt fuel r = Ok (value, errs) p -> errs = [].
Proof.
  unfold ParseExpression. intros H. run H.
  apply next_Ok in Run as (_ & _ & _ & He0).
  destruct (parseExpression_errors Unquote ParseInt fuel [] _ _ _ He0 Run0)
    as (He1 & _).
  apply accept_Ok in Run1 as (_ & _ & _ & _ & He2).
  injection H as _ <- _. congruence.
Qed.

(** ** More on [Eval] and the operator evaluator *)

(** X1: [Eval] ends on a node that is neither an operator nor a variable,
    and evaluating that node again gives the same node. *)
Theorem Eval_evaluated_idempotent x :
  evaluated (Eval x) /\ Eval (Eval x) = Eval x.
Proof.
  induction x using Expression_nested_ind; simpl; auto.
Qed.

Lemma Eval_evaluated x : evaluated (Eval x).
Proof. induction x using Expression_nested_ind; simpl; auto. Qed.

Lemma evaluated_String x :
  evaluated x -> isSelect x = false -> ExprType x = StringType ->
  exists p v, x = EString p v.
Proof. destruct x; simpl; try discriminate; try contradiction; eauto. Qed.

Lemma evaluated_Int64 x :
  evaluated x -> isSelect x = false -> ExprType x = Int64Type ->
  exists p v t, x = EInt64 p v t.
Proof. destruct x; simpl; try discriminate; try contradiction; eauto. Qed.

Lemma evaluated_List x :
  evaluated x -> isSelect x = false -> ExprType x = ListType ->
  exists l r vs, x = EList l r vs.
Proof. destruct x; simpl; try discriminate; try contradiction; eauto. Qed.

Lemma evaluated_Map x :
  evaluated x -> isSelect x = false -> ExprType x = MapType ->
  exists l r ps, x = EMap l r ps.
Proof. destruct x; simpl; try discriminate; try contradiction; eauto. Qed.

Lemma addMaps_loop1_Panicked ev inBoth pos map1 ret m :
  addMaps_loop1 ev inBoth pos map1 ret = Panicked m ->
  exists a b, ev a b (chr "+") pos = Panicked m.
Proof.
  revert ret. induction map1 as [|prop1 rest IH]; intros ret; simpl.
  - discriminate.
  - destruct (inBoth !! Property_Name prop1) as [prop2|]; [|apply IH].
    destruct (ev _ _ _ _) as [v|e|m'|] eqn:E; try discriminate.
    + apply IH.
    + intros [= <-]. eauto.
Qed.

Lemma addMaps_with_Panicked ev map1 map2 pos m :
  addMaps_with ev map1 map2 pos = Panicked m ->
  exists a b, ev a b (chr "+") pos = Panicked m.
Proof.
  unfold addMaps_with.
  destruct (addMaps_loop1 _ _ _ _ _) eqn:E; try discriminate.
  intros [= <-]. eapply addMaps_loop1_Panicked. eassumption.
Qed.

(** The conversions of [e2] to [*String] and the like in
    [evaluateOperator] cannot fail: with ['+'] the only panic comes out of [addMaps]. *)
Lemma evaluateOperator_step_Panicked eval am value1 value2 pos m :
  evaluateOperator_step eval am value1 value2 (chr "+") pos = Panicked m ->
  exists map1 map2, am map1 map2 pos = Panicked m.
Proof.
  unfold evaluateOperator_step.
  destruct (decide (ExprType value1 = UnsetType)); [discriminate|].
  destruct (decide (ExprType value2 = UnsetType)); [discriminate|].
  destruct eval; [|discriminate].
  destruct (decide (ExprType (Eval value1) = ExprType (Eval value2)))
    as [Ety|]; [|discriminate].
  rewrite decide_True by reflexivity.
  pose proof (Eval_evaluated value2) as Hev2.
  destruct (isSelect (Eval value2)) eqn:Hs2.
  - destruct (isSelect (Eval value1)) eqn:Hs1; simpl.
    + rewrite Copy_id. destruct (Eval value1); try discriminate.
    + discriminate.
  - rewrite andb_false_r, Copy_id.
    destruct (Eval value1) eqn:E1; try discriminate; simpl in Ety;
      symmetry in Ety.
    + destruct (evaluated_String _ Hev2 Hs2 Ety) as (? & ? & ->). discriminate.
    + destruct (evaluated_Int64 _ Hev2 Hs2 Ety) as (? & ? & ? & ->).
      discriminate.
    + destruct (evaluated_List _ Hev2 Hs2 Ety) as (? & ? & ? & ->).
      discriminate.
    + destruct (evaluated_Map _ Hev2 Hs2 Ety) as (? & ? & ps2 & ->).
      destruct (am Properties ps2 pos) eqn:Eam; try discriminate.
      intros [= <-]. eauto.
Qed.

Lemma evaluateOperator_fuel_never_panics eval fuel :
  forall value1 value2 pos m,
    evaluateOperator_fuel eval fuel value1 value2 (chr "+") pos
    <> Panicked m.
Proof.
  induction fuel as [|fuel IH]; intros value1 value2 pos m; simpl.
  - discriminate.
  - intros H. apply evaluateOperator_step_Panicked in H as (map1 & map2 & H).
    apply addMaps_with_Panicked in H as (a & b & H). exact (IH _ _ _ _ H).
Qed.

(** X2: with the operator ['+'], the only one the parser passes,
    [evaluateOperator] and [addMaps] never panic: whatever the operands,
    the type conversions they make succeed. *)
Theorem evaluateOperator_never_panics eval value1 value2 map1 map2 pos m :
  evaluateOperator eval value1 value2 (chr "+") pos <> Panicked m /\
  addMaps eval map1 map2 pos <> Panicked m.
Proof.
  split.
  - apply evaluateOperator_fuel_never_panics.
  - intros H. apply addMaps_with_Panicked in H as (a & b & H).
    exact (evaluateOperator_fuel_never_panics _ _ _ _ _ _ H).
Qed.

(** X3: with evaluation on and both operands of set [Type], operands whose
    evaluated types differ make [evaluateOperator] fail with the
    mismatched-type error, and two operands that evaluate to booleans, or
    to not-evaluated placeholders, make ['+'] fail with the not-supported
    error. *)
Theorem evaluateOperator_errors value1 value2 pos :
  ExprType value1 <> UnsetType ->
  ExprType value2 <> UnsetType ->
  (forall operator,
      ExprType (Eval value1) <> ExprType (Eval value2) ->
      evaluateOperator true value1 value2 operator pos
      = Failure (ErrMismatchedType operator (ExprType (Eval value1))
                                   (ExprType (Eval value2)))) /\
  (forall p1 b1 t1 p2 b2 t2,
      Eval value1 = EBool p1 b1 t1 -> Eval value2 = EBool p2 b2 t2 ->
      evaluateOperator true value1 value2 (chr "+") pos
      = Failure (ErrOperatorNotSupported (chr "+") BoolType)) /\
  (forall p1 p2,
      Eval value1 = ENotEvaluated p1 -> Eval value2 = ENotEvaluated p2 ->
      evaluateOperator true value1 value2 (chr "+") pos
      = Failure (ErrOperatorNotSupported (chr "+") NotEvaluatedType)).
Proof.
  intros H1 H2. repeat apply conj.
  - intros operator Hne. rewrite evaluateOperator_unfold.
    unfold evaluateOperator_step.
    rewrite !decide_False by assumption. reflexivity.
  - intros p1 b1 t1 p2 b2 t2 E1 E2. rewrite evaluateOperator_unfold.
    unfold evaluateOperator_step.
    rewrite (decide_False _ _ H1), (decide_False _ _ H2), E1, E2.
    reflexivity.
  - intros p1 p2 E1 E2. rewrite evaluateOperator_unfold.
    unfold evaluateOperator_step.
    rewrite (decide_False _ _ H1), (decide_False _ _ H2), E1, E2.
    reflexivity.
Qed.

Lemma evaluateOperator_errors_witness :
  evaluateOperator true (EString zeroPos "a") (EInt64 zeroPos 1 "1")
                   (chr "+") zeroPos
  = Failure (ErrMismatchedType (chr "+") StringType Int64Type).
Proof.
  refine (proj1 (evaluateOperator_errors (EString zeroPos "a")
                   (EInt64 zeroPos 1 "1") zeroPos _ _) (chr "+") _);
    simpl; discriminate.
Defined.

(** What [evaluateOperator] computes with evaluation on, for operands of
    set [Type] that evaluate to two strings, two integers or two lists. *)
Lemma evaluateOperator_on_literals value1 value2 pos :
  ExprType value1 <> UnsetType ->
  ExprType value2 <> UnsetType ->
  evaluateOperator true value1 value2 (chr "+") pos
  = match Eval value1, Eval value2 with
    | EString p1 s1, EString _ s2 =>
        Return (EOperator value1 value2 (chr "+") pos
                          (EString p1 (s1 ++ s2)%string))
    | EInt64 p1 n1 _, EInt64 _ n2 _ =>
        Return (EOperator value1 value2 (chr "+") pos
                          (EInt64 p1 (int64_add n1 n2) ""))
    | EList l1 r1 vs1, EList _ _ vs2 =>
        Return (EOperator value1 value2 (chr "+") pos
                          (EList l1 r1 (vs1 ++ vs2)))
    | _, _ => evaluateOperator true value1 value2 (chr "+") pos
    end.
Proof.
  intros H1 H2.
  destruct (Eval value1) eqn:E1; try reflexivity;
    destruct (Eval value2) eqn:E2; try reflexivity;
    rewrite evaluateOperator_unfold; unfold evaluateOperator_step;
    rewrite (decide_False _ _ H1), (decide_False _ _ H2), E1, E2;
    try reflexivity.
  simpl.
  change (map Copy Values) with (match Copy (EList LBracePos RBracePos Values)
                                 with EList _ _ vs => vs | _ => [] end).
  now rewrite Copy_id.
Qed.

Lemma string_append_assoc (a b c : string) :
  ((a ++ b) ++ c = a ++ (b ++ c))%string.
Proof.
  induction a as [|x a IH]; [reflexivity|].
  change (String.String x ((a ++ b) ++ c) = String.String x (a ++ (b ++ c)))%string.
  now rewrite IH.
Qed.

Lemma int64_add_assoc a b c :
  int64_add (int64_add a b) c = int64_add a (int64_add b c).
Proof.
  unfold int64_add, wrap64.
  replace ((a + b + 2 ^ 63) mod 2 ^ 64 - 2 ^ 63 + c + 2 ^ 63)
    with ((a + b + 2 ^ 63) mod 2 ^ 64 + c) by lia.
  replace (a + ((b + c + 2 ^ 63) mod 2 ^ 64 - 2 ^ 63) + 2 ^ 63)
    with (a + (b + c + 2 ^ 63) mod 2 ^ 64) by lia.
  rewrite Zplus_mod_idemp_l, Zplus_mod_idemp_r. f_equal. f_equal. lia.
Qed.

(** X4: with evaluation on, ['+'] is associative on what it evaluates to:
    for three operands of set [Type] that evaluate all to strings, all to
    integers or all to lists, adding the third to the sum of the first two
    and adding the first to the sum of the last two both succeed, and the
    two results evaluate to the same node (for integers with the
    wrap-around of [int64]). *)
Theorem evaluateOperator_associative a b c pos :
  ExprType a <> UnsetType -> ExprType b <> UnsetType ->
  ExprType c <> UnsetType ->
  (exists pa sa pb sb pc sc,
      Eval a = EString pa sa /\ Eval b = EString pb sb /\
      Eval c = EString pc sc) \/
  (exists pa na ta pb nb tb pc nc tc,
      Eval a = EInt64 pa na ta /\ Eval b = EInt64 pb nb tb /\
      Eval c = EInt64 pc nc tc) \/
  (exists la ra va lb rb vb lc rc vc,
      Eval a = EList la ra va /\ Eval b = EList lb rb vb /\
      Eval c = EList lc rc vc) ->
  exists ab bc left right,
    evaluateOperator true a b (chr "+") pos = Return ab /\
    evaluateOperator true ab c (chr "+") pos = Return left /\
    evaluateOperator true b c (chr "+") pos = Return bc /\
    evaluateOperator true a bc (chr "+") pos = Return right /\
    Eval left = Eval right.
Proof.
  intros Ha Hb Hc Hkind.
  pose proof (evaluateOperator_on_literals a b pos Ha Hb) as Hab.
  pose proof (evaluateOperator_on_literals b c pos Hb Hc) as Hbc.
  destruct Hkind as [(pa & sa & pb & sb & pc & sc & Ea & Eb & Ec)
                    |[(pa & na & ta & pb & nb & tb & pc & nc & tc & Ea & Eb & Ec)
                     |(la & ra & va & lb & rb & vb & lc & rc & vc & Ea & Eb & Ec)]];
    rewrite Ea, Eb in Hab; rewrite Eb, Ec in Hbc;
    eexists _, _, _, _;
    (split; [exact Hab|]); (split; [|split; [exact Hbc|]]).
  - rewrite evaluateOperator_on_literals by assumption. simpl.
    rewrite ?Ea, ?Eb, ?Ec. reflexivity.
  - split.
    + rewrite evaluateOperator_on_literals by assumption. simpl.
      rewrite ?Ea, ?Eb, ?Ec. reflexivity.
    + simpl. now rewrite string_append_assoc.
  - rewrite evaluateOperator_on_literals by assumption. simpl.
    rewrite ?Ea, ?Eb, ?Ec. reflexivity.
  - split.
    + rewrite evaluateOperator_on_literals by assumption. simpl.
      rewrite ?Ea, ?Eb, ?Ec. reflexivity.
    + simpl. now rewrite int64_add_assoc.
  - rewrite evaluateOperator_on_literals by assumption. simpl.
    rewrite ?Ea, ?Eb, ?Ec. reflexivity.
  - split.
    + rewrite evaluateOperator_on_literals by assumption. simpl.
      rewrite ?Ea, ?Eb, ?Ec. reflexivity.
    + simpl. now rewrite app_assoc.
Qed.

Lemma evaluateOperator_associative_witness :
  exists ab bc left right,
    evaluateOperator true (EString zeroPos "a") (EString zeroPos "b")
                     (chr "+") zeroPos = Return ab /\
    evaluateOperator true ab (EString zeroPos "c") (chr "+") zeroPos
    = Return left /\
    evaluateOperator true (EString zeroPos "b") (EString zeroPos "c")
                     (chr "+") zeroPos = Return bc /\
    evaluateOperator true (EString zeroPos "a") bc (chr "+") zeroPos
    = Return right /\
    Eval left = Eval right.
Proof.
  apply (evaluateOperator_associative (EString zeroPos "a")
           (EString zeroPos "b") (EString zeroPos "c") zeroPos);
    try (simpl; discriminate).
  left. eexists _, _, _, _, _, _. repeat split.
Defined.

(** X5: when each operand has the [Type] of what it evaluates to, so has
    whatever [evaluateOperator] returns, with or without evaluation. *)
Theorem evaluateOperator_type_consistent eval value1 value2 operator pos r :
  type_consistent value1 -> type_consistent value2 ->
  evaluateOperator eval value1 value2 operator pos = Return r ->
  type_consistent r.
Proof.
  intros Hc1 Hc2. rewrite evaluateOperator_unfold.
  unfold evaluateOperator_step, type_consistent in *.
  destruct (decide (ExprType value1 = UnsetType)); [now intros [= <-]|].
  destruct (decide (ExprType value2 = UnsetType)); [now intros [= <-]|].
  destruct eval; [|now intros [= <-]].
  destruct (decide (ExprType (Eval value1) = ExprType (Eval value2)))
    as [Ety|]; [|discriminate].
  destruct (decide (operator = chr "+")); [|discriminate].
  destruct (negb (isSelect (Eval value1)) && isSelect (Eval value2)).
  - simpl. intros [= <-]. simpl. rewrite Hc1.
    destruct (ExprType (Eval value1)) eqn:E; try reflexivity.
    congruence.
  - rewrite Copy_id.
    destruct (Eval value1) eqn:E1; simpl in *;
      repeat match goal with
             | |- match ?x with _ => _ end = _ -> _ =>
                 destruct x; try discriminate
             end;
      try (intros [= <-]; simpl; congruence).
    all: intros [= <-]; simpl; rewrite Hc1;
      destruct ExpressionType; try reflexivity.
    all: destruct Append; simpl in *; congruence.
Qed.

Lemma evaluateOperator_type_consistent_witness :
  type_consistent
    (EOperator (EInt64 zeroPos 2 "2") (EInt64 zeroPos 3 "3") (chr "+") zeroPos
               (EInt64 zeroPos 5 "")).
Proof.
  apply (evaluateOperator_type_consistent true (EInt64 zeroPos 2 "2")
           (EInt64 zeroPos 3 "3") (chr "+") zeroPos);
    reflexivity.
Defined.

(** X6: without evaluation, [evaluateOperator] on two operands of set
    [Type] never fails, whatever their types and the operator: it returns
    the operator node over the two, whose value is the left operand
    itself, so that the node evaluates to what the left operand evaluates
    to. *)
Theorem evaluateOperator_parse_only value1 value2 operator pos :
  ExprType value1 <> UnsetType ->
  ExprType value2 <> UnsetType ->
  evaluateOperator false value1 value2 operator pos
  = Return (EOperator value1 value2 operator pos value1) /\
  Eval (EOperator value1 value2 operator pos value1) = Eval value1.
Proof.
  intros H1 H2. split; [|reflexivity].
  rewrite evaluateOperator_unfold. unfold evaluateOperator_step.
  now rewrite !decide_False by assumption.
Qed.

Lemma evaluateOperator_parse_only_witness :
  evaluateOperator false (EString zeroPos "a") (EInt64 zeroPos 1 "1")
                   (chr "+") zeroPos
  = Return (EOperator (EString zeroPos "a") (EInt64 zeroPos 1 "1") (chr "+")
                      zeroPos (EString zeroPos "a")).
Proof.
  refine (proj1 (evaluateOperator_parse_only (EString zeroPos "a")
                   (EInt64 zeroPos 1 "1") (chr "+") zeroPos _ _));
    simpl; discriminate.
Defined.

(** ** Properties of a map: lookup, removal, renaming *)

Lemma getPropertyImpl_from_spec i properties name :
  match getPropertyImpl_from i properties name with
  | (Some prop, true, index) =>
      exists l1 l2,
        properties = l1 ++ prop :: l2 /\ Property_Name prop = name /\
        (name ∉ map Property_Name l1) /\ index = i + Z.of_nat (length l1)
  | (None, false, index) =>
      (name ∉ map Property_Name properties) /\ index = -1
  | _ => False
  end.
Proof.
  revert i. induction properties as [|p rest IH]; intros i; simpl.
  - split; [apply not_elem_of_nil|reflexivity].
  - destruct (decide (Property_Name p = name)) as [E|N].
    + exists [], rest. repeat split; [exact E|apply not_elem_of_nil|simpl; lia].
    + specialize (IH (i + 1)).
      destruct (getPropertyImpl_from (i + 1) rest name) as [[[prop|] [|]] index];
        try contradiction.
      * destruct IH as (l1 & l2 & -> & E & Hl1 & ->).
        exists (p :: l1), l2. repeat split; [exact E| |simpl length; lia].
        simpl. intros Hin. apply elem_of_cons in Hin as [Hin|Hin];
          [congruence|contradiction].
      * destruct IH as (Hn & ->). split; [|reflexivity].
        simpl. intros Hin. apply elem_of_cons in Hin as [Hin|Hin];
          [congruence|contradiction].
Qed.

(** What [getPropertyImpl] finds, in terms of the list split at the first
    property called [name]. *)
Lemma Map_getPropertyImpl_spec properties name :
  (exists l1 prop l2,
      properties = l1 ++ prop :: l2 /\ Property_Name prop = name /\
      (name ∉ map Property_Name l1) /\
      Map_getPropertyImpl properties name
      = (Some prop, true, Z.of_nat (length l1)))
  \/ ((name ∉ map Property_Name properties) /\
      Map_getPropertyImpl properties name = (None, false, -1)).
Proof.
  unfold Map_getPropertyImpl.
  pose proof (getPropertyImpl_from_spec 0 properties name) as H.
  destruct (getPropertyImpl_from 0 properties name) as [[[prop|] [|]] index];
    try contradiction.
  - destruct H as (l1 & l2 & -> & E & Hl1 & ->). left.
    exists l1, prop, l2. repeat split; assumption.
  - destruct H as (Hn & ->). right. split; [assumption|reflexivity].
Qed.

Lemma Map_getPropertyImpl_found l1 prop l2 :
  Property_Name prop ∉ map Property_Name l1 ->
  Map_getPropertyImpl (l1 ++ prop :: l2) (Property_Name prop)
  = (Some prop, true, Z.of_nat (length l1)).
Proof.
  intros Hl1.
  destruct (Map_getPropertyImpl_spec (l1 ++ prop :: l2) (Property_Name prop))
    as [(l1' & prop' & l2' & E & En & Hl1' & ->)|(Hn & _)].
  - assert (length l1 = length l1') as Hlen.
    { destruct (Nat.lt_trichotomy (length l1) (length l1')) as [Hlt|[He|Hgt]];
        [|exact He|]; exfalso.
      - assert ((l1' ++ prop' :: l2') !! length l1 = Some prop) as Hl
            by (rewrite <- E, list_lookup_middle; reflexivity).
        rewrite lookup_app_l in Hl by assumption.
        apply Hl1'. apply list_elem_of_fmap. exists prop. split; [congruence|].
        apply list_elem_of_lookup. eauto.
      - assert ((l1 ++ prop :: l2) !! length l1' = Some prop') as Hl
            by (rewrite E, list_lookup_middle; reflexivity).
        rewrite lookup_app_l in Hl by assumption.
        apply Hl1. apply list_elem_of_fmap. exists prop'. split; [congruence|].
        apply list_elem_of_lookup. eauto. }
    assert (prop' = prop) as ->.
    { assert ((l1 ++ prop :: l2) !! length l1 = Some prop') as Hl
          by (rewrite E, Hlen, list_lookup_middle; reflexivity).
      rewrite list_lookup_middle in Hl by reflexivity. congruence. }
    now rewrite Hlen.
  - exfalso. apply Hn. rewrite map_app. apply elem_of_app. right.
    simpl. apply list_elem_of_here.
Qed.

Lemma Map_getPropertyImpl_absent properties name :
  name ∉ map Property_Name properties ->
  Map_getPropertyImpl properties name = (None, false, -1).
Proof.
  intros Hn.
  destruct (Map_getPropertyImpl_spec properties name)
    as [(l1 & prop & l2 & -> & En & _)|(_ & E)]; [|exact E].
  exfalso. apply Hn. rewrite map_app. apply elem_of_app. right.
  simpl. rewrite En. apply list_elem_of_here.
Qed.

(** X7: [GetProperty] finds a property exactly when one of that name is in
    the map, and then it returns the first one: no property before it has
    the name. *)
Theorem Map_GetProperty_first properties name :
  (exists l1 prop l2,
      properties = l1 ++ prop :: l2 /\ Property_Name prop = name /\
      (name ∉ map Property_Name l1) /\
      Map_GetProperty properties name = (Some prop, true))
  \/ ((name ∉ map Property_Name properties) /\
      Map_GetProperty properties name = (None, false)).
Proof.
  unfold Map_GetProperty.
  destruct (Map_getPropertyImpl_spec properties name)
    as [(l1 & prop & l2 & E & En & Hl1 & ->)|(Hn & ->)].
  - left. exists l1, prop, l2. auto.
  - right. auto.
Qed.

(** X8: [RemoveProperty] of a name the map lacks changes nothing and
    reports false; otherwise it takes out the first property of that name
    and no other, reports true, and leaves the answer of [GetProperty] for
    every other name as it was. *)
Theorem Map_RemoveProperty_first properties name :
  ((name ∉ map Property_Name properties) /\
   Map_RemoveProperty properties name = (properties, false))
  \/ (exists l1 prop l2,
         properties = l1 ++ prop :: l2 /\ Property_Name prop = name /\
         (name ∉ map Property_Name l1) /\
         Map_RemoveProperty properties name = (l1 ++ l2, true) /\
         forall other, other <> name ->
           Map_GetProperty (l1 ++ l2) other = Map_GetProperty properties other).
Proof.
  unfold Map_RemoveProperty.
  destruct (Map_getPropertyImpl_spec properties name)
    as [(l1 & prop & l2 & -> & En & Hl1 & ->)|(Hn & ->)].
  - right. exists l1, prop, l2. repeat split; try assumption.
    + f_equal. rewrite Nat2Z.id.
      replace (Z.to_nat (Z.of_nat (length l1) + 1)) with (S (length l1)) by lia.
      rewrite take_app_length.
      rewrite drop_app_ge by lia.
      replace (S (length l1) - length l1)%nat with 1%nat by lia.
      reflexivity.
    + intros other Hne. unfold Map_GetProperty.
      destruct (decide (other ∈ map Property_Name l1)) as [Hin|Hnin].
      * apply list_elem_of_fmap in Hin as (q & -> & Hq).
        apply list_elem_of_split in Hq as (a1 & a2 & ->).
        assert (exists b1 q' b2, a1 ++ q :: a2 = b1 ++ q' :: b2 /\
                  Property_Name q' = Property_Name q /\
                  Property_Name q ∉ map Property_Name b1) as (b1 & q' & b2 & Eb & Eq & Hb1).
        { destruct (Map_getPropertyImpl_spec (a1 ++ q :: a2) (Property_Name q))
            as [(b1 & q' & b2 & E & Eq & Hb1 & _)|(Hn & _)]; [eauto 10|].
          exfalso. apply Hn. rewrite map_app. apply elem_of_app. right.
          simpl. apply list_elem_of_here. }
        rewrite Eb, <- !app_assoc, <- !app_comm_cons, <- Eq.
        rewrite !Map_getPropertyImpl_found by (rewrite Eq; exact Hb1).
        reflexivity.
      * destruct (Map_getPropertyImpl_spec l2 other)
          as [(b1 & q & b2 & -> & Eq & Hb1 & _)|(Hn2 & _)].
        -- subst other.
           assert (Property_Name q ∉ map Property_Name (l1 ++ b1)) as H1.
           { rewrite map_app. intros Hin. apply elem_of_app in Hin as [?|?];
               contradiction. }
           assert (Property_Name q ∉ map Property_Name (l1 ++ prop :: b1)) as H2.
           { rewrite map_app. intros Hin. apply elem_of_app in Hin as [?|Hin];
               [contradiction|]. simpl in Hin.
             apply elem_of_cons in Hin as [?|?]; [congruence|contradiction]. }
           replace (l1 ++ b1 ++ q :: b2) with ((l1 ++ b1) ++ q :: b2)
             by now rewrite <- app_assoc.
           replace (l1 ++ prop :: b1 ++ q :: b2)
             with ((l1 ++ prop :: b1) ++ q :: b2)
             by now rewrite <- app_assoc.
           rewrite !Map_getPropertyImpl_found by assumption. reflexivity.
        -- rewrite !Map_getPropertyImpl_absent; [reflexivity| |].
           ++ rewrite map_app. intros Hin. apply elem_of_app in Hin as [?|Hin];
                [contradiction|]. simpl in Hin.
              apply elem_of_cons in Hin as [?|?]; [congruence|contradiction].
           ++ rewrite map_app. intros Hin. apply elem_of_app in Hin as [?|?];
                contradiction.
  - left. auto.
Qed.

Section MovePropertyContentsFacts.
Variable RemoveStringFromList : Expression -> string -> Expression.
Variable AddStringToList : Expression -> string -> Expression.

(** X9: when the map has no property called [newLocation],
    [MovePropertyContents] renames the first property called
    [propertyName] where it stands, keeping its value and its place, and
    reports true; [GetProperty] then finds it under the new name.  When
    the map has no [propertyName] either, it changes nothing and reports
    false. *)
Theorem Map_MovePropertyContents_renames properties propertyName newLocation :
  newLocation ∉ map Property_Name properties ->
  ((propertyName ∉ map Property_Name properties) /\
   Map_MovePropertyContents RemoveStringFromList AddStringToList
     properties propertyName newLocation = Return (properties, false))
  \/ (exists l1 prop l2,
         let renamed := l1 ++ Property_setName prop newLocation :: l2 in
         properties = l1 ++ prop :: l2 /\ Property_Name prop = propertyName /\
         (propertyName ∉ map Property_Name l1) /\
         Map_MovePropertyContents RemoveStringFromList AddStringToList
           properties propertyName newLocation = Return (renamed, true) /\
         Property_Value (Property_setName prop newLocation)
         = Property_Value prop /\
         Map_GetProperty renamed newLocation
         = (Some (Property_setName prop newLocation), true)).
Proof.
  intros Hnew. unfold Map_MovePropertyContents.
  rewrite (Map_getPropertyImpl_absent _ _ Hnew).
  destruct (Map_getPropertyImpl_spec properties propertyName)
    as [(l1 & prop & l2 & -> & En & Hl1 & ->)|(Hn & ->)].
  - right. exists l1, prop, l2. cbv zeta. repeat apply conj; try assumption.
    + reflexivity.
    + rewrite Nat2Z.id.
      rewrite insert_app_r_alt by lia.
      replace (length l1 - length l1)%nat with 0%nat by lia. reflexivity.
    + now destruct prop.
    + assert (Property_Name (Property_setName prop newLocation) = newLocation)
        as Hname by now destruct prop.
      unfold Map_GetProperty.
      rewrite <- Hname at 2.
      rewrite Map_getPropertyImpl_found; [reflexivity|].
      rewrite Hname. intros Hin. apply Hnew.
      rewrite map_app. apply elem_of_app. now left.
  - left. auto.
Qed.

(** X10: when both properties are there and one of the two values is not
    a [*List], [MovePropertyContents] leaves the map as it is and still
    reports true. *)
Theorem Map_MovePropertyContents_unsupported properties propertyName
    newLocation oldProp newProp :
  Map_GetProperty properties propertyName = (Some oldProp, true) ->
  Map_GetProperty properties newLocation = (Some newProp, true) ->
  ~ (is_List (Property_Value oldProp) /\ is_List (Property_Value newProp)) ->
  Map_MovePropertyContents RemoveStringFromList AddStringToList
    properties propertyName newLocation = Return (properties, true).
Proof.
  unfold Map_GetProperty, Map_MovePropertyContents.
  destruct (Map_getPropertyImpl properties propertyName)
    as [[oldP oldFound] oldIndex].
  destruct (Map_getPropertyImpl properties newLocation)
    as [[newP newFound] newIndex].
  intros [= -> ->] [= -> ->] Hnot.
  destruct (Property_Value oldProp); try reflexivity.
  destruct (Property_Value newProp); try reflexivity.
  exfalso. apply Hnot. split; exact I.
Qed.
End MovePropertyContentsFacts.

Lemma Map_MovePropertyContents_renames_witness :
  let srcs := mkProperty "srcs" zeroPos zeroPos (EString zeroPos "a.c") in
  let name := mkProperty "name" zeroPos zeroPos (EString zeroPos "m") in
  Map_MovePropertyContents (fun l _ => l) (fun l _ => l)
    [name; srcs] "srcs" "sources"
  = Return ([name; Property_setName srcs "sources"], true).
Proof.
  intros srcs name.
  destruct (Map_MovePropertyContents_renames (fun l _ => l) (fun l _ => l)
              [name; srcs] "srcs" "sources")
    as [(Hn & _)|(l1 & prop & l2 & E & En & Hl1 & Hmove & _)].
  - vm_compute. intros H. repeat (apply elem_of_cons in H as [H|H];
      [discriminate|]). now apply elem_of_nil in H.
  - exfalso. apply Hn. vm_compute. apply elem_of_cons. right.
    apply list_elem_of_here.
  - reflexivity.
Defined.

Lemma Map_MovePropertyContents_unsupported_witness :
  let srcs := mkProperty "srcs" zeroPos zeroPos (EString zeroPos "a.c") in
  let deps := mkProperty "deps" zeroPos zeroPos (EList zeroPos zeroPos []) in
  Map_MovePropertyContents (fun l _ => l) (fun l _ => l)
    [srcs; deps] "srcs" "deps" = Return ([srcs; deps], true).
Proof.
  intros srcs deps.
  apply (Map_MovePropertyContents_unsupported (fun l _ => l) (fun l _ => l)
           [srcs; deps] "srcs" "deps" srcs deps);
    [reflexivity|reflexivity|].
  intros [H _]. exact H.
Defined.

(** ** Scopes: what [Get] answers after [Add], [Remove] and [NewScope] *)

(** X11: after an [Add] that returns no error, [Get] of the assignment's
    name gives that assignment as a local one, and [Get] of every other
    name answers as before. *)
Theorem Scope_Add_then_Get st s assignment a s' :
  st !! assignment = Some a ->
  Scope_Add st s assignment = Return (s', None) ->
  Scope_Get s' (Assignment_Name a) = (Some assignment, true) /\
  forall other, other <> Assignment_Name a ->
    Scope_Get s' other = Scope_Get s other.
Proof.
  intros Ha HAdd.
  apply Scope_Add_inv in HAdd as (a' & Ha' & [(_ & _ & [e He])|(E1 & E2 & -> & _)]);
    [discriminate|].
  assert (a' = a) as -> by congruence.
  unfold Scope_Get. simpl. split.
  - now rewrite lookup_insert_eq.
  - intros other Hne. now rewrite lookup_insert_ne by congruence.
Qed.

Lemma Scope_Add_then_Get_witness :
  let a := mkAssignment "x" zeroPos (EString zeroPos "v") (EString zeroPos "v")
                        zeroPos "=" false in
  Scope_Get (mkScope {["x" := 0%nat]} ∅) "x" = (Some 0%nat, true).
Proof.
  intros a.
  exact (proj1 (Scope_Add_then_Get [a] (NewScope None) 0%nat a
                  (mkScope {["x" := 0%nat]} ∅) eq_refl eq_refl)).
Defined.

(** X12: after [Remove] of a name, [Get] does not find it, in whichever
    table it was; [Get] of every other name answers as before; and an
    [Add] of an assignment of that name goes through. *)
Theorem Scope_Remove_then_Get s name :
  Scope_Get (Scope_Remove s name) name = (None, false) /\
  (forall other, other <> name ->
     Scope_Get (Scope_Remove s name) other = Scope_Get s other) /\
  (forall st assignment a,
     st !! assignment = Some a -> Assignment_Name a = name ->
     exists s', Scope_Add st (Scope_Remove s name) assignment
                = Return (s', None) /\
                Scope_Get s' name = (Some assignment, true)).
Proof.
  unfold Scope_Get, Scope_Remove. simpl. repeat apply conj.
  - now rewrite !lookup_delete_eq.
  - intros other Hne. now rewrite !lookup_delete_ne by congruence.
  - intros st assignment a Ha <-. unfold Scope_Add. rewrite Ha. simpl.
    rewrite !lookup_delete_eq. eexists. split; [reflexivity|].
    simpl. now rewrite lookup_insert_eq.
Qed.

(** X13: a scope made by [NewScope] from a parent answers [Get] with the
    assignment the parent answers with, and never as a local one. *)
Theorem NewScope_inherits parent name :
  reachable parent ->
  Scope_Get (NewScope (Some parent)) name
  = (fst (Scope_Get parent name), false).
Proof.
  intros Hr. pose proof (reachable_disjoint parent Hr name) as Hd.
  unfold Scope_Get, NewScope. simpl. rewrite lookup_empty.
  rewrite lookup_union.
  destruct (vars parent !! name) as [a|] eqn:Ev;
    destruct (inheritedVars parent !! name) as [b|] eqn:Ei; simpl;
    try reflexivity.
  exfalso. apply Hd; eauto.
Qed.

Lemma NewScope_inherits_witness :
  Scope_Get (NewScope (Some (mkScope {["x" := 0%nat]} ∅))) "x"
  = (Some 0%nat, false).
Proof.
  pose (a := mkAssignment "x" zeroPos (EString zeroPos "v")
                          (EString zeroPos "v") zeroPos "=" false).
  assert (reachable (mkScope {["x" := 0%nat]} ∅)) as Hp.
  { apply (reachable_Add [a] (NewScope None) 0%nat _ None).
    - constructor.
    - reflexivity. }
  exact (NewScope_inherits _ "x" Hp).
Defined.

(** ** Equality of conditions *)

Lemma forallb_zip_eq {A} `{EqDecision A} (l k : list A) :
  length l = length k ->
  forallb (fun '(a, b) => bool_decide (a = b)) (zip l k) = true <-> l = k.
Proof.
  revert k. induction l as [|x l IH]; intros [|y k] Hlen; try discriminate.
  - split; reflexivity.
  - simpl in *. rewrite andb_true_iff, bool_decide_eq_true, IH by lia.
    split; [intros [-> ->]; reflexivity|intros [= -> ->]; auto].
Qed.

(** X14: [Equals] holds exactly when the two conditions have the same
    function name and the same arguments, where an argument is a [String]
    struct and so counts with the position it was read at; the position
    of the condition itself plays no part. *)
Theorem ConfigurableCondition_Equals_iff c other :
  ConfigurableCondition_Equals c other = true <->
  FunctionName c = FunctionName other /\ Args c = Args other.
Proof.
  unfold ConfigurableCondition_Equals.
  destruct (decide (FunctionName c = FunctionName other)) as [En|Nn].
  - destruct (decide (length (Args c) = length (Args other))) as [El|Nl].
    + rewrite forallb_zip_eq by exact El. tauto.
    + split; [discriminate|]. intros [_ E]. now rewrite E in Nl.
  - split; [discriminate|]. intros [E _]. contradiction.
Qed.

(** ** [p.next] and the comments *)

Ltac unfold_monad_in_goal :=
  cbv beta iota delta [bind get ret modify tok Position_ TokenText].

Lemma Scan_cases p :
  match Scan p with
  | Ok t p' =>
      parser_comments p' = parser_comments p /\
      parser_tok p' = parser_tok p /\
      (Scanner_src (parser_scanner p) = [] /\ t = scanner.EOF /\
       Scanner_src (parser_scanner p') = []
       \/ exists x, Scanner_src (parser_scanner p)
                    = x :: Scanner_src (parser_scanner p') /\
                    t = Token_tok x)
  | Panic v _ => v = errTooManyErrors
  | Exhausted => False
  end.
Proof.
  unfold Scan. destruct (Scanner_src (parser_scanner p)) as [|x rest] eqn:E.
  - simpl. auto 10.
  - destruct (Token_errors x).
    + simpl. repeat split. right. exists x. auto.
    + unfold errorf. rewrite parser_error_eq. reflexivity.
Qed.

Lemma next_comments_facts turns : forall comments p p',
  parser_tok p = scanner.Comment \/ comments <> [] ->
  next_comments turns comments p = Ok tt p' ->
  parser_tok p' <> scanner.Comment /\
  exists new, parser_comments p' = parser_comments p ++ new /\
              nonempty_groups new /\ new <> [].
Proof.
  assert (forall comments p p',
             parser_tok p <> scanner.Comment -> comments <> [] ->
             Ok tt (set_comments p
                      (parser_comments p ++ [mkCommentGroup comments]))
             = Ok tt p' ->
             parser_tok p' <> scanner.Comment /\
             exists new, parser_comments p' = parser_comments p ++ new /\
                         nonempty_groups new /\ new <> []) as Hstop.
  { intros comments p p' Ht Hc [= <-]. split; [exact Ht|].
    exists [mkCommentGroup comments]. repeat split; [|discriminate].
    constructor; [exact Hc|constructor]. }
  induction turns as [|turns IH]; intros comments p p' Hpre H; simpl in H;
    unfold_monad_in H.
  - destruct (decide _) as [Et|Nt]; [discriminate|].
    destruct Hpre as [?|Hc]; [contradiction|]. exact (Hstop _ _ _ Nt Hc H).
  - destruct (decide _) as [Et|Nt].
    + assert (forall q comments' old,
                 parser_comments q = parser_comments p ++ old ->
                 nonempty_groups old ->
                 match Scan q with
                 | Ok a q' =>
                     next_comments turns
                       (comments' ++
                        [mkComment
                           (split_lines (Scanner_TokenText (parser_scanner p)))
                           (Scanner_Position (parser_scanner p))])
                       (set_tok q' a)
                 | Panic v q' => Panic v q'
                 | Exhausted => Exhausted
                 end = Ok tt p' ->
                 parser_tok p' <> scanner.Comment /\
                 exists new, parser_comments p' = parser_comments p ++ new /\
                             nonempty_groups new /\ new <> []) as Hgo.
      { intros q comments' old Hq Hold Hrun.
        pose proof (Scan_cases q) as HS.
        destruct (Scan q) as [a q'| |]; try discriminate.
        destruct HS as (Hc & _ & _).
        apply IH in Hrun as (Ht & new & Hnew & Hne & Hnn).
        - split; [exact Ht|]. exists (old ++ new). repeat split.
          + simpl in Hnew. rewrite Hnew, Hc, Hq. now rewrite app_assoc.
          + apply Forall_app. split; assumption.
          + intros E. apply app_eq_nil in E as [_ E]. contradiction.
        - right. intros E. now apply app_eq_nil in E as [_ E]. }
      destruct (last comments) as [c|] eqn:El.
      * destruct (_ <? _).
        -- apply (Hgo (set_comments p (parser_comments p
                                         ++ [mkCommentGroup comments]))
                      [] [mkCommentGroup comments]); [reflexivity| |exact H].
           constructor; [|constructor]. simpl. intros ->. discriminate.
        -- apply (Hgo p comments []); [now rewrite app_nil_r|constructor|exact H].
      * apply (Hgo p comments []); [now rewrite app_nil_r|constructor|exact H].
    + destruct Hpre as [?|Hc]; [contradiction|]. exact (Hstop _ _ _ Nt Hc H).
Qed.

Lemma next_comments_not_Exhausted turns : forall comments p,
  (parser_tok p = scanner.Comment ->
   (length (Scanner_src (parser_scanner p)) < turns)%nat) ->
  next_comments turns comments p <> Exhausted.
Proof.
  induction turns as [|turns IH]; intros comments p Hlen; simpl;
    unfold_monad_in_goal.
  - destruct (decide _) as [Et|Nt]; [specialize (Hlen Et); lia|discriminate].
  - destruct (decide _) as [Et|Nt]; [|discriminate].
    specialize (Hlen Et).
    assert (forall q comments',
               Scanner_src (parser_scanner q) = Scanner_src (parser_scanner p) ->
               match Scan q with
               | Ok a q' => next_comments turns comments' (set_tok q' a)
               | Panic v q' => Panic v q'
               | Exhausted => Exhausted
               end <> Exhausted) as Hgo.
    { intros q comments' Hq. pose proof (Scan_cases q) as HS.
      destruct (Scan q) as [a q'| |]; [|discriminate|contradiction].
      apply IH. simpl. intros Ea.
      destruct HS as (_ & _ & [(_ & -> & _)|(x & Ex & _)]); [discriminate|].
      rewrite Hq in Ex. rewrite Ex in Hlen. simpl in Hlen. lia. }
    destruct (last comments) as [c|].
    + destruct (_ <? _); now apply Hgo.
    + now apply Hgo.
Qed.

(** X15: [p.next] comes to an end on every input: the loop over comment
    tokens takes one token of the input at each turn. *)
Theorem next_terminates p : next p <> Exhausted.
Proof.
  unfold next. unfold_monad_in_goal.
  destruct (decide _); [discriminate|].
  pose proof (Scan_cases p) as HS.
  destruct (Scan p) as [t p1| |]; [|discriminate|contradiction].
  destruct (decide _); [|discriminate].
  apply next_comments_not_Exhausted. simpl. lia.
Qed.

(** X16: when [p.next] returns, the current token is not a comment, every
    comment group it has added has at least one comment, so that [Pos] and
    [End] can be called on it, and the groups gathered before are still
    there, in front. *)
Theorem next_skips_comments p p' :
  next p = Ok tt p' ->
  parser_tok p' <> scanner.Comment /\
  exists new, parser_comments p' = parser_comments p ++ new /\
              nonempty_groups new.
Proof.
  unfold next. intros H. unfold_monad_in H.
  destruct (decide _) as [Et|Nt].
  { injection H as <-. split; [rewrite Et; discriminate|].
    exists []. split; [now rewrite app_nil_r|constructor]. }
  pose proof (Scan_cases p) as HS.
  destruct (Scan p) as [t p1| |]; try discriminate.
  destruct HS as (Hc & _ & _).
  destruct (decide _) as [Ec|Nc].
  - apply next_comments_facts in H as (Ht & new & Hnew & Hne & _);
      [|left; exact Ec].
    split; [exact Ht|]. exists new. simpl in Hnew. split; [congruence|exact Hne].
  - injection H as <-. split; [exact Nc|].
    exists []. simpl. split; [now rewrite app_nil_r, Hc|constructor].
Qed.

Lemma next_skips_comments_witness :
  let p := newParser [tk scanner.Comment "// a" 1 1;
                      tk scanner.Comment "// b" 2 1;
                      tk scanner.Comment "// c" 5 1;
                      tk scanner.Ident "x" 6 1] None [] in
  parser_tok (state_after next p) <> scanner.Comment /\
  exists new, parser_comments (state_after next p)
              = parser_comments p ++ new /\
              nonempty_groups new.
Proof.
  intros p.
  assert (next p = Ok tt (state_after next p)) as Run
      by (vm_compute; reflexivity).
  exact (next_skips_comments p _ Run).
Defined.

(** ** How many errors a parse reports *)

Create HintDb reports.

Lemma reports_ret {A} (a : A) : reports (ret a).
Proof. intros p. reflexivity. Qed.

Lemma reports_bind {A B} (m : M A) (k : A -> M B) :
  reports m -> (forall a, reports (k a)) -> reports (bind m k).
Proof.
  intros Hm Hk p. unfold bind. specialize (Hm p).
  destruct (m p) as [a p1|v p1|]; [|exact Hm|exact I].
  specialize (Hk a p1). destruct (k a p1) as [b p2|[|msg] p2|];
    [congruence| |exact I|exact I].
  destruct Hk as [e He]. exists e. congruence.
Qed.

Lemma reports_get {A} (f : parser -> A) : reports (get f).
Proof. intros p. reflexivity. Qed.

Lemma reports_modify (f : parser -> parser) :
  (forall p, parser_errors (f p) = parser_errors p) -> reports (modify f).
Proof. intros Hf p. apply Hf. Qed.

Lemma reports_parser_error {A} (e : error) : reports (@parser_error A e).
Proof.
  intros p. rewrite parser_error_eq. unfold error_state. simpl. eauto.
Qed.

Lemma reports_errorf {A} (e : error) : reports (@errorf A e).
Proof. apply reports_parser_error. Qed.

Lemma reports_panic {A} (msg : string) : reports (@panic A (runtimePanic msg)).
Proof. intros p. exact I. Qed.

Lemma reports_exhausted {A} : reports (@exhausted A).
Proof. intros p. exact I. Qed.

Lemma reports_try {A} (o : outcome A) : reports (try_ o).
Proof.
  destruct o; simpl;
    [apply reports_ret|apply reports_parser_error|apply reports_panic
    |apply reports_exhausted].
Qed.

Lemma reports_tok : reports tok.
Proof. apply reports_get. Qed.
Lemma reports_Position : reports Position_.
Proof. apply reports_get. Qed.
Lemma reports_TokenText : reports TokenText.
Proof. apply reports_get. Qed.

Hint Resolve reports_tok reports_Position reports_TokenText reports_get
  reports_try : reports.

(** Walk through a sequence of calls, splitting at each bind and at each
    condition. *)
Ltac reports_step :=
  lazymatch goal with
  | |- reports (ret _) => apply reports_ret
  | |- reports (errorf _) => apply reports_errorf
  | |- reports (parser_error _) => apply reports_parser_error
  | |- reports (panic (runtimePanic _)) => apply reports_panic
  | |- reports exhausted => apply reports_exhausted
  | |- reports (modify _) => apply reports_modify; intros; reflexivity
  | |- reports (bind _ _) => apply reports_bind; [|intros ?]
  | |- reports (if ?c then _ else _) => destruct c
  | |- reports (match ?x with _ => _ end) => destruct x
  | |- reports _ => solve [eauto with reports]
  end.

Ltac reports_walk := repeat reports_step.

Lemma reports_Scan : reports Scan.
Proof.
  intros p. unfold Scan.
  destruct (Scanner_src (parser_scanner p)) as [|x rest]; [reflexivity|].
  destruct (Token_errors x); [reflexivity|].
  apply (reports_errorf _ (set_scanner p _)).
Qed.
Hint Resolve reports_Scan : reports.

Lemma reports_next_comments turns :
  forall comments, reports (next_comments turns comments).
Proof.
  induction turns as [|turns IH]; intros comments; simpl; reports_walk.
Qed.
Hint Resolve reports_next_comments : reports.

Lemma reports_next : reports next.
Proof. unfold next. reports_walk. Qed.
Hint Resolve reports_next : reports.

Lemma reports_accept want : reports (accept want).
Proof. unfold accept. reports_walk. Qed.
Hint Resolve reports_accept : reports.

Lemma reports_deref a : reports (deref a).
Proof. unfold deref. reports_walk. Qed.

Lemma reports_assign a x : reports (assign a x).
Proof. unfold assign. reports_walk. Qed.

Lemma reports_alloc x : reports (alloc x).
Proof. unfold alloc. reports_walk. Qed.
Hint Resolve reports_deref reports_assign reports_alloc : reports.

Section Reports.
Variable Unquote : string -> option string.
Variable ParseInt : string -> option Z.

Lemma reports_parseStringValue : reports (parseStringValue Unquote).
Proof. unfold parseStringValue. reports_walk. Qed.
Hint Resolve reports_parseStringValue : reports.

Lemma reports_parseIntValue : reports (parseIntValue ParseInt).
Proof. unfold parseIntValue. reports_walk. Qed.

Lemma reports_parseBoolean : reports parseBoolean.
Proof. unfold parseBoolean. reports_walk. Qed.

Lemma reports_parseVariable : reports parseVariable.
Proof. unfold parseVariable. reports_walk. Qed.

Lemma reports_parseOnePattern : reports (parseOnePattern Unquote).
Proof. unfold parseOnePattern. reports_walk. Qed.
Hint Resolve reports_parseIntValue reports_parseBoolean reports_parseVariable
  reports_parseOnePattern : reports.

Lemma reports_parseConditionArgs fuel :
  forall args, reports (parseConditionArgs Unquote fuel args).
Proof. induction fuel as [|fuel IH]; intros args; simpl; reports_walk. Qed.
Hint Resolve reports_parseConditionArgs : reports.

Lemma reports_parseConditions fuel :
  forall multi conditions,
    reports (parseConditions Unquote fuel multi conditions).
Proof.
  induction fuel as [|fuel IH]; intros multi conditions; simpl; reports_walk.
Qed.
Hint Resolve reports_parseConditions : reports.

Lemma reports_parsePatterns fuel :
  forall n i patterns, reports (parsePatterns Unquote fuel n i patterns).
Proof.
  induction fuel as [|fuel IH]; intros n i patterns; simpl; reports_walk.
Qed.
Hint Resolve reports_parsePatterns : reports.

(** Every function of the mutual recursion. *)
Lemma parser_reports fuel :
  reports (parseExpression Unquote ParseInt fuel) /\
  (forall value1, reports (parseOperator Unquote ParseInt fuel value1)) /\
  reports (parseValue Unquote ParseInt fuel) /\
  reports (parseSelect Unquote ParseInt fuel) /\
  (forall multi n cases has,
      reports (parseCases Unquote ParseInt fuel multi n cases has)) /\
  reports (parseListValue Unquote ParseInt fuel) /\
  (forall elements,
      reports (parseListElements Unquote ParseInt fuel elements)) /\
  reports (parseMapValue Unquote ParseInt fuel) /\
  (forall isModule compat properties,
      reports (parsePropertyList Unquote ParseInt fuel isModule compat
                                 properties)) /\
  (forall isModule compat,
      reports (parseProperty Unquote ParseInt fuel isModule compat)).
Proof.
  induction fuel as [|fuel IH].
  { repeat apply conj; intros; apply reports_exhausted. }
  destruct IH as (IHe & IHo & IHv & IHs & IHc & IHl & IHle & IHm & IHpl & IHp).
  repeat apply conj; intros; simpl; reports_walk.
Qed.

Lemma reports_parseAssignment fuel name namePos assigner :
  reports (parseAssignment Unquote ParseInt fuel name namePos assigner).
Proof.
  pose proof (proj1 (parser_reports fuel)) as He.
  unfold parseAssignment. reports_walk.
Qed.

Lemma reports_parseModule fuel typ typPos :
  reports (parseModule Unquote ParseInt fuel typ typPos).
Proof.
  destruct (parser_reports fuel) as (_ & _ & _ & _ & _ & _ & _ & _ & Hpl & _).
  unfold parseModule. reports_walk.
Qed.
Hint Resolve reports_parseAssignment reports_parseModule : reports.

Lemma reports_parseDefinitions fuel :
  forall defs, reports (parseDefinitions Unquote ParseInt fuel defs).
Proof. induction fuel as [|fuel IH]; intros defs; simpl; reports_walk. Qed.

Lemma parse_file_or_one_error fuel p :
  parser_errors p = [] ->
  match parse Unquote ParseInt fuel p with
  | Ok r _ => file_or_one_error r
  | Panic v _ => v <> errTooManyErrors
  | Exhausted => True
  end.
Proof.
  intros Hp. unfold parse.
  match goal with |- context [match ?m p with _ => _ end] =>
    assert (reports m) as Hm; [|specialize (Hm p); destruct (m p) as [r p'|[|msg] p'|] eqn:Hrun]
  end.
  { pose proof (reports_parseDefinitions fuel). reports_walk. }
  - rewrite Hp in Hm.
    apply bind_Ok in Hrun as ([] & p1 & _ & Hrun).
    apply bind_Ok in Hrun as (defs & p2 & _ & Hrun).
    apply bind_Ok in Hrun as ([] & p3 & _ & Hrun).
    unfold bind, get, ret in Hrun. injection Hrun as <- <-.
    left. eexists. split; [reflexivity|exact Hm].
  - destruct Hm as [e He]. rewrite Hp in He. right. split; [reflexivity|].
    exists e. exact He.
  - discriminate.
  - exact I.
Qed.

(** X17: what [Parse] and [ParseAndEval] return is a file with no error,
    or no file with exactly one error: parsing stops at the first
    error. *)
Theorem Parse_file_or_one_error fuel filename r scope st res p' :
  Parse Unquote ParseInt fuel filename r scope st = Ok res p' \/
  ParseAndEval Unquote ParseInt fuel filename r scope st = Ok res p' ->
  file_or_one_error res.
Proof.
  intros [H|H].
  - pose proof (parse_file_or_one_error fuel
                  (set_Filename (newParser r scope st) filename) eq_refl)
      as Hp.
    unfold Parse in H. now rewrite H in Hp.
  - pose proof (parse_file_or_one_error fuel
                  (set_Filename (set_eval (newParser r scope st) true)
                                filename) eq_refl)
      as Hp.
    unfold ParseAndEval in H. now rewrite H in Hp.
Qed.

(** X18: [Parse] and [ParseAndEval] never let the panic of [p.error]
    out to the caller. *)
Theorem Parse_recovers fuel filename r scope st q :
  Parse Unquote ParseInt fuel filename r scope st
  <> Panic errTooManyErrors q /\
  ParseAndEval Unquote ParseInt fuel filename r scope st
  <> Panic errTooManyErrors q.
Proof.
  split; intros H.
  - pose proof (parse_file_or_one_error fuel
                  (set_Filename (newParser r scope st) filename) eq_refl)
      as Hp.
    unfold Parse in H. rewrite H in Hp. now apply Hp.
  - pose proof (parse_file_or_one_error fuel
                  (set_Filename (set_eval (newParser r scope st) true)
                                filename) eq_refl)
      as Hp.
    unfold ParseAndEval in H. rewrite H in Hp. now apply Hp.
Qed.
End Reports.

Lemma Parse_file_or_one_error_witness :
  file_or_one_error
    (None, [mkParseError (ErrExpectedValue scanner.EOF)
                         (mkPosition "Android.bp" 0 1 4)]).
Proof.
  assert (returned (Parse unquote_plain parse_decimal 10 "Android.bp"
                          [tk scanner.Ident "x" 1 1; punct "=" 1 3] None [])
          = Some (None, [mkParseError (ErrExpectedValue scanner.EOF)
                                      (mkPosition "Android.bp" 0 1 4)]))
    as Hret by (vm_compute; reflexivity).
  destruct (Parse unquote_plain parse_decimal 10 "Android.bp"
                  [tk scanner.Ident "x" 1 1; punct "=" 1 3] None [])
    as [res p'| |] eqn:Run; [|discriminate Hret ..].
  injection Hret as <-.
  exact (Parse_file_or_one_error unquote_plain parse_decimal 10 "Android.bp"
           [tk scanner.Ident "x" 1 1; punct "=" 1 3] None [] res p'
           (or_introl Run)).
Defined.

(** ** What parsing an expression does to the variables *)

Lemma marks_only_refl st : marks_only st st.
Proof. apply Forall_Forall2_diag, Forall_forall. intros a _. now left. Qed.

Lemma marks_only_mark st st' a o :
  marks_only st st' -> st' !! a = Some o ->
  marks_only st (<[a := Assignment_setReferenced o true]> st').
Proof.
  intros H Ho. unfold marks_only in *.
  destruct (Forall2_lookup_r _ _ _ _ _ H Ho) as (x & Hx & Hxo).
  rewrite <- (list_insert_id st a x Hx).
  apply Forall2_insert; [exact H|].
  destruct Hxo as [->| ->]; right; reflexivity.
Qed.

Section StoreFacts.
Variable Unquote : string -> option string.
Variable ParseInt : string -> option Z.

(** X19: a run of [parseExpression] that returns leaves the scope, the
    evaluation flag and the errors as they were; in the store it changes
    nothing but the [Referenced] mark of assignments, which it may set;
    and without evaluation it leaves the store as it was. *)
Theorem parseExpression_marks_only fuel p v p' :
  parseExpression Unquote ParseInt fuel p = Ok v p' ->
  parser_scope p' = parser_scope p /\
  parser_eval p' = parser_eval p /\
  parser_errors p' = parser_errors p /\
  marks_only (parser_store p) (parser_store p') /\
  (parser_eval p = false -> parser_store p' = parser_store p).
Proof.
  intros H.
  pose (I1 := fun q : parser =>
          parser_scope q = parser_scope p /\
          parser_eval q = parser_eval p /\
          parser_errors q = parser_errors p /\
          marks_only (parser_store p) (parser_store q)).
  pose (I2 := fun q : parser =>
          parser_eval p = false ->
          parser_eval q = false /\ parser_store q = parser_store p).
  assert (keeps I1 (parseExpression Unquote ParseInt fuel) (fun _ => True))
    as H1.
  { refine (proj1 (parser_keeps Unquote ParseInt I1 (fun _ => True)
                     _ _ _ _ _ _ _ _ _ fuel)); try (intros; exact I).
    - intros q q' (He & Hs & Hst & Her) (Is & Ie & Ier & Ist).
      unfold I1. rewrite He, Hs, Hst, Her. auto.
    - intros q x q' (Is & Ie & Ier & Ist) Hv. split; [|exact I].
      apply parseVariable_Ok in Hv
        as (He & Hs & Her & name & pos & value & _ & Hcase).
      unfold I1. rewrite He, Hs, Her. repeat apply conj; try assumption.
      destruct Hcase as [(_ & _ & ->)|(_ & s & a & local & o & _ & _ & Ho & _
                                        & [->| ->])];
        [assumption|assumption|].
      now apply marks_only_mark. }
  assert (keeps I2 (parseExpression Unquote ParseInt fuel) (fun _ => True))
    as H2.
  { refine (proj1 (parser_keeps Unquote ParseInt I2 (fun _ => True)
                     _ _ _ _ _ _ _ _ _ fuel)); try (intros; exact I).
    - intros q q' (He & Hs & Hst & Her) Hq Hp. rewrite He, Hst. auto.
    - intros q x q' Hq Hv. split; [|exact I]. intros Hp.
      destruct (Hq Hp) as (Hqe & Hqs).
      apply parseVariable_Ok in Hv
        as (He & _ & _ & name & pos & value & _ & Hcase).
      split; [congruence|].
      destruct Hcase as [(_ & _ & ->)|(Hev & _)]; congruence. }
  destruct (H1 p v p') as ((Hs & He & Her & Hst) & _);
    [unfold I1; auto using marks_only_refl|exact H|].
  destruct (H2 p v p') as (Hno & _); [unfold I2; auto|exact H|].
  repeat apply conj; try assumption.
  intros Hp. exact (proj2 (Hno Hp)).
Qed.
End StoreFacts.

Lemma parseExpression_marks_only_witness :
  let p := state_after next
             (set_eval (newParser [tk scanner.Ident "x" 1 1]
                                  (Some x_scope) x_store) true) in
  let run := parseExpression unquote_plain parse_decimal 5 in
  run p = Ok (EVariable "x" (mkPosition "" 0 1 1) list_a) (state_after run p)
  /\ parser_store (state_after run p)
     = [mkAssignment "x" zeroPos list_a list_a zeroPos "=" true]
  /\ marks_only (parser_store p) (parser_store (state_after run p)).
Proof.
  intros p run.
  assert (run p = Ok (EVariable "x" (mkPosition "" 0 1 1) list_a)
                     (state_after run p)) as Run
      by (vm_compute; reflexivity).
  split; [exact Run|]. split; [vm_compute; reflexivity|].
  exact (proj1 (proj2 (proj2 (proj2
           (parseExpression_marks_only unquote_plain parse_decimal 5 p _ _
              Run))))).
Defined.

(** ** [=] on an assignment *)

Section AssignFacts.
Variable Unquote : string -> option string.
Variable ParseInt : string -> option Z.

(** X20: take [name = expr] with a scope at hand and a name that is not a
    reserved word, at the point where the expression has been parsed.
    When the scope has [name], locally or among the inherited variables,
    the parser records the error of [Scope.Add] and stops.  Otherwise it
    returns a new assignment whose [Value] and [OrigValue] are the
    expression and which is not referenced, and binds [name] to it as a
    local variable of the scope, whose other names answer as before. *)
Theorem parseAssignment_binds fuel name namePos p value p2 s :
  ~ (name = "default" \/ name = "unset") ->
  (accept (chr "=") ;; parseExpression Unquote ParseInt fuel) p
  = Ok value p2 ->
  parser_scope p2 = Some s ->
  let pos := Scanner_Position (parser_scanner p) in
  let new := mkAssignment name namePos value value pos "=" false in
  let a := length (parser_store p2) in
  let p3 := set_store p2 (parser_store p2 ++ [new]) in
  let run := parseAssignment Unquote ParseInt fuel name namePos "=" p in
  match Scope_Get s name with
  | (Some old, true) =>
      run = Panic errTooManyErrors (error_state (ErrAlreadySet name) p3)
  | (Some old, false) =>
      run = Panic errTooManyErrors
                  (error_state (ErrAlreadySetInherited name) p3)
  | (None, _) =>
      let s' := mkScope (<[name := a]> (vars s)) (inheritedVars s) in
      run = Ok a (set_scope p3 (Some s')) /\
      parser_store p3 !! a = Some new /\
      Scope_Get s' name = (Some a, true) /\
      forall other, other <> name -> Scope_Get s' other = Scope_Get s other
  end.
Proof.
  intros Hname Hrun Hscope pos new a p3 run.
  apply bind_Ok in Hrun as ([] & p1 & Hacc & Hexpr).
  assert (parser_store p3 !! a = Some new) as Hnew.
  { unfold p3, a. simpl. rewrite lookup_app_r by lia.
    now rewrite Nat.sub_diag. }
  assert (run
          = bind (bind (get parser_store) (fun st =>
                  bind (try_ (Scope_Add st s a))
                       (fun r =>
                          match snd r with
                          | Some err => parser_error err
                          | None =>
                              modify (fun p => set_scope p (Some (fst r)))
                          end)))
                 (fun _ => ret a) p3) as ->.
  { unfold run, parseAssignment.
    destruct (decide (name = "default" \/ name = "unset")); [contradiction|].
    destruct (decide ("=" = "+=")); [discriminate|].
    step (eq_refl : Position_ p = Ok pos p).
    step Hacc. step Hexpr.
    step (eq_refl : alloc new p2 = Ok a p3).
    step (eq_refl : get parser_scope p3 = Ok (parser_scope p2) p3).
    rewrite Hscope. reflexivity. }
  cbv beta iota delta [bind get].
  unfold Scope_Add. rewrite Hnew. simpl Assignment_Name.
  unfold Scope_Get.
  destruct (vars s !! name) as [old|] eqn:Ev.
  { simpl. now rewrite parser_error_eq. }
  destruct (inheritedVars s !! name) as [old|] eqn:Ei.
  { simpl. now rewrite parser_error_eq. }
  cbv zeta. repeat apply conj.
  - reflexivity.
  - reflexivity.
  - simpl. now rewrite lookup_insert_eq.
  - intros other Hne. simpl. now rewrite lookup_insert_ne by congruence.
Qed.
End AssignFacts.

Lemma parseAssignment_binds_witness :
  let p := state_after next
             (set_eval
                (newParser [punct "=" 2 4; tk scanner.String (quoted "b") 2 6]
                           (Some x_scope) x_store)
                true) in
  let run := parseAssignment unquote_plain parse_decimal 10 "y"
                             (mkPosition "" 0 2 1) "=" in
  let b := EString (mkPosition "" 0 2 6) "b" in
  exists p4,
    run p = Ok 1%nat p4 /\
    parser_scope p4 = Some (mkScope (<["y" := 1%nat]> {["x" := 0%nat]}) ∅) /\
    parser_store p4 !! 1%nat
    = Some (mkAssignment "y" (mkPosition "" 0 2 1) b b (mkPosition "" 0 2 4)
                         "=" false).
Proof.
  intros p run b.
  pose (parsed := (accept (chr "=") ;;
                   parseExpression unquote_plain parse_decimal 10)%parser).
  assert (parsed p = Ok b (state_after parsed p)) as Run
      by (vm_compute; reflexivity).
  assert (parser_scope (state_after parsed p) = Some x_scope) as Hscope
      by (vm_compute; reflexivity).
  pose proof (parseAssignment_binds unquote_plain parse_decimal 10 "y"
                (mkPosition "" 0 2 1) p b (state_after parsed p) x_scope
                ltac:(intros [?|?]; discriminate) Run Hscope) as H.
  cbv zeta in H.
  assert (Scope_Get x_scope "y" = (None, false)) as HGet by reflexivity.
  rewrite HGet in H. destruct H as (H1 & H2 & _).
  eexists. split; [exact H1|]. split.
  - reflexivity.
  - etransitivity; [|exact H2]. reflexivity.
Defined.

(** ** The conditions of a parsed select and the width of its cases *)

Section ConditionFacts.
Variable Unquote : string -> option string.
Variable ParseInt : string -> option Z.

Lemma distinct_conditions_snoc cs c :
  distinct_conditions cs ->
  find (fun d => ConfigurableCondition_Equals d c) cs = None ->
  distinct_conditions (cs ++ [c]).
Proof.
  intros Hd Hf i j ci cj Hij Hi Hj.
  apply lookup_snoc_Some in Hj as [(Hlt & Hj)|(-> & <-)].
  - rewrite lookup_app_l in Hi by lia. exact (Hd i j ci cj Hij Hi Hj).
  - rewrite lookup_app_l in Hi by lia.
    apply (find_none _ _ Hf). apply list_elem_of_In.
    exact (list_elem_of_lookup_2 _ _ _ Hi).
Qed.

Lemma parseConditions_Ok fuel :
  forall multi conditions p cs p',
    distinct_conditions conditions ->
    parseConditions Unquote fuel multi conditions p = Ok cs p' ->
    distinct_conditions cs /\
    (length conditions < length cs)%nat /\
    (multi = false -> length cs = S (length conditions)).
Proof.
  induction fuel as [|fuel IH]; intros multi conditions p cs p' Hd H;
    [discriminate|].
  simpl in H. run1 H. run1 H. run1 H. run1 H.
  destruct (find _ conditions) eqn:Hf; [now apply errorf_Ok in H|].
  pose proof (distinct_conditions_snoc _ _ Hd Hf) as Hd'.
  assert (forall q,
             Ok (conditions ++ [mkCondition
                   (Scanner_Position (parser_scanner p))
                   (Scanner_TokenText (parser_scanner p)) a]) q = Ok cs p' ->
             distinct_conditions cs /\
             (length conditions < length cs)%nat /\
             (multi = false -> length cs = S (length conditions))) as Hret.
  { intros q [= <- _]. rewrite length_app. simpl.
    repeat split; [exact Hd'|lia|intros _; lia]. }
  assert (forall q,
             parseConditions Unquote fuel multi
               (conditions ++ [mkCondition
                   (Scanner_Position (parser_scanner p))
                   (Scanner_TokenText (parser_scanner p)) a]) q = Ok cs p' ->
             multi = true ->
             distinct_conditions cs /\
             (length conditions < length cs)%nat /\
             (multi = false -> length cs = S (length conditions))) as Hrec.
  { intros q Hq ->. apply IH in Hq as (H1 & H2 & _); [|exact Hd'].
    rewrite length_app in H2. simpl in H2.
    repeat split; [exact H1|lia|discriminate]. }
  destruct multi; [|exact (Hret _ H)].
  unfold_monad_in H. destruct (decide _).
  - run1 H. exact (Hret _ H).
  - run1 H. destruct (decide _).
    + run1 H. exact (Hret _ H).
    + exact (Hrec _ H eq_refl).
Qed.

Lemma parsePatterns_length fuel :
  forall n i patterns p r p',
    parsePatterns Unquote fuel n i patterns p = Ok r p' ->
    length r = (length patterns + (n - i))%nat.
Proof.
  induction fuel as [|fuel IH]; intros n i patterns p r p' H; [discriminate|].
  simpl in H. destruct (i <? n)%nat eqn:Hin.
  - apply Nat.ltb_lt in Hin. run1 H.
    assert (forall q,
               parsePatterns Unquote fuel n (S i) (patterns ++ [a]) q
               = Ok r p' ->
               length r = (length patterns + (n - i))%nat) as Hrec.
    { intros q Hq. apply IH in Hq. rewrite length_app in Hq. simpl in Hq.
      lia. }
    destruct (i <? n - 1)%nat.
    + run1 H. exact (Hrec _ H).
    + unfold_monad_in H. destruct (decide _).
      * run1 H. exact (Hrec _ H).
      * exact (Hrec _ H).
  - apply Nat.ltb_ge in Hin. injection H as <- _. lia.
Qed.

Lemma parseCases_width fuel :
  forall (multi : bool) n cases has p r p',
    Forall (fun c => length (SelectCase_Patterns c)
                     = (if multi then n else 1%nat)) cases ->
    (has = true -> cases <> []) ->
    parseCases Unquote ParseInt fuel multi n cases has p = Ok r p' ->
    Forall (fun c => length (SelectCase_Patterns c)
                     = (if multi then n else 1%nat)) (fst r) /\
    (snd r = true -> fst r <> []).
Proof.
  induction fuel as [|fuel IH]; intros multi n cases has p r p' Hall Hhas H;
    [discriminate|].
  simpl in H. unfold_monad_in H.
  destruct (decide (parser_tok p = chr "}")); [now injection H as <- _|].
  assert (forall patterns colonPos value has' q,
             length patterns = (if multi then n else 1%nat) ->
             parseCases Unquote ParseInt fuel multi n
               (cases ++ [mkSelectCase patterns colonPos value]) has' q
             = Ok r p' ->
             Forall (fun c => length (SelectCase_Patterns c)
                              = (if multi then n else 1%nat)) (fst r) /\
             (snd r = true -> fst r <> [])) as Hrec.
  { intros patterns colonPos value has' q Hlen Hq.
    apply IH in Hq; [exact Hq| |].
    - apply Forall_app. split; [exact Hall|]. now repeat constructor.
    - intros _ E. now apply app_eq_nil in E as [_ E]. }
  destruct multi.
  - run1 H. run1 H. run1 H.
    apply parsePatterns_length in Run0. simpl in Run0.
    rewrite Nat.sub_0_r in Run0.
    run1 H.
    destruct (decide _).
    + run1 H. run1 H. exact (Hrec _ _ _ _ _ Run0 H).
    + run1 H. run1 H. exact (Hrec _ _ _ _ _ Run0 H).
  - run1 H. run1 H.
    destruct (decide _).
    + run1 H. run1 H. exact (Hrec [a] _ _ _ _ eq_refl H).
    + run1 H. run1 H. exact (Hrec [a] _ _ _ _ eq_refl H).
Qed.

(** X21: a select that [parseSelect] returns has at least one condition
    and at least one case; no condition is [Equals] to a later one; and
    every case has as many patterns as the select has conditions. *)
Theorem parseSelect_conditions fuel p v p' :
  parseSelect Unquote ParseInt fuel p = Ok v p' ->
  exists k cs l r cases ty,
    v = ESelect k cs l r cases None ty /\
    cs <> [] /\ distinct_conditions cs /\
    cases <> [] /\
    Forall (fun c => length (SelectCase_Patterns c) = length cs) cases.
Proof.
  assert (distinct_conditions []) as Hnil.
  { intros i j ci cj _ Hi. now rewrite lookup_nil in Hi. }
  assert (forall cs : list ConfigurableCondition,
             (0 < length cs)%nat -> cs <> []) as Hne.
  { intros cs Hlen ->. simpl in Hlen. lia. }
  destruct fuel as [|fuel]; [discriminate|]. simpl. intros H.
  run1 H. run1 H.
  destruct (decide (parser_tok p1 = chr "(")).
  - run1 H. run1 H.
    pose proof (parseConditions_Ok _ _ _ _ _ _ Hnil Run2) as (Hd & Hlen & _).
    destruct (true && (length a <? 2)%nat); [now apply errorf_Ok in H|].
    run1 H. run1 H. run1 H.
    apply (parseCases_width _ true) in Run5 as (Hw & Hc);
      [|constructor|discriminate].
    destruct a0 as [cases has]. simpl in H, Hw, Hc.
    destruct has; simpl in H; [|now apply errorf_Ok in H].
    destruct (checkCases 0 (length cases) cases) eqn:Hcheck;
      [now apply errorf_Ok in H|].
    destruct (casesType UnsetType cases) as [ty|] eqn:Hty;
      [|now apply errorf_Ok in H].
    run1 H. run1 H. injection H as <- <-.
    eexists _, _, _, _, _, _. split; [reflexivity|]. auto.
  - run1 H.
    pose proof (parseConditions_Ok _ _ _ _ _ _ Hnil Run1) as (Hd & Hlen & H1).
    specialize (H1 eq_refl). simpl in H1.
    destruct (false && (length a <? 2)%nat); [now apply errorf_Ok in H|].
    run1 H. run1 H. run1 H.
    apply (parseCases_width _ false) in Run4 as (Hw & Hc);
      [|constructor|discriminate].
    destruct a0 as [cases has]. simpl in H, Hw, Hc.
    destruct has; simpl in H; [|now apply errorf_Ok in H].
    destruct (checkCases 0 (length cases) cases) eqn:Hcheck;
      [now apply errorf_Ok in H|].
    destruct (casesType UnsetType cases) as [ty|] eqn:Hty;
      [|now apply errorf_Ok in H].
    run1 H. run1 H. injection H as <- <-.
    eexists _, _, _, _, _, _. split; [reflexivity|].
    rewrite H1. auto.
Qed.
End ConditionFacts.

Lemma parseSelect_conditions_witness :
  exists v p' k cs l r cases ty,
    parseSelect unquote_plain parse_decimal 20 select_two_axes = Ok v p' /\
    v = ESelect k cs l r cases None ty /\
    length cs = 2%nat /\ length cases = 3%nat /\
    Forall (fun c => length (SelectCase_Patterns c) = length cs) cases.
Proof.
  destruct (parseSelect unquote_plain parse_decimal 20 select_two_axes)
    as [v p'| |] eqn:Run; [|vm_compute in Run; discriminate Run ..].
  destruct (parseSelect_conditions unquote_plain parse_decimal 20
              select_two_axes v p' Run)
    as (k & cs & l & r & cases & ty & Hv & _ & _ & _ & Hw).
  exists v, p', k, cs, l, r, cases, ty.
  assert (length cs = 2%nat /\ length cases = 3%nat) as (Hcs & Hcases).
  { vm_compute in Run. injection Run as <- _. injection Hv as _ <- _ _ <- _.
    split; reflexivity. }
  auto 10.
Defined.

(** ** [Copy] on objects: what is new, what is shared, what it stands for *)

Lemma heap_extends_refl h : heap_extends h h.
Proof. exists []. now rewrite app_nil_r. Qed.

Lemma heap_extends_trans h1 h2 h3 :
  heap_extends h1 h2 -> heap_extends h2 h3 -> heap_extends h1 h3.
Proof. intros [a ->] [b ->]. exists (a ++ b). now rewrite app_assoc. Qed.

Lemma heap_extends_alloc h n : heap_extends h (h ++ [n]).
Proof. now exists [n]. Qed.

Lemma heap_extends_lookup h h1 (x : nat) (n : Heap.node) :
  heap_extends h h1 -> h !! x = Some n -> h1 !! x = Some n.
Proof. intros [new ->] Hx. now apply lookup_app_l_Some. Qed.

Lemma heap_extends_length h h1 :
  heap_extends h h1 -> (length h <= length h1)%nat.
Proof. intros [new ->]. rewrite length_app. lia. Qed.

Lemma all_map_ext {A B} (f g : A -> option B) l r :
  (forall a b, f a = Some b -> g a = Some b) ->
  Heap.all (map f l) = Some r -> Heap.all (map g l) = Some r.
Proof.
  intros Hfg. revert r. induction l as [|a l IH]; intros r H; [exact H|].
  simpl in *. destruct (f a) as [b|] eqn:Ea; [|discriminate].
  rewrite (Hfg _ _ Ea).
  destruct (Heap.all (map f l)) as [r'|]; [|discriminate].
  now rewrite (IH r' eq_refl).
Qed.

(** What an object stands for does not change when objects are added. *)
Lemma expression_extends n :
  forall h h1, heap_extends h h1 ->
    (forall x e, Heap.expression n h x = Some e ->
                 Heap.expression n h1 x = Some e) /\
    (forall x e, Heap.property n h x = Some e ->
                 Heap.property n h1 x = Some e) /\
    (forall x e, Heap.selectCase n h x = Some e ->
                 Heap.selectCase n h1 x = Some e).
Proof.
  induction n as [|n IH]; intros h h1 Hext.
  { repeat split; intros; discriminate. }
  destruct (IH h h1 Hext) as (IHe & IHp & IHc).
  repeat split; intros x e H; simpl in H |- *;
    destruct (h !! x) as [node|] eqn:Hx; try discriminate;
    rewrite (heap_extends_lookup _ _ _ _ Hext Hx);
    destruct node; try discriminate; try exact H;
    repeat match type of H with
           | (Heap.all (map ?f ?l) ≫= _) = Some _ =>
               let E := fresh "E" in
               destruct (Heap.all (map f l)) eqn:E; [|discriminate H];
               first [ rewrite (all_map_ext _ _ _ _ IHe E)
                     | rewrite (all_map_ext _ _ _ _ IHp E)
                     | rewrite (all_map_ext _ _ _ _ IHc E) ];
               simpl in H |- *
           | (Heap.expression n h ?a ≫= _) = Some _ =>
               let E := fresh "E" in
               destruct (Heap.expression n h a) eqn:E; [|discriminate H];
               rewrite (IHe _ _ E); simpl in H |- *
           | match ?app with Some _ => _ | None => _ end = Some _ =>
               destruct app
           end;
    exact H.
Qed.

Lemma lookup_alloc (h : list Heap.node) node :
  (h ++ [node]) !! length h = Some node.
Proof. now apply list_lookup_middle. Qed.

Section Each.
Variable B : Type.
Variable F : list Heap.node -> nat -> option B.
Variable f : nat -> list Heap.node -> option (nat * list Heap.node).
Hypothesis F_extends : forall h h1 x e,
  heap_extends h h1 -> F h x = Some e -> F h1 x = Some e.
Hypothesis f_copies : forall x h e,
  F h x = Some e ->
  exists c h1, f x h = Some (c, h1) /\ heap_extends h h1 /\
               (length h <= c)%nat /\ F h1 c = Some e.

(** The copying loops: each element is copied in turn, into new
    objects that stand for what the elements stand for. *)
Lemma each_copies vs :
  forall h es,
    Heap.all (map (F h) vs) = Some es ->
    exists vs' h',
      Heap.each f vs h = Some (vs', h') /\ heap_extends h h' /\
      Forall (fun c => (length h <= c)%nat) vs' /\
      Heap.all (map (F h') vs') = Some es.
Proof.
  induction vs as [|v vs IH]; intros h es H.
  - exists [], h. simpl in *. repeat split; auto using heap_extends_refl.
  - simpl in H. destruct (F h v) as [e0|] eqn:Ev; [|discriminate].
    destruct (Heap.all (map (F h) vs)) as [es'|] eqn:Ees; [|discriminate].
    injection H as <-.
    destruct (f_copies _ _ _ Ev) as (c & h1 & Hf & Hext & Hc & Hd).
    assert (Heap.all (map (F h1) vs) = Some es') as Ees1.
    { apply (all_map_ext (F h) (F h1)); [|exact Ees].
      intros a b. now apply F_extends. }
    destruct (IH _ _ Ees1) as (vs' & h' & Heach & Hext' & Hfresh & Hall).
    exists (c :: vs'), h'. simpl. rewrite Hf, Heach.
    repeat split.
    + exact (heap_extends_trans _ _ _ Hext Hext').
    + constructor; [exact Hc|].
      pose proof (heap_extends_length _ _ Hext) as Hlen.
      eapply Forall_impl; [exact Hfresh|]. simpl. intros. lia.
    + rewrite (F_extends _ _ _ _ Hext' Hd), Hall. reflexivity.
Qed.
End Each.

(** An object that stands for a tree can be copied with the budget that
    reads the tree; the copy is a new object in a heap that has every old
    object as it was, and it stands for the same tree. *)
Lemma Copy_copies n :
  (forall x h e,
      Heap.expression n h x = Some e ->
      exists c h1, Heap.Copy n x h = Some (c, h1) /\ heap_extends h h1 /\
                   (length h <= c)%nat /\ Heap.expression n h1 c = Some e) /\
  (forall x h e,
      Heap.property n h x = Some e ->
      exists c h1, Heap.Copy n x h = Some (c, h1) /\ heap_extends h h1 /\
                   (length h <= c)%nat /\ Heap.property n h1 c = Some e) /\
  (forall x h e,
      Heap.selectCase n h x = Some e ->
      exists c h1, Heap.Copy n x h = Some (c, h1) /\ heap_extends h h1 /\
                   (length h <= c)%nat /\ Heap.selectCase n h1 c = Some e).
Proof.
  induction n as [|n IH].
  { repeat split; intros; discriminate. }
  destruct IH as (IHe & IHp & IHc).
  assert (forall h h1 x e, heap_extends h h1 ->
            Heap.expression n h x = Some e ->
            Heap.expression n h1 x = Some e) as Xe
      by (intros h h1 x e Hext; apply (expression_extends n h h1 Hext)).
  assert (forall h h1 x e, heap_extends h h1 ->
            Heap.property n h x = Some e ->
            Heap.property n h1 x = Some e) as Xp
      by (intros h h1 x e Hext; apply (expression_extends n h h1 Hext)).
  assert (forall h h1 x e, heap_extends h h1 ->
            Heap.selectCase n h x = Some e ->
            Heap.selectCase n h1 x = Some e) as Xc
      by (intros h h1 x e Hext; apply (expression_extends n h h1 Hext)).
  assert (forall (h : list Heap.node) node,
             (length h <= length h)%nat /\
             heap_extends h (h ++ [node])) as Hnew
      by (split; [lia|apply heap_extends_alloc]).
  repeat split; intros x h e H; simpl in H |- *;
    destruct (h !! x) as [node|] eqn:Hx; try discriminate;
    destruct node; try discriminate; unfold Heap.alloc.
  - (* Bool *)
    eexists _, _. split; [reflexivity|]. split; [apply heap_extends_alloc|].
    split; [lia|]. simpl. now rewrite lookup_alloc.
  - (* String *)
    eexists _, _. split; [reflexivity|]. split; [apply heap_extends_alloc|].
    split; [lia|]. simpl. now rewrite lookup_alloc.
  - (* Int64 *)
    eexists _, _. split; [reflexivity|]. split; [apply heap_extends_alloc|].
    split; [lia|]. simpl. now rewrite lookup_alloc.
  - (* List *)
    destruct (Heap.all (map (Heap.expression n h) Values)) as [es|] eqn:Ees;
      [|discriminate].
    destruct (each_copies _ (Heap.expression n) (Heap.Copy n) Xe IHe _ _ _ Ees)
      as (vs' & h' & Heach & Hext & _ & Hall).
    rewrite Heach. eexists _, _. split; [reflexivity|].
    split; [exact (heap_extends_trans _ _ _ Hext (heap_extends_alloc _ _))|].
    split; [exact (heap_extends_length _ _ Hext)|].
    simpl. rewrite lookup_alloc.
    rewrite (all_map_ext _ _ _ _
               (fun a b => Xe _ _ a b (heap_extends_alloc h' _)) Hall).
    exact H.
  - (* Map *)
    destruct (Heap.all (map (Heap.property n h) Properties)) as [es|] eqn:Ees;
      [|discriminate].
    destruct (each_copies _ (Heap.property n) (Heap.Copy n) Xp IHp _ _ _ Ees)
      as (vs' & h' & Heach & Hext & _ & Hall).
    rewrite Heach. eexists _, _. split; [reflexivity|].
    split; [exact (heap_extends_trans _ _ _ Hext (heap_extends_alloc _ _))|].
    split; [exact (heap_extends_length _ _ Hext)|].
    simpl. rewrite lookup_alloc.
    rewrite (all_map_ext _ _ _ _
               (fun a b => Xp _ _ a b (heap_extends_alloc h' _)) Hall).
    exact H.
  - (* Variable *)
    destruct (Heap.expression n h Value) as [v'|] eqn:Ev; [|discriminate].
    eexists _, _. split; [reflexivity|]. split; [apply heap_extends_alloc|].
    split; [lia|]. simpl. rewrite lookup_alloc.
    rewrite (Xe _ _ _ _ (heap_extends_alloc h _) Ev). exact H.
  - (* Operator *)
    destruct (Heap.expression n h Args0) as [e0|] eqn:E0; [|discriminate].
    destruct (Heap.expression n h Args1) as [e1|] eqn:E1; [|discriminate].
    destruct (Heap.expression n h Value) as [v'|] eqn:Ev; [|discriminate].
    destruct (IHe _ _ _ E0) as (c0 & h0 & HC0 & Hext0 & _ & Hd0).
    destruct (IHe _ _ _ (Xe _ _ _ _ Hext0 E1))
      as (c1 & h1 & HC1 & Hext1 & _ & Hd1).
    rewrite HC0, HC1. eexists _, _. split; [reflexivity|].
    pose proof (heap_extends_trans _ _ _ Hext0 Hext1) as Hext.
    split; [exact (heap_extends_trans _ _ _ Hext (heap_extends_alloc _ _))|].
    split; [exact (heap_extends_length _ _ Hext)|].
    simpl. rewrite lookup_alloc.
    rewrite (Xe _ _ _ _ (heap_extends_trans _ _ _ Hext1
                           (heap_extends_alloc _ _)) Hd0).
    rewrite (Xe _ _ _ _ (heap_extends_alloc h1 _) Hd1).
    rewrite (Xe _ _ _ _ (heap_extends_trans _ _ _ Hext
                           (heap_extends_alloc _ _)) Ev).
    exact H.
  - (* Select *)
    destruct (Heap.all (map (Heap.selectCase n h) Cases)) as [es|] eqn:Ees;
      [|discriminate].
    destruct (each_copies _ (Heap.selectCase n) (Heap.Copy n) Xc IHc _ _ _ Ees)
      as (vs' & h' & Heach & Hext & _ & Hall).
    rewrite Heach. simpl in H. destruct Append as [a|].
    + destruct (Heap.expression n h a) as [a'|] eqn:Ea; [|discriminate].
      destruct (IHe _ _ _ (Xe _ _ _ _ Hext Ea))
        as (ca & ha & HCa & Hexta & _ & Hda).
      rewrite HCa. eexists _, _. split; [reflexivity|].
      pose proof (heap_extends_trans _ _ _ Hext Hexta) as Hext'.
      split; [exact (heap_extends_trans _ _ _ Hext'
                       (heap_extends_alloc _ _))|].
      split; [exact (heap_extends_length _ _ Hext')|].
      simpl. rewrite lookup_alloc.
      rewrite (all_map_ext _ _ _ _
                 (fun a b => Xc _ _ a b
                    (heap_extends_trans _ _ _ Hexta (heap_extends_alloc _ _)))
                 Hall).
      simpl. rewrite (Xe _ _ _ _ (heap_extends_alloc ha _) Hda). exact H.
    + eexists _, _. split; [reflexivity|].
      split; [exact (heap_extends_trans _ _ _ Hext (heap_extends_alloc _ _))|].
      split; [exact (heap_extends_length _ _ Hext)|].
      simpl. rewrite lookup_alloc.
      rewrite (all_map_ext _ _ _ _
                 (fun a b => Xc _ _ a b (heap_extends_alloc h' _)) Hall).
      exact H.
  - (* NotEvaluated *)
    eexists _, _. split; [reflexivity|]. split; [apply heap_extends_alloc|].
    split; [lia|]. simpl. now rewrite lookup_alloc.
  - (* UnsetProperty *)
    eexists _, _. split; [reflexivity|]. split; [apply heap_extends_alloc|].
    split; [lia|]. simpl. now rewrite lookup_alloc.
  - (* Property *)
    destruct (Heap.expression n h Value) as [v'|] eqn:Ev; [|discriminate].
    destruct (IHe _ _ _ Ev) as (cv & hv & HCv & Hextv & _ & Hdv).
    rewrite HCv. eexists _, _. split; [reflexivity|].
    split; [exact (heap_extends_trans _ _ _ Hextv (heap_extends_alloc _ _))|].
    split; [exact (heap_extends_length _ _ Hextv)|].
    simpl. rewrite lookup_alloc.
    rewrite (Xe _ _ _ _ (heap_extends_alloc hv _) Hdv). exact H.
  - (* SelectCase *)
    destruct (Heap.all (map (Heap.expression n h) Patterns)) as [ps'|] eqn:Eps;
      [|discriminate].
    simpl in H.
    destruct (Heap.expression n h Value) as [v'|] eqn:Ev; [|discriminate].
    destruct (IHe _ _ _ Ev) as (cv & hv & HCv & Hextv & _ & Hdv).
    rewrite HCv. eexists _, _. split; [reflexivity|].
    split; [exact (heap_extends_trans _ _ _ Hextv (heap_extends_alloc _ _))|].
    split; [exact (heap_extends_length _ _ Hextv)|].
    simpl. rewrite lookup_alloc.
    rewrite (all_map_ext _ _ _ _
               (fun a b => Xe _ _ a b
                  (heap_extends_trans _ _ _ Hextv (heap_extends_alloc _ _)))
               Eps).
    simpl. rewrite (Xe _ _ _ _ (heap_extends_alloc hv _) Hdv). exact H.
Qed.

Lemma each_extends f :
  (forall x h c h1, f x h = Some (c, h1) -> heap_extends h h1) ->
  forall vs h vs' h',
    Heap.each f vs h = Some (vs', h') -> heap_extends h h'.
Proof.
  intros Hf vs. induction vs as [|v vs IH]; intros h vs' h' H; simpl in H.
  - injection H as _ <-. apply heap_extends_refl.
  - destruct (f v h) as [[c h1]|] eqn:Ef; [|discriminate].
    destruct (Heap.each f vs h1) as [[rest h2]|] eqn:Er; [|discriminate].
    injection H as _ <-.
    exact (heap_extends_trans _ _ _ (Hf _ _ _ _ Ef) (IH _ _ _ Er)).
Qed.

(** [Copy] only adds objects, and the copy is the last one added. *)
Lemma Copy_extends n :
  forall x h c h1,
    Heap.Copy n x h = Some (c, h1) ->
    heap_extends h h1 /\ (length h <= c)%nat /\ S c = length h1.
Proof.
  induction n as [|n IH]; intros x h c h1 H; [discriminate|].
  assert (forall x h c h1, Heap.Copy n x h = Some (c, h1) ->
                           heap_extends h h1) as IHx
      by (intros; eapply IH; eassumption).
  assert (forall h' node,
             heap_extends h h' ->
             Some (Heap.alloc node h') = Some (c, h1) ->
             heap_extends h h1 /\ (length h <= c)%nat /\ S c = length h1)
    as Hdone.
  { intros h' node Hext [= <- <-]. repeat split.
    - exact (heap_extends_trans _ _ _ Hext (heap_extends_alloc _ _)).
    - exact (heap_extends_length _ _ Hext).
    - rewrite length_app. simpl. lia. }
  simpl in H. destruct (h !! x) as [node|]; [|discriminate].
  destruct node;
    try exact (Hdone _ _ (heap_extends_refl h) H).
  - destruct (Heap.each _ _ h) as [[vs' h']|] eqn:E; [|discriminate].
    exact (Hdone _ _ (each_extends _ IHx _ _ _ _ E) H).
  - destruct (Heap.each _ _ h) as [[vs' h']|] eqn:E; [|discriminate].
    exact (Hdone _ _ (each_extends _ IHx _ _ _ _ E) H).
  - destruct (Heap.Copy n Args0 h) as [[a0 h0]|] eqn:E0; [|discriminate].
    destruct (Heap.Copy n Args1 h0) as [[a1 h']|] eqn:E1; [|discriminate].
    exact (Hdone _ _ (heap_extends_trans _ _ _ (IHx _ _ _ _ E0)
                        (IHx _ _ _ _ E1)) H).
  - destruct (Heap.each _ _ h) as [[vs' h']|] eqn:E; [|discriminate].
    pose proof (each_extends _ IHx _ _ _ _ E) as Hext.
    destruct Append as [a|].
    + destruct (Heap.Copy n a h') as [[a' ha]|] eqn:Ea; [|discriminate].
      exact (Hdone _ _ (heap_extends_trans _ _ _ Hext (IHx _ _ _ _ Ea)) H).
    + exact (Hdone _ _ Hext H).
  - destruct (Heap.Copy n Value h) as [[v' hv]|] eqn:Ev; [|discriminate].
    exact (Hdone _ _ (IHx _ _ _ _ Ev) H).
  - destruct (Heap.Copy n Value h) as [[v' hv]|] eqn:Ev; [|discriminate].
    exact (Hdone _ _ (IHx _ _ _ _ Ev) H).
Qed.

(** X22: an object that stands for an expression can be copied, with the
    budget that reads the expression.  The copy is an object that was
    not there before, every object that was there is as it was, and both
    the copy and the original stand for the expression afterwards. *)
Theorem Copy_stands_for_the_same n x h e :
  Heap.expression n h x = Some e ->
  exists c h1,
    Heap.Copy n x h = Some (c, h1) /\
    h !! c = None /\
    (forall a node, h !! a = Some node -> h1 !! a = Some node) /\
    Heap.expression n h1 c = Some e /\
    Heap.expression n h1 x = Some e.
Proof.
  intros H.
  destruct (proj1 (Copy_copies n) x h e H) as (c & h1 & HC & Hext & Hc & Hd).
  exists c, h1. repeat split.
  - exact HC.
  - now apply lookup_ge_None_2.
  - intros a node. now apply heap_extends_lookup.
  - exact Hd.
  - exact (proj1 (expression_extends n h h1 Hext) x e H).
Qed.

Lemma Copy_stands_for_the_same_witness :
  let h := [Heap.NString zeroPos "a"; Heap.NString zeroPos "b";
            Heap.NList zeroPos zeroPos [0; 1]%nat] in
  exists c h1,
    Heap.Copy 2 2 h = Some (c, h1) /\
    h !! c = None /\
    (forall a node, h !! a = Some node -> h1 !! a = Some node) /\
    Heap.expression 2 h1 c
    = Some (EList zeroPos zeroPos [EString zeroPos "a"; EString zeroPos "b"])
    /\
    Heap.expression 2 h1 2
    = Some (EList zeroPos zeroPos [EString zeroPos "a"; EString zeroPos "b"]).
Proof.
  intros h. exact (Copy_stands_for_the_same 2 2 h _ eq_refl).
Defined.

(** X23: the copy of an operator or of a variable is another object than
    the original, and its [Value] is the very object that is the [Value]
    of the original: [Copy] does not copy what [Value] refers to. *)
Theorem Copy_shares_Value n x h c h1 v :
  Heap.Copy n x h = Some (c, h1) ->
  Heap.Value_of h x = Some v ->
  c <> x /\ Heap.Value_of h1 c = Some v /\ Heap.Value_of h1 x = Some v.
Proof.
  intros HC Hv.
  destruct (Copy_extends _ _ _ _ _ HC) as (Hext & Hc & Hlen).
  assert (x < length h)%nat as Hx.
  { unfold Heap.Value_of in Hv. destruct (h !! x) eqn:E; [|discriminate].
    exact (lookup_lt_Some _ _ _ E). }
  split; [lia|]. split.
  - destruct n as [|n]; [discriminate|]. simpl in HC.
    unfold Heap.Value_of in Hv |- *.
    destruct (h !! x) as [node|]; [|discriminate].
    destruct node; try discriminate; injection Hv as ->.
    + injection HC as <- <-. now rewrite lookup_alloc.
    + destruct (Heap.Copy n Args0 h) as [[a0 h0]|]; [|discriminate].
      destruct (Heap.Copy n Args1 h0) as [[a1 h']|]; [|discriminate].
      injection HC as <- <-. now rewrite lookup_alloc.
  - unfold Heap.Value_of in Hv |- *.
    destruct (h !! x) as [node|] eqn:E; [|discriminate].
    now rewrite (heap_extends_lookup _ _ _ _ Hext E).
Qed.

Lemma Copy_shares_Value_witness :
  let h := [Heap.NString zeroPos "x"; Heap.NVariable "v" zeroPos 0]%nat in
  let h1 := h ++ [Heap.NVariable "v" zeroPos 0]%nat in
  (2 <> 1)%nat /\ Heap.Value_of h1 2 = Some 0%nat /\
  Heap.Value_of h1 1 = Some 0%nat.
Proof.
  intros h h1.
  exact (Copy_shares_Value 1 1 h 2 h1 0 eq_refl eq_refl).
Defined.

(** ** The parser comes to an end *)

Lemma ends_ret {A} (a : A) p (Q : A -> parser -> Prop) :
  Q a p -> ends (ret a) p Q.
Proof. intros H. exact H. Qed.

Lemma ends_bind {A B} (m : M A) (k : A -> M B) p (Q : B -> parser -> Prop) :
  ends m p (fun a p' => ends (k a) p' Q) -> ends (bind m k) p Q.
Proof.
  unfold ends, bind. destruct (m p) as [a p'|v p'|]; auto.
Qed.

Lemma ends_weaken {A} (m : M A) p (Q Q' : A -> parser -> Prop) :
  ends m p Q -> (forall a p', Q a p' -> Q' a p') -> ends m p Q'.
Proof. unfold ends. destruct (m p); auto. Qed.

Lemma ends_get {A B} (f : parser -> A) (k : A -> M B) p
    (Q : B -> parser -> Prop) :
  ends (k (f p)) p Q -> ends (bind (get f) k) p Q.
Proof. intros H. exact H. Qed.

Lemma ends_modify (f : parser -> parser) p (Q : unit -> parser -> Prop) :
  Q tt (f p) -> ends (modify f) p Q.
Proof. intros H. exact H. Qed.

Lemma ends_parser_error {A} (e : error) p (Q : A -> parser -> Prop) :
  ends (parser_error e) p Q.
Proof. unfold ends. now rewrite parser_error_eq. Qed.

Lemma ends_errorf {A} (e : error) p (Q : A -> parser -> Prop) :
  ends (errorf e) p Q.
Proof. apply ends_parser_error. Qed.

Lemma ends_panic {A} v p (Q : A -> parser -> Prop) : ends (panic v) p Q.
Proof. exact I. Qed.

Lemma ends_try {A} (o : outcome A) p (Q : A -> parser -> Prop) :
  o <> OutOfFuel -> (forall a, o = Return a -> Q a p) -> ends (try_ o) p Q.
Proof.
  intros Hf HQ. destruct o; simpl.
  - now apply HQ.
  - apply ends_parser_error.
  - exact I.
  - contradiction.
Qed.

Lemma remaining_le p :
  (remaining p <= S (length (Scanner_src (parser_scanner p))))%nat.
Proof. unfold remaining. destruct (decide _); lia. Qed.

Lemma ends_Scan p (Q : rune -> parser -> Prop) :
  (forall t p',
      parser_tok p' = parser_tok p ->
      (t = scanner.EOF \/
       S (length (Scanner_src (parser_scanner p')))
       = length (Scanner_src (parser_scanner p))) ->
      (length (Scanner_src (parser_scanner p'))
       <= length (Scanner_src (parser_scanner p)))%nat ->
      Q t p') ->
  ends Scan p Q.
Proof.
  intros HQ. unfold ends. pose proof (Scan_cases p) as HS.
  destruct (Scan p) as [t p'|v p'|]; [|exact I|exact HS].
  destruct HS as (_ & Ht & [(E & -> & E')|(x & E & _)]).
  - apply HQ; [exact Ht|now left|rewrite E, E'; lia].
  - apply HQ; [exact Ht|right; now rewrite E|rewrite E; simpl; lia].
Qed.

Lemma ends_next_comments turns : forall comments p,
  (parser_tok p = scanner.Comment ->
   (length (Scanner_src (parser_scanner p)) < turns)%nat) ->
  ends (next_comments turns comments) p
       (fun _ p' => (length (Scanner_src (parser_scanner p'))
                     <= length (Scanner_src (parser_scanner p)))%nat).
Proof.
  induction turns as [|turns IH]; intros comments p Hlen; simpl;
    unfold tok; apply ends_get.
  - destruct (decide _) as [Et|Nt]; [specialize (Hlen Et); lia|].
    apply ends_modify. simpl. lia.
  - destruct (decide _) as [Et|Nt]; [|apply ends_modify; simpl; lia].
    specialize (Hlen Et).
    assert (forall q comments',
               Scanner_src (parser_scanner q) = Scanner_src (parser_scanner p) ->
               ends (bind Scan (fun t =>
                       bind (modify (fun p => set_tok p t)) (fun _ =>
                         next_comments turns comments'))) q
                    (fun _ p' => (length (Scanner_src (parser_scanner p'))
                                  <= length (Scanner_src (parser_scanner p)))%nat))
      as Hgo.
    { intros q comments' Hq. apply ends_bind, ends_Scan.
      intros t q' _ Hcons Hle. apply ends_bind, ends_modify.
      eapply ends_weaken.
      - apply IH. simpl. intros Ea.
        destruct Hcons as [->|Hcons]; [discriminate|].
        rewrite Hq in Hcons. lia.
      - simpl. intros _ p' Hp'. rewrite Hq in Hle. lia. }
    unfold TokenText, Position_. apply ends_get, ends_get, ends_bind.
    destruct (last comments) as [c|].
    + destruct (_ <? _).
      * apply ends_bind, ends_modify, ends_ret. now apply Hgo.
      * apply ends_ret. now apply Hgo.
    + apply ends_ret. now apply Hgo.
Qed.

Lemma ends_next p (Q : unit -> parser -> Prop) :
  (forall p',
      (remaining p' <= remaining p)%nat ->
      (parser_tok p <> scanner.EOF -> (remaining p' < remaining p)%nat) ->
      Q tt p') ->
  ends next p Q.
Proof.
  intros HQ. unfold next. apply ends_get.
  destruct (decide _) as [Et|Nt].
  { apply ends_ret, HQ; [lia|contradiction]. }
  assert (remaining p = S (length (Scanner_src (parser_scanner p)))) as Hp.
  { unfold remaining. now rewrite decide_False. }
  apply ends_bind, ends_Scan. intros t p1 _ Hcons Hle.
  apply ends_bind, ends_modify.
  assert (forall p' : parser,
             (parser_tok p' = scanner.EOF \/
              (length (Scanner_src (parser_scanner p'))
               <= length (Scanner_src (parser_scanner p1)))%nat /\
              t <> scanner.EOF) ->
             Q tt p') as Hend.
  { intros p' Hp'.
    assert (remaining p' < remaining p)%nat as Hlt.
    { rewrite Hp. destruct Hp' as [E|(Hle' & Nt')].
      - unfold remaining. rewrite decide_True by exact E. lia.
      - destruct Hcons as [E|Hcons]; [contradiction|].
        pose proof (remaining_le p'). lia. }
    apply HQ; [lia|intros _; exact Hlt]. }
  destruct (decide _) as [Ec|Nc].
  - apply ends_get. eapply ends_weaken.
    + apply ends_next_comments. simpl. lia.
    + simpl. intros [] p' Hp'. apply Hend. right.
      split; [exact Hp'|]. rewrite Ec. discriminate.
  - apply ends_ret. apply Hend.
    destruct (decide (t = scanner.EOF)) as [E|N]; [now left|].
    right. simpl. split; [lia|exact N].
Qed.

Lemma ends_accept want p (Q : unit -> parser -> Prop) :
  (forall p',
      parser_tok p = want ->
      (remaining p' <= remaining p)%nat ->
      (want <> scanner.EOF -> (remaining p' < remaining p)%nat) ->
      Q tt p') ->
  ends (accept want) p Q.
Proof.
  intros HQ. unfold accept. apply ends_get.
  destruct (decide _) as [E|N]; [|apply ends_errorf].
  apply ends_next. intros p' Hle Hlt. apply HQ; [exact E|exact Hle|].
  intros Hw. apply Hlt. now rewrite E.
Qed.

Lemma ends_deref a p (Q : Assignment -> parser -> Prop) :
  (forall x, Q x p) -> ends (deref a) p Q.
Proof.
  intros HQ. unfold deref. apply ends_get.
  destruct (_ !! _); [apply ends_ret, HQ|apply ends_panic].
Qed.

Lemma ends_assign a x p (Q : unit -> parser -> Prop) :
  (forall p', remaining p' = remaining p -> Q tt p') -> ends (assign a x) p Q.
Proof. intros HQ. apply ends_modify, HQ. reflexivity. Qed.

Lemma ends_alloc x p (Q : ptr -> parser -> Prop) :
  (forall a p', remaining p' = remaining p -> Q a p') -> ends (alloc x) p Q.
Proof.
  intros HQ. unfold alloc. apply ends_get, ends_bind, ends_modify, ends_ret, HQ.
  reflexivity.
Qed.

(** The token at hand is not [EOF] when it is known to be another one. *)
Ltac tok_not_EOF :=
  let E := fresh in
  intros E;
  match goal with
  | e : parser_tok _ = _ |- _ =>
      rewrite E in e; cbv in e; discriminate e
  | e : parser_tok _ = _ \/ parser_tok _ = _ |- _ =>
      destruct e as [e|e]; rewrite E in e; cbv in e; discriminate e
  end.

(** Walk through a sequence of calls: a read of the state is made on the
    spot, an [accept] leaves what it says about the tokens left, a
    condition is split. *)
Ltac ends_step :=
  lazymatch goal with
  | |- ends (ret _) _ _ => apply ends_ret
  | |- ends (errorf _) _ _ => apply ends_errorf
  | |- ends (parser_error _) _ _ => apply ends_parser_error
  | |- ends (panic _) _ _ => apply ends_panic
  | |- ends exhausted _ _ => fail
  | |- ends (bind (get _) _) _ _ => apply ends_get
  | |- ends (bind tok _) _ _ => unfold tok at 1; apply ends_get
  | |- ends (bind Position_ _) _ _ => unfold Position_ at 1; apply ends_get
  | |- ends (bind TokenText _) _ _ => unfold TokenText at 1; apply ends_get
  | |- ends (bind (accept _) _) _ _ =>
      let Hlt := fresh "Hlt" in
      apply ends_bind, ends_accept; intros ? ? ? Hlt;
      try specialize (Hlt ltac:(vm_compute; discriminate))
  | |- ends (accept _) _ _ =>
      let Hlt := fresh "Hlt" in
      apply ends_accept; intros ? ? ? Hlt;
      try specialize (Hlt ltac:(vm_compute; discriminate))
  | |- ends (bind next _) _ _ =>
      let Hlt := fresh "Hlt" in
      apply ends_bind, ends_next; intros ? ? Hlt;
      try specialize (Hlt ltac:(tok_not_EOF))
  | |- ends next _ _ =>
      let Hlt := fresh "Hlt" in
      apply ends_next; intros ? ? Hlt;
      try specialize (Hlt ltac:(tok_not_EOF))
  | |- ends (bind (deref _) _) _ _ => apply ends_bind, ends_deref; intros ?
  | |- ends (bind (assign _ _) _) _ _ =>
      apply ends_bind, ends_assign; intros ? ?
  | |- ends (assign _ _) _ _ => apply ends_assign; intros ? ?
  | |- ends (bind (alloc _) _) _ _ =>
      apply ends_bind, ends_alloc; intros ? ? ?
  | |- ends (bind (if _ then _ else _) _) _ _ => apply ends_bind
  | |- ends (bind (match _ with _ => _ end) _) _ _ => apply ends_bind
  | |- ends (if ?c then _ else _) _ _ => destruct c
  | |- ends (match ?x with _ => _ end) _ _ => destruct x
  | |- ends (let _ := _ in _) _ _ => cbv zeta
  | |- ends ((fun _ => _) _) _ _ => cbv beta
  | |- (fun _ _ => _) _ _ => cbv beta
  end.

Ltac ends_walk := repeat ends_step.

(** A call of a function whose end is known, inside a sequence and at its
    end. *)
Ltac ends_call lemma :=
  lazymatch goal with
  | |- ends (bind _ _) _ _ =>
      let H := fresh "H" in
      apply ends_bind; eapply ends_weaken;
      [first [apply lemma; [lia]|apply lemma]
      |intros ? ? H; cbv beta in H |- *]
  | |- ends _ _ _ =>
      let H := fresh "H" in
      eapply ends_weaken;
      [first [apply lemma; [lia]|apply lemma]
      |intros ? ? H; cbv beta in H |- *]
  end.

(** The same with whichever assumption at hand fits the call. *)
Ltac ends_hyp :=
  match goal with
  | IH : forall _, _ |- _ => ends_call IH
  end.

Section Terminates.
Variable Unquote : string -> option string.
Variable ParseInt : string -> option Z.

Lemma ends_parseStringValue p :
  ends (parseStringValue Unquote) p
       (fun _ p' => (remaining p' <= remaining p)%nat /\
                    (parser_tok p <> scanner.EOF ->
                     (remaining p' < remaining p)%nat)).
Proof.
  unfold parseStringValue. ends_walk. split; [lia|assumption].
Qed.

Lemma ends_parseIntValue p :
  ends (parseIntValue ParseInt) p
       (fun _ p' => (remaining p' < remaining p)%nat).
Proof. unfold parseIntValue. ends_walk; lia. Qed.

Lemma ends_parseBoolean p :
  ends parseBoolean p (fun _ p' => (remaining p' < remaining p)%nat).
Proof. unfold parseBoolean. ends_walk; lia. Qed.

Lemma ends_parseVariable p :
  ends parseVariable p (fun _ p' => (remaining p' < remaining p)%nat).
Proof. unfold parseVariable. ends_walk; lia. Qed.

Lemma ends_parseOnePattern p :
  ends (parseOnePattern Unquote) p
       (fun _ p' => (remaining p' < remaining p)%nat).
Proof.
  unfold parseOnePattern. ends_walk; try lia.
  ends_call ends_parseStringValue.
  destruct H as (_ & Hlt). specialize (Hlt ltac:(tok_not_EOF)).
  ends_walk. lia.
Qed.
Lemma ends_parseConditionArgs fuel :
  forall args p,
    (4 * remaining p + 1 <= fuel)%nat ->
    ends (parseConditionArgs Unquote fuel args) p
         (fun _ p' => (remaining p' <= remaining p)%nat).
Proof.
  induction fuel as [|fuel IH]; intros args p Hf; [lia|].
  simpl. ends_walk; try lia.
  ends_call ends_parseStringValue. destruct H as (Hle & _).
  ends_walk; try lia.
  ends_call IH. lia.
Qed.

Lemma ends_parseConditions fuel :
  forall multi conditions p,
    (4 * remaining p + 1 <= fuel)%nat ->
    ends (parseConditions Unquote fuel multi conditions) p
         (fun _ p' => (remaining p' < remaining p)%nat).
Proof.
  induction fuel as [|fuel IH]; intros multi conditions p Hf; [lia|].
  simpl. ends_walk.
  ends_call ends_parseConditionArgs.
  ends_walk; try lia.
  ends_call IH. lia.
Qed.

Lemma ends_parsePatterns fuel :
  forall n i patterns p,
    (4 * remaining p + 1 <= fuel)%nat ->
    ends (parsePatterns Unquote fuel n i patterns) p
         (fun _ p' => (remaining p' <= remaining p)%nat).
Proof.
  induction fuel as [|fuel IH]; intros n i patterns p Hf; [lia|].
  simpl. ends_walk; try lia.
  ends_call ends_parseOnePattern. ends_walk; ends_call IH; lia.
Qed.

(** One more unit of budget: what each function of the mutual recursion
    does with it, given what the functions it calls do with the rest.
    The budget a function asks for is four units for each token left and
    up to four more, by its place in the chain of calls that read no
    token. *)
Section Step.
Variable fuel : nat.
Hypothesis IHe : forall p,
  (4 * remaining p + 3 <= fuel)%nat ->
  ends (parseExpression Unquote ParseInt fuel) p
       (fun _ p' => (remaining p' < remaining p)%nat).
Hypothesis IHo : forall value1 p,
  (4 * remaining p + 4 <= fuel)%nat ->
  ends (parseOperator Unquote ParseInt fuel value1) p
       (fun _ p' => (remaining p' <= remaining p)%nat).
Hypothesis IHv : forall p,
  (4 * remaining p + 2 <= fuel)%nat ->
  ends (parseValue Unquote ParseInt fuel) p
       (fun _ p' => (remaining p' < remaining p)%nat).
Hypothesis IHs : forall p,
  (4 * remaining p + 1 <= fuel)%nat ->
  ends (parseSelect Unquote ParseInt fuel) p
       (fun _ p' => (remaining p' < remaining p)%nat).
Hypothesis IHc : forall multi n cases has p,
  (4 * remaining p + 1 <= fuel)%nat ->
  ends (parseCases Unquote ParseInt fuel multi n cases has) p
       (fun _ p' => (remaining p' <= remaining p)%nat).
Hypothesis IHl : forall p,
  (4 * remaining p + 1 <= fuel)%nat ->
  ends (parseListValue Unquote ParseInt fuel) p
       (fun _ p' => (remaining p' < remaining p)%nat).
Hypothesis IHle : forall elements p,
  (4 * remaining p + 4 <= fuel)%nat ->
  ends (parseListElements Unquote ParseInt fuel elements) p
       (fun _ p' => (remaining p' <= remaining p)%nat).
Hypothesis IHm : forall p,
  (4 * remaining p + 1 <= fuel)%nat ->
  ends (parseMapValue Unquote ParseInt fuel) p
       (fun _ p' => (remaining p' < remaining p)%nat).
Hypothesis IHpl : forall isModule compat properties p,
  (4 * remaining p + 2 <= fuel)%nat ->
  ends (parsePropertyList Unquote ParseInt fuel isModule compat properties) p
       (fun _ p' => (remaining p' <= remaining p)%nat).
Hypothesis IHp : forall isModule compat p,
  (4 * remaining p + 1 <= fuel)%nat ->
  ends (parseProperty Unquote ParseInt fuel isModule compat) p
       (fun _ p' => (remaining p' < remaining p)%nat).

Lemma step_parseExpression p :
  (4 * remaining p + 3 <= S fuel)%nat ->
  ends (parseExpression Unquote ParseInt (S fuel)) p
       (fun _ p' => (remaining p' < remaining p)%nat).
Proof.
  intros Hf. simpl. ends_call IHv. ends_walk; try lia.
  ends_call IHo. lia.
Qed.

Lemma step_parseOperator value1 p :
  (4 * remaining p + 4 <= S fuel)%nat ->
  ends (parseOperator Unquote ParseInt (S fuel) value1) p
       (fun _ p' => (remaining p' <= remaining p)%nat).
Proof.
  intros Hf. simpl. ends_walk. ends_call IHe. ends_walk.
  apply ends_try; [apply evaluateOperator_fuel_enough|intros; lia].
Qed.

Lemma step_parseValue p :
  (4 * remaining p + 2 <= S fuel)%nat ->
  ends (parseValue Unquote ParseInt (S fuel)) p
       (fun _ p' => (remaining p' < remaining p)%nat).
Proof.
  intros Hf. simpl. ends_walk;
    try solve [ ends_call ends_parseBoolean; lia
              | ends_call ends_parseVariable; lia
              | ends_call ends_parseIntValue; lia
              | ends_call IHs; lia
              | ends_call IHl; lia
              | ends_call IHm; lia ].
  ends_call ends_parseStringValue.
  destruct H as (_ & Hlt). specialize (Hlt ltac:(tok_not_EOF)).
  ends_walk. lia.
Qed.

Lemma step_parseSelect p :
  (4 * remaining p + 1 <= S fuel)%nat ->
  ends (parseSelect Unquote ParseInt (S fuel)) p
       (fun _ p' => (remaining p' < remaining p)%nat).
Proof.
  intros Hf. simpl. ends_walk.
  - ends_call ends_parseConditions. ends_walk. ends_call IHc.
    ends_walk; lia.
  - ends_call ends_parseConditions. ends_walk. ends_call IHc.
    ends_walk; lia.
Qed.
Lemma step_parseCases multi n cases has p :
  (4 * remaining p + 1 <= S fuel)%nat ->
  ends (parseCases Unquote ParseInt (S fuel) multi n cases has) p
       (fun _ p' => (remaining p' <= remaining p)%nat).
Proof.
  intros Hf. simpl. ends_walk; try lia.
  - ends_call ends_parsePatterns. ends_walk.
    + ends_call IHc. lia.
    + ends_call IHe. ends_walk. ends_call IHc. lia.
  - ends_call ends_parseOnePattern. ends_walk.
    + ends_call IHc. lia.
    + ends_call IHe. ends_walk. ends_call IHc. lia.
Qed.

Lemma step_parseListValue p :
  (4 * remaining p + 1 <= S fuel)%nat ->
  ends (parseListValue Unquote ParseInt (S fuel)) p
       (fun _ p' => (remaining p' < remaining p)%nat).
Proof.
  intros Hf. simpl. ends_walk. ends_call IHle. ends_walk. lia.
Qed.

Lemma step_parseListElements elements p :
  (4 * remaining p + 4 <= S fuel)%nat ->
  ends (parseListElements Unquote ParseInt (S fuel) elements) p
       (fun _ p' => (remaining p' <= remaining p)%nat).
Proof.
  intros Hf. simpl. ends_walk; try lia.
  ends_call IHe. ends_walk; try lia.
  ends_call IHle. lia.
Qed.

Lemma step_parseMapValue p :
  (4 * remaining p + 1 <= S fuel)%nat ->
  ends (parseMapValue Unquote ParseInt (S fuel)) p
       (fun _ p' => (remaining p' < remaining p)%nat).
Proof.
  intros Hf. simpl. ends_walk. ends_call IHpl. ends_walk. lia.
Qed.

Lemma step_parsePropertyList isModule compat properties p :
  (4 * remaining p + 2 <= S fuel)%nat ->
  ends (parsePropertyList Unquote ParseInt (S fuel) isModule compat
                          properties) p
       (fun _ p' => (remaining p' <= remaining p)%nat).
Proof.
  intros Hf. simpl. ends_walk; try lia.
  ends_call IHp. ends_walk; try lia.
  ends_call IHpl. lia.
Qed.

Lemma step_parseProperty isModule compat p :
  (4 * remaining p + 1 <= S fuel)%nat ->
  ends (parseProperty Unquote ParseInt (S fuel) isModule compat) p
       (fun _ p' => (remaining p' < remaining p)%nat).
Proof.
  intros Hf. simpl. ends_walk; ends_call IHe; ends_walk; lia.
Qed.
End Step.

(** Every function of the mutual recursion comes to an end within its
    budget, and returns with fewer tokens left, or no more of them. *)
Lemma parser_ends fuel :
  (forall p,
      (4 * remaining p + 3 <= fuel)%nat ->
      ends (parseExpression Unquote ParseInt fuel) p
           (fun _ p' => (remaining p' < remaining p)%nat)) /\
  (forall value1 p,
      (4 * remaining p + 4 <= fuel)%nat ->
      ends (parseOperator Unquote ParseInt fuel value1) p
           (fun _ p' => (remaining p' <= remaining p)%nat)) /\
  (forall p,
      (4 * remaining p + 2 <= fuel)%nat ->
      ends (parseValue Unquote ParseInt fuel) p
           (fun _ p' => (remaining p' < remaining p)%nat)) /\
  (forall p,
      (4 * remaining p + 1 <= fuel)%nat ->
      ends (parseSelect Unquote ParseInt fuel) p
           (fun _ p' => (remaining p' < remaining p)%nat)) /\
  (forall multi n cases has p,
      (4 * remaining p + 1 <= fuel)%nat ->
      ends (parseCases Unquote ParseInt fuel multi n cases has) p
           (fun _ p' => (remaining p' <= remaining p)%nat)) /\
  (forall p,
      (4 * remaining p + 1 <= fuel)%nat ->
      ends (parseListValue Unquote ParseInt fuel) p
           (fun _ p' => (remaining p' < remaining p)%nat)) /\
  (forall elements p,
      (4 * remaining p + 4 <= fuel)%nat ->
      ends (parseListElements Unquote ParseInt fuel elements) p
           (fun _ p' => (remaining p' <= remaining p)%nat)) /\
  (forall p,
      (4 * remaining p + 1 <= fuel)%nat ->
      ends (parseMapValue Unquote ParseInt fuel) p
           (fun _ p' => (remaining p' < remaining p)%nat)) /\
  (forall isModule compat properties p,
      (4 * remaining p + 2 <= fuel)%nat ->
      ends (parsePropertyList Unquote ParseInt fuel isModule compat
                              properties) p
           (fun _ p' => (remaining p' <= remaining p)%nat)) /\
  (forall isModule compat p,
      (4 * remaining p + 1 <= fuel)%nat ->
      ends (parseProperty Unquote ParseInt fuel isModule compat) p
           (fun _ p' => (remaining p' < remaining p)%nat)).
Proof.
  induction fuel as [|fuel IH].
  { repeat apply conj; intros; lia. }
  destruct IH as (IHe & IHo & IHv & IHs & IHc & IHl & IHle & IHm & IHpl & IHp).
  repeat apply conj; intros.
  - now apply step_parseExpression.
  - now apply step_parseOperator.
  - now apply step_parseValue.
  - now apply step_parseSelect.
  - now apply step_parseCases.
  - now apply step_parseListValue.
  - now apply step_parseListElements.
  - now apply step_parseMapValue.
  - now apply step_parsePropertyList.
  - now apply step_parseProperty.
Qed.

Lemma ends_parseAssignment fuel name namePos assigner p :
  (4 * remaining p + 3 <= fuel)%nat ->
  ends (parseAssignment Unquote ParseInt fuel name namePos assigner) p
       (fun _ p' => (remaining p' < remaining p)%nat).
Proof.
  intros Hf. unfold parseAssignment. ends_walk.
  ends_call (proj1 (parser_ends fuel)). ends_walk; try lia.
  - apply ends_bind, ends_try; [apply evaluateOperator_fuel_enough|].
    intros val _. ends_walk. lia.
  - apply ends_bind, ends_try.
    { unfold Scope_Add. repeat case_match; discriminate. }
    intros r _. ends_walk. apply ends_modify, ends_ret.
    change (remaining (set_scope p'1 (Some r.1))) with (remaining p'1). lia.
Qed.

Lemma ends_parseModule fuel typ typPos p :
  parser_tok p <> scanner.EOF ->
  (4 * remaining p + 2 <= fuel)%nat ->
  ends (parseModule Unquote ParseInt fuel typ typPos) p
       (fun _ p' => (remaining p' < remaining p)%nat).
Proof.
  intros Ht Hf. unfold parseModule. ends_walk.
  destruct (parser_ends fuel) as (_ & _ & _ & _ & _ & _ & _ & _ & Hpl & _).
  specialize (Hlt Ht).
  ends_call Hpl. ends_walk; lia.
Qed.

Lemma ends_parseDefinitions fuel :
  forall defs p,
    (4 * remaining p + 1 <= fuel)%nat ->
    ends (parseDefinitions Unquote ParseInt fuel defs) p
         (fun _ p' => (remaining p' <= remaining p)%nat).
Proof.
  induction fuel as [|fuel IH]; intros defs p Hf; [lia|].
  simpl. ends_walk; try lia.
  - ends_call ends_parseAssignment. ends_call IH. lia.
  - ends_call ends_parseAssignment. ends_call IH. lia.
  - apply ends_bind. eapply ends_weaken;
      [apply ends_parseModule; [tok_not_EOF|lia]|].
    intros m q Hq. cbv beta in Hq |- *. ends_call IH. lia.
Qed.

Lemma ends_parse fuel p :
  (4 * remaining p + 1 <= fuel)%nat ->
  parse Unquote ParseInt fuel p <> Exhausted.
Proof.
  intros Hf. unfold parse.
  match goal with |- context [match ?m p with _ => _ end] =>
    assert (ends m p (fun _ _ => True)) as Hm
  end.
  { ends_walk. ends_call ends_parseDefinitions. ends_walk. exact I. }
  unfold ends in Hm.
  match type of Hm with match ?r with _ => _ end =>
    destruct r as [a q|[|msg] q|]
  end; try discriminate. contradiction.
Qed.

Lemma remaining_newParser r scope st :
  remaining (newParser r scope st) = S (length r).
Proof. reflexivity. Qed.

Lemma ends_ParseExpression fuel r :
  (4 * length r + 7 <= fuel)%nat ->
  ParseExpression Unquote ParseInt fuel r <> Exhausted.
Proof.
  intros Hf. unfold ParseExpression.
  match goal with |- ?m ?p <> Exhausted =>
    assert (ends m p (fun _ _ => True)) as Hm
  end.
  { ends_walk. change (remaining (newParser r (Some (NewScope None)) []))
      with (S (length r)) in *.
    ends_call (proj1 (parser_ends fuel)). ends_walk. exact I. }
  unfold ends in Hm.
  match type of Hm with match ?r with _ => _ end =>
    destruct r as [a q|v q|]
  end; try discriminate. contradiction.
Qed.

(** X24: the parser comes to an end on every input.  In the model each
    call and each turn of a loop takes one unit of a budget; a budget of
    four units for each token of the input and seven more is never used
    up, so [Parse], [ParseAndEval] and [ParseExpression] return or
    panic, whatever the tokens are. *)
Theorem Parse_terminates fuel filename r scope st :
  (4 * length r + 7 <= fuel)%nat ->
  Parse Unquote ParseInt fuel filename r scope st <> Exhausted /\
  ParseAndEval Unquote ParseInt fuel filename r scope st <> Exhausted /\
  ParseExpression Unquote ParseInt fuel r <> Exhausted.
Proof.
  intros Hf. repeat apply conj.
  - apply ends_parse.
    change (remaining (set_Filename (newParser r scope st) filename))
      with (S (length r)). lia.
  - apply ends_parse.
    change (remaining (set_Filename (set_eval (newParser r scope st) true)
                                    filename))
      with (S (length r)). lia.
  - now apply ends_ParseExpression.
Qed.
End Terminates.

Lemma Parse_terminates_witness :
  Parse unquote_plain parse_decimal 15 "Android.bp"
        [tk scanner.Ident "x" 1 1; punct "=" 1 3] None [] <> Exhausted.
Proof.
  refine (proj1 (Parse_terminates unquote_plain parse_decimal 15 "Android.bp"
                   [tk scanner.Ident "x" 1 1; punct "=" 1 3] None [] _)).
  simpl. lia.
Defined.

(** ** The result does not depend on the budget *)

Lemma stable_refl {A} (m : M A) : stable m m.
Proof. intros p _. reflexivity. Qed.

Lemma stable_bind {A B} (m m' : M A) (k k' : A -> M B) :
  stable m m' -> (forall a, stable (k a) (k' a)) ->
  stable (bind m k) (bind m' k').
Proof.
  intros Hm Hk p H. unfold bind in *.
  pose proof (Hm p) as Hp.
  destruct (m p) as [a p1|v p1|].
  - rewrite Hp by discriminate. now apply Hk.
  - now rewrite Hp by discriminate.
  - now contradiction H.
Qed.

Lemma stable_exhausted {A} (m : M A) : stable exhausted m.
Proof. intros p H. now contradiction H. Qed.

(** Walk through two runs of the same code with different budgets. *)
Ltac stable_step :=
  lazymatch goal with
  | |- stable ?m ?m => apply stable_refl
  | |- stable exhausted _ => apply stable_exhausted
  | |- stable (bind _ _) (bind _ _) => apply stable_bind; [|intros ?]
  | |- stable (if ?c then _ else _) (if ?c then _ else _) => destruct c
  | |- stable (match ?x with _ => _ end) (match ?x with _ => _ end) =>
      destruct x
  | |- stable (let _ := _ in _) _ => cbv zeta
  | |- stable _ _ => solve [auto with nocore arith]
  end.

Ltac stable_walk := repeat stable_step.

Section Stable.
Variable Unquote : string -> option string.
Variable ParseInt : string -> option Z.

Lemma stable_parseConditionArgs fuel :
  forall fuel' args,
    (fuel <= fuel')%nat ->
    stable (parseConditionArgs Unquote fuel args)
           (parseConditionArgs Unquote fuel' args).
Proof.
  induction fuel as [|fuel IH]; intros [|fuel'] args Hle;
    try apply stable_exhausted; [lia|].
  simpl. stable_walk; try (apply IH; lia).
Qed.

Lemma stable_parseConditions fuel :
  forall fuel' multi conditions,
    (fuel <= fuel')%nat ->
    stable (parseConditions Unquote fuel multi conditions)
           (parseConditions Unquote fuel' multi conditions).
Proof.
  induction fuel as [|fuel IH]; intros [|fuel'] multi conditions Hle;
    try apply stable_exhausted; [lia|].
  simpl. stable_walk;
    try (apply stable_parseConditionArgs; lia); try (apply IH; lia).
Qed.

Lemma stable_parsePatterns fuel :
  forall fuel' n i patterns,
    (fuel <= fuel')%nat ->
    stable (parsePatterns Unquote fuel n i patterns)
           (parsePatterns Unquote fuel' n i patterns).
Proof.
  induction fuel as [|fuel IH]; intros [|fuel'] n i patterns Hle;
    try apply stable_exhausted; [lia|].
  simpl. stable_walk; try (apply IH; lia).
Qed.

(** Every function of the mutual recursion: a larger budget changes
    nothing to a run that did not use up a smaller one. *)
Lemma parser_stable fuel :
  forall fuel', (fuel <= fuel')%nat ->
  stable (parseExpression Unquote ParseInt fuel)
         (parseExpression Unquote ParseInt fuel') /\
  (forall value1,
      stable (parseOperator Unquote ParseInt fuel value1)
             (parseOperator Unquote ParseInt fuel' value1)) /\
  stable (parseValue Unquote ParseInt fuel)
         (parseValue Unquote ParseInt fuel') /\
  stable (parseSelect Unquote ParseInt fuel)
         (parseSelect Unquote ParseInt fuel') /\
  (forall multi n cases has,
      stable (parseCases Unquote ParseInt fuel multi n cases has)
             (parseCases Unquote ParseInt fuel' multi n cases has)) /\
  stable (parseListValue Unquote ParseInt fuel)
         (parseListValue Unquote ParseInt fuel') /\
  (forall elements,
      stable (parseListElements Unquote ParseInt fuel elements)
             (parseListElements Unquote ParseInt fuel' elements)) /\
  stable (parseMapValue Unquote ParseInt fuel)
         (parseMapValue Unquote ParseInt fuel') /\
  (forall isModule compat properties,
      stable (parsePropertyList Unquote ParseInt fuel isModule compat
                                properties)
             (parsePropertyList Unquote ParseInt fuel' isModule compat
                                properties)) /\
  (forall isModule compat,
      stable (parseProperty Unquote ParseInt fuel isModule compat)
             (parseProperty Unquote ParseInt fuel' isModule compat)).
Proof.
  induction fuel as [|fuel IH]; intros [|fuel'] Hle;
    try (repeat apply conj; intros; apply stable_exhausted); [lia|].
  destruct (IH fuel' ltac:(lia))
    as (IHe & IHo & IHv & IHs & IHc & IHl & IHle & IHm & IHpl & IHp).
  repeat apply conj; intros; simpl; stable_walk;
    try first [ apply stable_parseConditions; lia
          | apply stable_parsePatterns; lia
          | apply IHe | apply IHo | apply IHv | apply IHs | apply IHc
          | apply IHl | apply IHle | apply IHm | apply IHpl | apply IHp ].
Qed.

Lemma stable_parseAssignment fuel fuel' name namePos assigner :
  (fuel <= fuel')%nat ->
  stable (parseAssignment Unquote ParseInt fuel name namePos assigner)
         (parseAssignment Unquote ParseInt fuel' name namePos assigner).
Proof.
  intros Hle. unfold parseAssignment. stable_walk.
  all: try apply (parser_stable fuel fuel' Hle).
Qed.

Lemma stable_parseModule fuel fuel' typ typPos :
  (fuel <= fuel')%nat ->
  stable (parseModule Unquote ParseInt fuel typ typPos)
         (parseModule Unquote ParseInt fuel' typ typPos).
Proof.
  intros Hle. unfold parseModule. stable_walk.
  all: try apply (parser_stable fuel fuel' Hle).
Qed.

Lemma stable_parseDefinitions fuel :
  forall fuel' defs,
    (fuel <= fuel')%nat ->
    stable (parseDefinitions Unquote ParseInt fuel defs)
           (parseDefinitions Unquote ParseInt fuel' defs).
Proof.
  induction fuel as [|fuel IH]; intros [|fuel'] defs Hle;
    try apply stable_exhausted; [lia|].
  simpl. stable_walk;
    try (apply stable_parseAssignment; lia);
    try (apply stable_parseModule; lia);
    try (apply IH; lia).
Qed.

Lemma stable_parse fuel fuel' p :
  (fuel <= fuel')%nat ->
  parse Unquote ParseInt fuel p <> Exhausted ->
  parse Unquote ParseInt fuel' p = parse Unquote ParseInt fuel p.
Proof.
  intros Hle. unfold parse.
  match goal with
  | |- match ?m p with _ => _ end <> _ ->
       match ?m' p with _ => _ end = _ =>
      assert (stable m m') as Hm
  end.
  { stable_walk. apply stable_parseDefinitions. exact Hle. }
  intros H. rewrite (Hm p); [reflexivity|].
  intros E. apply H. now rewrite E.
Qed.

Lemma stable_ParseExpression fuel fuel' r :
  (fuel <= fuel')%nat ->
  ParseExpression Unquote ParseInt fuel r <> Exhausted ->
  ParseExpression Unquote ParseInt fuel' r
  = ParseExpression Unquote ParseInt fuel r.
Proof.
  intros Hle. unfold ParseExpression.
  match goal with |- ?m _ <> _ -> ?m' _ = _ =>
    assert (stable m m') as Hm
  end.
  { stable_walk. apply (parser_stable fuel fuel' Hle). }
  apply Hm.
Qed.

(** X25: the budget of the model plays no part in what the parser
    answers: with any budget of at least four units for each token of the
    input and seven more, [Parse], [ParseAndEval] and [ParseExpression]
    end as they do with exactly that much, in the same state and with
    the same result. *)
Theorem Parse_budget_irrelevant fuel filename r scope st :
  (4 * length r + 7 <= fuel)%nat ->
  Parse Unquote ParseInt fuel filename r scope st
  = Parse Unquote ParseInt (4 * length r + 7) filename r scope st /\
  ParseAndEval Unquote ParseInt fuel filename r scope st
  = ParseAndEval Unquote ParseInt (4 * length r + 7) filename r scope st /\
  ParseExpression Unquote ParseInt fuel r
  = ParseExpression Unquote ParseInt (4 * length r + 7) r.
Proof.
  intros Hf. repeat apply conj.
  - apply stable_parse; [exact Hf|]. apply ends_parse.
    change (remaining (set_Filename (newParser r scope st) filename))
      with (S (length r)). lia.
  - apply stable_parse; [exact Hf|]. apply ends_parse.
    change (remaining (set_Filename (set_eval (newParser r scope st) true)
                                    filename))
      with (S (length r)). lia.
  - apply stable_ParseExpression; [exact Hf|].
    apply ends_ParseExpression. lia.
Qed.
End Stable.

Lemma Parse_budget_irrelevant_witness :
  Parse unquote_plain parse_decimal 100 "Android.bp"
        [tk scanner.Ident "x" 1 1; punct "=" 1 3] None []
  = Parse unquote_plain parse_decimal 15 "Android.bp"
          [tk scanner.Ident "x" 1 1; punct "=" 1 3] None [].
Proof.
  refine (proj1 (Parse_budget_irrelevant unquote_plain parse_decimal 100
                   "Android.bp" [tk scanner.Ident "x" 1 1; punct "=" 1 3]
                   None [] _)).
  simpl. lia.
Defined.

(** ** [ParseExpression] returns at the end of the input only *)

Lemma accept_EOF_Ok p p' :
  accept scanner.EOF p = Ok tt p' -> p' = p /\ parser_tok p = scanner.EOF.
Proof.
  unfold accept, next. intros H. unfold_monad_in H.
  destruct (decide (parser_tok p = scanner.EOF)) as [E|N].
  - rewrite decide_True in H by exact E. injection H as <-. auto.
  - now apply errorf_Ok in H.
Qed.

(** X26: when [ParseExpression] returns, the list of errors it returns is
    empty and the parser stands at the end of the input: an expression
    followed by anything else, like any other parse error, never makes it
    return. *)
Theorem ParseExpression_returns_at_EOF Unquote ParseInt fuel r value errs p' :
  ParseExpression Unquote ParseInt fuel r = Ok (value, errs) p' ->
  errs = [] /\ parser_tok p' = scanner.EOF /\ parser_errors p' = [].
Proof.
  intros H.
  pose proof (ParseExpression_returns_no_error _ _ _ _ _ _ _ H) as ->.
  split; [reflexivity|].
  unfold ParseExpression in H. run H.
  apply accept_EOF_Ok in Run1 as (-> & Ht).
  injection H as _ He <-. auto.
Qed.

Lemma ParseExpression_returns_at_EOF_witness :
  exists p',
    ParseExpression unquote_plain parse_decimal 10
                    [tk scanner.String (quoted "a") 1 1]
    = Ok (EString (mkPosition "" 0 1 1) "a", []) p' /\
    parser_tok p' = scanner.EOF.
Proof.
  destruct (ParseExpression unquote_plain parse_decimal 10
                            [tk scanner.String (quoted "a") 1 1])
    as [[value errs] p'| |] eqn:Run; [|vm_compute in Run; discriminate Run ..].
  exists p'.
  destruct (ParseExpression_returns_at_EOF _ _ _ _ _ _ _ Run)
    as (-> & Ht & _).
  split; [|exact Ht].
  assert (returned (ParseExpression unquote_plain parse_decimal 10
                                    [tk scanner.String (quoted "a") 1 1])
          = Some (EString (mkPosition "" 0 1 1) "a", [])) as Hret
      by (vm_compute; reflexivity).
  rewrite Run in Hret. injection Hret as ->. reflexivity.
Defined.
